(** * MADNESS Cloud and relative function pointers

    A shallow embedding of
    - [src/madness/world/archive.h]: the relative encoding of function
      pointers and member function pointers ([to_rel_fn_ptr],
      [to_rel_memfn_ptr], [to_abs_fn_ptr], [to_abs_memfn_ptr]);
    - [src/madness/world/cloud.h]: the [Cloud] class ([Recordlist],
      [compute_record], [store], [load] and their helpers).

    Machine integers are [Z] with the two's complement wrap-around written
    out, doubles are the kernel's binary64 floats, the distributed container
    and the cache are finite maps, the key ledger is a list. *)

From Stdlib Require Import ZArith List Floats Lia Bool.
From stdpp Require Import base decidable option list gmap.
Import ListNotations.

(** ** 64-bit signed integers ([std::ptrdiff_t], [long]) *)

Module Int64.
Local Open Scope Z_scope.

Definition min_signed : Z := - 2 ^ 63.
Definition max_signed : Z := 2 ^ 63 - 1.

(** Reduction of a mathematical integer to the 64-bit two's complement
    value that the hardware keeps. *)
Definition wrap (z : Z) : Z := (z + 2 ^ 63) mod 2 ^ 64 - 2 ^ 63.

Definition in_range (z : Z) : Prop := min_signed <= z <= max_signed.

Definition add (a b : Z) : Z := wrap (a + b).
Definition sub (a b : Z) : Z := wrap (a - b).

(** [n] times [x++] on a 64-bit counter. *)
Definition increments (n : nat) (x : Z) : Z := Nat.iter n (fun k => add k 1) x.

(** [(x & 1) == 0] *)
Definition even_bit (z : Z) : bool := Z.land z 1 =? 0.

Lemma wrap_in_range z : in_range (wrap z).
Proof.
  unfold in_range, wrap, min_signed, max_signed.
  pose proof (Z.mod_pos_bound (z + 2 ^ 63) (2 ^ 64) ltac:(lia)). lia.
Qed.

Lemma wrap_id z : in_range z -> wrap z = z.
Proof.
  unfold in_range, wrap, min_signed, max_signed. intros H.
  rewrite Z.mod_small by lia. lia.
Qed.

Lemma wrap_idem_add a b : wrap (wrap a + b) = wrap (a + b).
Proof.
  unfold wrap.
  replace ((a + 2 ^ 63) mod 2 ^ 64 - 2 ^ 63 + b + 2 ^ 63)
    with ((a + 2 ^ 63) mod 2 ^ 64 + b) by lia.
  rewrite Zplus_mod_idemp_l. do 2 f_equal. lia.
Qed.

Lemma add_sub_cancel p o : in_range p -> add (sub p o) o = p.
Proof.
  intros H. unfold add, sub. rewrite wrap_idem_add.
  replace (p - o + o) with p by lia. now apply wrap_id.
Qed.

Lemma sub_add_cancel p o : in_range p -> sub (add p o) o = p.
Proof.
  intros H. unfold add, sub.
  replace (wrap (p + o) - o) with (wrap (p + o) + - o) by lia.
  rewrite wrap_idem_add.
  replace (p + o + - o) with p by lia. now apply wrap_id.
Qed.

Lemma even_bit_spec z : even_bit z = Z.even z.
Proof.
  unfold even_bit. change 1 with (Z.ones 1). rewrite Z.land_ones by lia.
  change (2 ^ 1) with 2. rewrite Zmod_even. destruct (Z.even z); reflexivity.
Qed.

Lemma even_wrap z : Z.even (wrap z) = Z.even z.
Proof.
  unfold wrap.
  pose proof (Z.div_mod (z + 2 ^ 63) (2 ^ 64) ltac:(lia)) as Hdm.
  set (q := (z + 2 ^ 63) / 2 ^ 64) in *.
  set (r := (z + 2 ^ 63) mod 2 ^ 64) in *.
  replace (r - 2 ^ 63) with (z - 2 * (2 ^ 63 * q)) by lia.
  rewrite Z.even_sub, Z.even_mul. simpl.
  destruct (Z.even z); reflexivity.
Qed.

Lemma even_sub_even p o : Z.even o = true -> Z.even (sub p o) = Z.even p.
Proof.
  intros Ho. unfold sub. rewrite even_wrap, Z.even_sub, Ho.
  destruct (Z.even p); reflexivity.
Qed.

Lemma increments_S n x : increments (S n) x = add (increments n x) 1.
Proof. reflexivity. Qed.

Lemma increments_succ_r n x : increments (S n) x = increments n (add x 1).
Proof.
  induction n as [| n IH]; [reflexivity|].
  rewrite increments_S, IH. reflexivity.
Qed.

Lemma increments_add n m x : increments (n + m) x = increments n (increments m x).
Proof.
  induction n as [| n IH]; [reflexivity|].
  change (S n + m)%nat with (S (n + m)). now rewrite !increments_S, IH.
Qed.

(** The counter after [n] increments is the sum, reduced to 64 bits. *)
Lemma increments_wrap n x : increments (S n) x = wrap (x + Z.of_nat (S n)).
Proof.
  induction n as [| n IH]; [reflexivity|].
  rewrite increments_S, IH. unfold add. rewrite wrap_idem_add.
  f_equal. lia.
Qed.

(** Below [LONG_MAX] the increments are those of the integers. *)
Lemma increments_small n x :
  in_range x -> x + Z.of_nat n <= max_signed -> increments n x = x + Z.of_nat n.
Proof.
  intros Hx Hn. destruct n as [| n]; [cbn; lia|].
  rewrite increments_wrap. apply wrap_id.
  unfold in_range in *. lia.
Qed.

(** At [LONG_MAX] the increment gives [LONG_MIN]. *)
Lemma increments_overflow : increments 1 max_signed = min_signed.
Proof. reflexivity. Qed.

End Int64.

(** ** Relative function pointers ([archive.h]) *)

Module Archive.
Local Open Scope Z_scope.

(** The C++ ABI the library is configured for ([MADNESS_CXX_ABI]). *)
Inductive cxx_abi : Set :=
| GenericItanium
| GenericARM
| Microsoft.

(** A member function pointer seen as [std::array<std::ptrdiff_t, N>]
    (the [memcpy] of [to_rel_memfn_ptr]); [N = 2] under the Itanium and ARM
    ABIs, where slot 0 is the pointer and slot 1 the adjustment. *)
Definition memfn_ptr : Set := list Z.

Section RelativePointers.

(** [fn_ptr_origin()], the address of the reference function; it is declared
    in [archive.h] and defined elsewhere. *)
Variable fn_ptr_origin : Z.

Definition to_rel_fn_ptr (fn : Z) : Z :=
  Int64.sub fn fn_ptr_origin.

Definition to_abs_fn_ptr (rel_fn_ptr : Z) : Z :=
  Int64.add rel_fn_ptr fn_ptr_origin.

Definition to_rel_memfn_ptr (abi : cxx_abi) (fn : memfn_ptr) : memfn_ptr :=
  match abi, fn with
  | GenericItanium, r0 :: r1 :: rest =>
      if r0 =? 0 then r0 :: Int64.min_signed :: rest
      else if Int64.even_bit r0 then Int64.sub r0 fn_ptr_origin :: r1 :: rest
      else fn
  | GenericARM, r0 :: r1 :: rest =>
      let even_adj := Int64.even_bit r1 in
      if even_adj then
        if r0 =? 0 then Int64.min_signed :: r1 :: rest
        else Int64.sub r0 fn_ptr_origin :: r1 :: rest
      else fn
  | _, _ => fn
  end.

Definition to_abs_memfn_ptr (abi : cxx_abi) (rel_fn_ptr : memfn_ptr) : memfn_ptr :=
  match abi, rel_fn_ptr with
  | GenericItanium, r0 :: r1 :: rest =>
      if (r0 =? 0) && (r1 =? Int64.min_signed) then r0 :: 0 :: rest
      else if Int64.even_bit r0 then Int64.add r0 fn_ptr_origin :: r1 :: rest
      else rel_fn_ptr
  | GenericARM, r0 :: r1 :: rest =>
      let even_adj := Int64.even_bit r1 in
      if even_adj then
        if r0 =? Int64.min_signed then 0 :: r1 :: rest
        else Int64.add r0 fn_ptr_origin :: r1 :: rest
      else rel_fn_ptr
  | _, _ => rel_fn_ptr
  end.

End RelativePointers.

(** Classification of a member function pointer under each ABI.  Itanium:
    pointer slot zero is null, an odd pointer slot is virtual.  ARM: an odd
    adjustment is virtual, pointer slot zero with an even adjustment is
    null.  The Microsoft layout is copied verbatim and not classified. *)
Definition is_null (abi : cxx_abi) (fn : memfn_ptr) : bool :=
  match abi, fn with
  | GenericItanium, r0 :: _ :: _ => r0 =? 0
  | GenericARM, r0 :: r1 :: _ => Int64.even_bit r1 && (r0 =? 0)
  | _, _ => false
  end.

Definition is_virtual (abi : cxx_abi) (fn : memfn_ptr) : bool :=
  match abi, fn with
  | GenericItanium, r0 :: _ :: _ => negb (Int64.even_bit r0)
  | GenericARM, _ :: r1 :: _ => negb (Int64.even_bit r1)
  | _, _ => false
  end.

(** The relative form of a non-null pointer that the decoder reads as the
    null sentinel. *)
Definition hits_null_sentinel (origin : Z) (abi : cxx_abi) (fn : memfn_ptr) : bool :=
  match abi, fn with
  | GenericItanium, r0 :: r1 :: _ =>
      (Int64.sub r0 origin =? 0) && (r1 =? Int64.min_signed)
  | GenericARM, r0 :: _ :: _ => Int64.sub r0 origin =? Int64.min_signed
  | _, _ => false
  end.

(** The member function pointers that a program can hold.  The sentinels
    of [to_rel_memfn_ptr] are values that the relative form of no such
    pointer takes.  Under the Itanium ABI the sentinel is the pair of a
    zero distance and the adjustment [PTRDIFF_MIN]: a member function is
    not at the address of the reference function, which is another
    function, and an adjustment, an offset into an object, is not
    [PTRDIFF_MIN].  Under the ARM ABI it is the distance [PTRDIFF_MIN]: no
    function is [2^63] bytes, half the address space, away from the
    reference function.  Null and virtual pointers are not translated and
    are not constrained. *)
Definition well_formed (origin : Z) (abi : cxx_abi) (fn : memfn_ptr) : Prop :=
  is_null abi fn = false -> is_virtual abi fn = false ->
  match abi, fn with
  | GenericItanium, r0 :: r1 :: _ =>
      Int64.sub r0 origin <> 0 \/ r1 <> Int64.min_signed
  | GenericARM, r0 :: _ :: _ => Int64.sub r0 origin <> Int64.min_signed
  | _, _ => True
  end.

(** Equality of member function pointers as the language sees it: two null
    pointers are equal whatever their unused slot holds, other pointers are
    equal when their representations are. *)
Definition memfn_eq (abi : cxx_abi) (a b : memfn_ptr) : Prop :=
  (is_null abi a = true /\ is_null abi b = true) \/ a = b.

End Archive.

(** ** The Cloud ([cloud.h]) *)

Module CloudStore.

(** [keyT] is [long]; a [recordlistT] wraps a [std::list<keyT>]. *)
Abbreviation keyT := Z (only parsing).
Abbreviation recordlistT := (list Z) (only parsing).

(** *** Recordlist *)

Definition Recordlist_of (key : keyT) : recordlistT := [key].

(** [operator+=(const Recordlist&)] *)
Definition append_list (l list2 : recordlistT) : recordlistT :=
  fold_left (fun acc l2 => acc ++ [l2]) list2 l.

(** [operator+=(const T&)] *)
Definition append_key (l : recordlistT) (key : keyT) : recordlistT := l ++ [key].

(** [pop_front_and_return]: [list.front()] of an empty [std::list] is
    undefined; the embedding returns [None] there. *)
Definition pop_front_and_return (l : recordlistT) : option (keyT * recordlistT) :=
  match l with
  | [] => None
  | key :: rest => Some (key, rest)
  end.

Definition size (l : recordlistT) : nat := length l.

(** *** Values *)

(** [uniqueidT], the identifier of a world object. *)
Record uniqueidT : Set := { worldid : Z; objid : Z }.

(** [std::shared_ptr<FunctionImpl<double,3>>] pointing to a live
    implementation, which carries its identifier. *)
Record FunctionImpl_ptr : Set := { impl_id : uniqueidT }.

(** [Function<double,3>], a handle around the implementation pointer. *)
Record Function : Set := { get_impl : FunctionImpl_ptr }.

(** [Tensor<double>]: dimensions and the elements in memory order. *)
Record Tensor : Set := { dims : list Z; elements : list float }.

(** [World]: the rank of the calling process in it, and its identifier. *)
Record World : Set := { rank : Z; world_id : Z }.

(** The alternatives of the variant [cached_objT], in declaration order
    ([std::monostate], which the class never constructs, is left out). *)
Inductive leafT : Set :=
| size_tT
| intT
| longT
| doubleT
| vector_doubleT
| TensorT
| FunctionT
| vector_FunctionT
| impl_ptrT
| vector_impl_ptrT.

#[global] Instance leafT_eq_dec : EqDecision leafT.
Proof. solve_decision. Defined.

Inductive cached_objT : Set :=
| O_size_t (n : Z)
| O_int (i : Z)
| O_long (l : Z)
| O_double (d : float)
| O_vector_double (v : list float)
| O_Tensor (t : Tensor)
| O_Function (f : Function)
| O_vector_Function (v : list Function)
| O_impl_ptr (p : FunctionImpl_ptr)
| O_vector_impl_ptr (v : list FunctionImpl_ptr).

(** The alternative a variant holds ([std::variant::index]). *)
Definition type_of (o : cached_objT) : leafT :=
  match o with
  | O_size_t _ => size_tT
  | O_int _ => intT
  | O_long _ => longT
  | O_double _ => doubleT
  | O_vector_double _ => vector_doubleT
  | O_Tensor _ => TensorT
  | O_Function _ => FunctionT
  | O_vector_Function _ => vector_FunctionT
  | O_impl_ptr _ => impl_ptrT
  | O_vector_impl_ptr _ => vector_impl_ptrT
  end.

#[local] Unset Elimination Schemes.

(** The values that [store] accepts and [load] can return: an object of one
    of the types above ([load_other] assigns what it reads to the cache, so
    [load<T>] exists for these types only), or a [std::tuple] whose members
    are again such values ([store_tuple] calls [store] on each). *)
Inductive value : Type :=
| VLeaf (o : cached_objT)
| VTuple (members : list value).

#[local] Set Elimination Schemes.

(** What [load<T>] accepts: [load_tuple] hands every member to
    [load_internal], so the members of a tuple are not tuples. *)
Inductive ty : Set :=
| TLeaf (T : leafT)
| TTuple (Ts : list leafT).

(** The members of a tuple that [load] can rebuild. *)
Fixpoint flat_members (members : list value) : option (list cached_objT) :=
  match members with
  | [] => Some []
  | VLeaf o :: rest => os ← flat_members rest; Some (o :: os)
  | VTuple _ :: _ => None
  end.

(** The type at which [load] rebuilds a value, when there is one. *)
Definition type_of_value (v : value) : option ty :=
  match v with
  | VLeaf o => Some (TLeaf (type_of o))
  | VTuple members => os ← flat_members members; Some (TTuple (map type_of os))
  end.

(** *** Collaborators *)

(** The overload set [hash_value] at its call sites in [compute_record]. *)
Inductive hash_arg : Set :=
| H_size_t (n : Z)
| H_int (i : Z)
| H_long (l : Z)
| H_double (d : float)
| H_uniqueid (u : uniqueidT).

(** The code [cloud.h] calls and does not define: the hash functions of
    [worldhash.h] ([hashT] is an unsigned 64-bit integer; [hash_range] takes
    the elements between its two iterators, in order), [Tensor::normf],
    the archives that turn an object into the byte vector kept in the
    container and back, and the CPU clock read by the timers: [elapsed_ms n]
    is the value of [long((cpu_time() - cpu0) * 1000l)] in the destructor
    of the timer that is, counting from zero, the [n]-th of the process to
    add its measurement to a counter.
    Deserialisation is typed in C++: [par & target] fills a [T].
    The last two fields are what the memory of a new [Cloud] holds where
    [cache_reads] and [cache_stores] are placed: the constructor's
    initialiser list names neither, and a default-initialised
    [std::atomic<long>] has an indeterminate value before C++20. *)
Class Substrate : Type := {
  blob : Type;
  hash_value : hash_arg -> Z;
  hash_range : list hash_arg -> Z;
  normf : Tensor -> float;
  serialize : cached_objT -> blob;
  deserialize : World -> leafT -> blob -> option cached_objT;
  deserialize_type : forall w T b o, deserialize w T b = Some o -> type_of o = T;
  elapsed_ms : nat -> Z;
  indeterminate_cache_reads : Z;
  indeterminate_cache_stores : Z
}.

(** *** Errors *)

(** How a load ends when it does not return: [MADNESS_CHECK] throws
    ([CacheRequiredMiss]), [MADNESS_EXCEPTION] throws ([TypeMismatch]), the
    container has no such record, the archive fails, the front of an empty
    list is read ([EmptyRecordList], undefined in C++), or the end iterator
    of the cache is dereferenced ([UndefinedBehaviour]). *)
Inductive error : Set :=
| CacheRequiredMiss
| TypeMismatch
| MissingRecord
| SerializationFailure
| EmptyRecordList
| UndefinedBehaviour.

Inductive result (A : Type) : Type :=
| Ok (a : A)
| Err (e : error).
Arguments Ok {A} a.
Arguments Err {A} e.

#[global] Instance result_ret : MRet result := fun A a => Ok a.
#[global] Instance result_bind : MBind result := fun A B f m =>
  match m with
  | Ok a => f a
  | Err e => Err e
  end.


Section Cloud.
Context {SUB : Substrate}.

(** The conversion of a [hashT] to [keyT], from unsigned to signed. *)
Definition to_keyT (h : Z) : keyT := Int64.wrap h.

(** The hash of a handle as an element of a hashed vector: that of the
    identifier of its implementation. *)
Definition hash_of_impl (p : FunctionImpl_ptr) : hash_arg := H_uniqueid (impl_id p).
Definition hash_of_Function (f : Function) : hash_arg := hash_of_impl (get_impl f).

(** [compute_record]: the branches of the [if constexpr] chain that the
    alternatives of [cached_objT] select. *)
Definition compute_record (arg : cached_objT) : keyT :=
  match arg with
  | O_Function f => to_keyT (hash_value (H_uniqueid (impl_id (get_impl f))))
  | O_Tensor t => to_keyT (hash_value (H_double (normf t)))
  | O_impl_ptr p => to_keyT (hash_value (H_uniqueid (impl_id p)))
  | O_vector_double v => to_keyT (hash_range (map H_double v))
  | O_vector_Function v => to_keyT (hash_range (map hash_of_Function v))
  | O_vector_impl_ptr v => to_keyT (hash_range (map hash_of_impl v))
  | O_size_t n => to_keyT (hash_value (H_size_t n))
  | O_int i => to_keyT (hash_value (H_int i))
  | O_long l => to_keyT (hash_value (H_long l))
  | O_double d => to_keyT (hash_value (H_double d))
  end.

(** The members of the class.  The four counters are [std::atomic<long>]:
    64-bit two's complement values whose arithmetic wraps around.
    [container_puts] and [measurements] are not members: the first logs, in
    order, the key of every write to the container, the second counts the
    timers that have added their measurement on this process. *)
Record Cloud : Type := {
  debug : bool;
  dofence : bool;
  force_load_from_cache : bool;
  container : gmap Z blob;
  container_puts : list Z;
  cached_objects : gmap Z cached_objT;
  local_list_of_container_keys : recordlistT;
  reading_time : Z;
  writing_time : Z;
  cache_reads : Z;
  cache_stores : Z;
  measurements : nat
}.

(** The constructor, with the members' default initialisers.  Its
    initialiser list is [container(universe), reading_time(0l),
    writing_time(0l)]: the two cache counters are left as the memory holds
    them, until [clear_cache] or [clear_timings] sets them to zero. *)
Definition new_cloud : Cloud :=
  {| debug := false; dofence := true; force_load_from_cache := false;
     container := ∅; container_puts := [];
     cached_objects := ∅; local_list_of_container_keys := [];
     reading_time := 0; writing_time := 0;
     cache_reads := indeterminate_cache_reads;
     cache_stores := indeterminate_cache_stores;
     measurements := 0 |}.

Definition set_debug (value : bool) (c : Cloud) : Cloud :=
  {| debug := value; dofence := dofence c;
     force_load_from_cache := force_load_from_cache c;
     container := container c; container_puts := container_puts c;
     cached_objects := cached_objects c;
     local_list_of_container_keys := local_list_of_container_keys c;
     reading_time := reading_time c; writing_time := writing_time c;
     cache_reads := cache_reads c; cache_stores := cache_stores c;
     measurements := measurements c |}.

Definition set_fence (value : bool) (c : Cloud) : Cloud :=
  {| debug := debug c; dofence := value;
     force_load_from_cache := force_load_from_cache c;
     container := container c; container_puts := container_puts c;
     cached_objects := cached_objects c;
     local_list_of_container_keys := local_list_of_container_keys c;
     reading_time := reading_time c; writing_time := writing_time c;
     cache_reads := cache_reads c; cache_stores := cache_stores c;
     measurements := measurements c |}.

Definition set_force_load_from_cache (value : bool) (c : Cloud) : Cloud :=
  {| debug := debug c; dofence := dofence c;
     force_load_from_cache := value;
     container := container c; container_puts := container_puts c;
     cached_objects := cached_objects c;
     local_list_of_container_keys := local_list_of_container_keys c;
     reading_time := reading_time c; writing_time := writing_time c;
     cache_reads := cache_reads c; cache_stores := cache_stores c;
     measurements := measurements c |}.

(** [world.gop.fence()]: a barrier across the ranks of [world]; it changes
    no member of the calling rank's [Cloud]. *)
Definition fence (world : World) (c : Cloud) : Cloud := c.

Definition clear_cache (subworld : World) (c : Cloud) : Cloud :=
  fence subworld
    {| debug := debug c; dofence := dofence c;
       force_load_from_cache := force_load_from_cache c;
       container := container c; container_puts := container_puts c;
       cached_objects := ∅;
       local_list_of_container_keys := [];
       reading_time := reading_time c; writing_time := writing_time c;
       cache_reads := 0; cache_stores := 0;
       measurements := measurements c |}.

Definition clear_timings (c : Cloud) : Cloud :=
  {| debug := debug c; dofence := dofence c;
     force_load_from_cache := force_load_from_cache c;
     container := container c; container_puts := container_puts c;
     cached_objects := cached_objects c;
     local_list_of_container_keys := [];
     reading_time := 0; writing_time := 0;
     cache_reads := 0; cache_stores := 0;
     measurements := measurements c |}.

(** The destructors of [storetimer] and [loadtimer]:
    [if (world.rank()==0) wtime += long((cpu_time() - cpu0) * 1000l)], an
    addition on a [std::atomic<long>]. *)
Definition storetimer (world : World) (c : Cloud) : Cloud :=
  if (rank world =? 0)%Z then
    {| debug := debug c; dofence := dofence c;
       force_load_from_cache := force_load_from_cache c;
       container := container c; container_puts := container_puts c;
       cached_objects := cached_objects c;
       local_list_of_container_keys := local_list_of_container_keys c;
       reading_time := reading_time c;
       writing_time := Int64.add (writing_time c) (elapsed_ms (measurements c));
       cache_reads := cache_reads c; cache_stores := cache_stores c;
       measurements := S (measurements c) |}
  else c.

Definition loadtimer (world : World) (c : Cloud) : Cloud :=
  if (rank world =? 0)%Z then
    {| debug := debug c; dofence := dofence c;
       force_load_from_cache := force_load_from_cache c;
       container := container c; container_puts := container_puts c;
       cached_objects := cached_objects c;
       local_list_of_container_keys := local_list_of_container_keys c;
       reading_time := Int64.add (reading_time c) (elapsed_ms (measurements c));
       writing_time := writing_time c;
       cache_reads := cache_reads c; cache_stores := cache_stores c;
       measurements := S (measurements c) |}
  else c.

(** [cache_reads++] and [cache_stores++], each guarded by [world.rank()==0]
    at its call site; the increment of a [std::atomic<long>] at [LONG_MAX]
    gives [LONG_MIN]. *)
Definition count_cache_read (world : World) (c : Cloud) : Cloud :=
  if (rank world =? 0)%Z then
    {| debug := debug c; dofence := dofence c;
       force_load_from_cache := force_load_from_cache c;
       container := container c; container_puts := container_puts c;
       cached_objects := cached_objects c;
       local_list_of_container_keys := local_list_of_container_keys c;
       reading_time := reading_time c; writing_time := writing_time c;
       cache_reads := Int64.add (cache_reads c) 1;
       cache_stores := cache_stores c; measurements := measurements c |}
  else c.

Definition count_cache_store (world : World) (c : Cloud) : Cloud :=
  if (rank world =? 0)%Z then
    {| debug := debug c; dofence := dofence c;
       force_load_from_cache := force_load_from_cache c;
       container := container c; container_puts := container_puts c;
       cached_objects := cached_objects c;
       local_list_of_container_keys := local_list_of_container_keys c;
       reading_time := reading_time c; writing_time := writing_time c;
       cache_reads := cache_reads c;
       cache_stores := Int64.add (cache_stores c) 1;
       measurements := measurements c |}
  else c.

(** [cache]: [cached_objects[record] = obj]. *)
Definition cache (world : World) (obj : cached_objT) (record : keyT) (c : Cloud) : Cloud :=
  {| debug := debug c; dofence := dofence c;
     force_load_from_cache := force_load_from_cache c;
     container := container c; container_puts := container_puts c;
     cached_objects := <[record := obj]> (cached_objects c);
     local_list_of_container_keys := local_list_of_container_keys c;
     reading_time := reading_time c; writing_time := writing_time c;
     cache_reads := cache_reads c; cache_stores := cache_stores c;
     measurements := measurements c |}.

(** The archive of [store_other]: the object is serialised and the byte
    vector replaces what the container holds at [record]; the key is then
    appended to the local list. *)
Definition write_record (record : keyT) (source : cached_objT) (c : Cloud) : Cloud :=
  {| debug := debug c; dofence := dofence c;
     force_load_from_cache := force_load_from_cache c;
     container := <[record := serialize source]> (container c);
     container_puts := container_puts c ++ [record];
     cached_objects := cached_objects c;
     local_list_of_container_keys :=
       append_key (local_list_of_container_keys c) record;
     reading_time := reading_time c; writing_time := writing_time c;
     cache_reads := cache_reads c; cache_stores := cache_stores c;
     measurements := measurements c |}.

Definition is_cached (key : keyT) (c : Cloud) : bool :=
  bool_decide (is_Some (cached_objects c !! key)).

(** [is_in_container]: a [std::find] over the local list of keys. *)
Definition is_in_container (key : keyT) (c : Cloud) : bool :=
  bool_decide (key ∈ local_list_of_container_keys c).

(** [if (dofence) world.gop.fence()] *)
Definition fence_if_set (world : World) (c : Cloud) : Cloud :=
  if dofence c then fence world c else c.

(** *** Storing *)

(** [store_other], the general template. *)
Definition store_other_generic (world : World) (source : cached_objT) (c : Cloud)
  : recordlistT * Cloud :=
  let record := compute_record source in
  let is_already_present := is_in_container record c in
  let c1 :=
    if is_already_present then count_cache_store world c
    else write_record record source c in
  (Recordlist_of record, fence_if_set world c1).

(** [store_other], the overload for [std::vector<Function<T,NDIM>>]. *)
Definition store_other_vector_Function (world : World) (source : list Function) (c : Cloud)
  : recordlistT * Cloud :=
  let '(l, c1) := store_other_generic world (O_size_t (Z.of_nat (length source))) c in
  let '(l, c2) :=
    fold_left
      (fun (acc : recordlistT * Cloud) s =>
         let '(l2, c') := store_other_generic world (O_Function s) (snd acc) in
         (append_list (fst acc) l2, c'))
      source (l, c1) in
  (l, fence_if_set world c2).

(** Overload resolution between the two. *)
Definition store_other (world : World) (source : cached_objT) (c : Cloud)
  : recordlistT * Cloud :=
  match source with
  | O_vector_Function v => store_other_vector_Function world v c
  | _ => store_other_generic world source c
  end.

(** [store_tuple], over the [store] it calls on each member. *)
Definition store_tuple_with (store : World -> value -> Cloud -> recordlistT * Cloud)
    (world : World) (input : list value) (c : Cloud) : recordlistT * Cloud :=
  fold_left
    (fun (acc : recordlistT * Cloud) arg =>
       let '(l, c') := store world arg (snd acc) in
       (append_list (fst acc) l, c'))
    input ([], c).

Fixpoint store (world : World) (source : value) (c : Cloud) {struct source}
  : recordlistT * Cloud :=
  let '(l, c1) :=
    match source with
    | VTuple members => store_tuple_with store world members c
    | VLeaf o => store_other world o c
    end in
  (append_list [] l, storetimer world (fence_if_set world c1)).

Definition store_tuple : World -> list value -> Cloud -> recordlistT * Cloud :=
  store_tuple_with store.

(** *** Loading *)

(** Modelled from the spec: the input archive over a record of the
    container ([parallel_dc_archive.h]) is not among the sources; a load of
    a record that the container does not hold fails, "no such record". *)
Definition fetch_record (record : keyT) (c : Cloud) : result blob :=
  match container c !! record with
  | Some bytes => Ok bytes
  | None => Err MissingRecord
  end.

(** [load_from_cache]: [std::get_if<T>] on what [find(record)] points to;
    its only caller has checked [is_cached(record)]. *)
Definition load_from_cache (T : leafT) (world : World) (record : keyT) (c : Cloud)
  : result (cached_objT * Cloud) :=
  let c1 := count_cache_read world c in
  match cached_objects c1 !! record with
  | Some obj =>
      if decide (type_of obj = T) then Ok (obj, c1) else Err TypeMismatch
  | None => Err UndefinedBehaviour
  end.

Definition load_other (T : leafT) (world : World) (recordlist : recordlistT) (c : Cloud)
  : result (cached_objT * recordlistT * Cloud) :=
  match pop_front_and_return recordlist with
  | None => Err EmptyRecordList
  | Some (record, recordlist') =>
      if force_load_from_cache c && negb (is_cached record c) then
        Err CacheRequiredMiss
      else if is_cached record c then
        '(obj, c') ← load_from_cache T world record c;
        mret (obj, recordlist', c')
      else
        bytes ← fetch_record record c;
        match deserialize world T bytes with
        | None => Err SerializationFailure
        | Some target => Ok (target, recordlist', cache world target record c)
        end
  end.

(** The loop of [load_madness_function_vector]: [n] loads of a [Function],
    in index order. *)
Fixpoint load_functions (n : nat) (world : World) (recordlist : recordlistT) (c : Cloud)
  : result (list Function * recordlistT * Cloud) :=
  match n with
  | O => Ok ([], recordlist, c)
  | S n' =>
      '(o, rl1, c1) ← load_other FunctionT world recordlist c;
      match o with
      | O_Function f =>
          '(fs, rl2, c2) ← load_functions n' world rl1 c1;
          mret (f :: fs, rl2, c2)
      | _ => Err TypeMismatch
      end
  end.

Definition load_madness_function_vector (world : World) (recordlist : recordlistT) (c : Cloud)
  : result (cached_objT * recordlistT * Cloud) :=
  '(o, rl1, c1) ← load_other size_tT world recordlist c;
  match o with
  | O_size_t sz =>
      '(target, rl2, c2) ← load_functions (Z.to_nat sz) world rl1 c1;
      mret (O_vector_Function target, rl2, c2)
  | _ => Err TypeMismatch
  end.

Definition load_internal (T : leafT) (world : World) (recordlist : recordlistT) (c : Cloud)
  : result (cached_objT * recordlistT * Cloud) :=
  match T with
  | vector_FunctionT => load_madness_function_vector world recordlist c
  | _ => load_other T world recordlist c
  end.

(** [load_tuple]: the fold expression assigns the members left to right. *)
Fixpoint load_tuple (Ts : list leafT) (world : World) (recordlist : recordlistT) (c : Cloud)
  : result (list cached_objT * recordlistT * Cloud) :=
  match Ts with
  | [] => Ok ([], recordlist, c)
  | T :: Ts' =>
      '(o, rl1, c1) ← load_internal T world recordlist c;
      '(os, rl2, c2) ← load_tuple Ts' world rl1 c1;
      mret (o :: os, rl2, c2)
  end.

(** [load]: the record list is a by-value parameter; [rlist] is the local
    copy that the helpers consume, and it is dropped on return. *)
Definition load (T : ty) (world : World) (recordlist : recordlistT) (c : Cloud)
  : result (value * Cloud) :=
  let rlist := recordlist in
  match T with
  | TTuple Ts =>
      '(os, _, c') ← load_tuple Ts world rlist c;
      mret (VTuple (map VLeaf os), loadtimer world c')
  | TLeaf T =>
      '(o, _, c') ← load_internal T world rlist c;
      mret (VLeaf o, loadtimer world c')
  end.

End Cloud.

End CloudStore.

(** ** A substrate to run the Cloud on *)

Module Reference.
Import CloudStore.

(** An injective image of a double in [Z], from its sign, mantissa and
    exponent. *)
Definition float_code (d : float) : Z :=
  match Prim2SF d with
  | S754_zero s => if s then 1 else 0
  | S754_infinity s => if s then 3 else 2
  | S754_nan => 4
  | S754_finite s m e =>
      5 + 2 * (Z.pos m * 4096 + (e + 2048)) + (if s then 1 else 0)
  end%Z.

Definition ref_hash_value (a : hash_arg) : Z :=
  match a with
  | H_size_t n => (5 * n) mod 2 ^ 64
  | H_int i => (5 * i + 1) mod 2 ^ 64
  | H_long l => (5 * l + 2) mod 2 ^ 64
  | H_double d => (5 * float_code d + 3) mod 2 ^ 64
  | H_uniqueid u => (5 * (worldid u * 2 ^ 32 + objid u) + 4) mod 2 ^ 64
  end%Z.

Definition ref_hash_range (l : list hash_arg) : Z :=
  fold_left (fun seed x => (seed * 1000003 + ref_hash_value x + 1) mod 2 ^ 64)%Z l 0%Z.

(** The Frobenius norm, in binary64 arithmetic. *)
Definition frobenius (t : Tensor) : float :=
  PrimFloat.sqrt
    (fold_left (fun r x => PrimFloat.add r (PrimFloat.mul x x)) (elements t) 0%float).

(** The byte vector of an object is taken to be the object with its type
    tag; reading it back as another type fails. *)
Definition ref_deserialize (w : World) (T : leafT) (b : cached_objT) : option cached_objT :=
  if decide (type_of b = T) then Some b else None.

Lemma ref_deserialize_type w T b o :
  ref_deserialize w T b = Some o -> type_of o = T.
Proof.
  unfold ref_deserialize. destruct (decide (type_of b = T)); congruence.
Qed.

Definition substrate : Substrate :=
  {| blob := cached_objT;
     hash_value := ref_hash_value;
     hash_range := ref_hash_range;
     normf := frobenius;
     serialize := fun o => o;
     deserialize := ref_deserialize;
     deserialize_type := ref_deserialize_type;
     elapsed_ms := fun n => Z.of_nat (S n);
     indeterminate_cache_reads := Int64.max_signed;
     indeterminate_cache_stores := Int64.max_signed - 1 |}.

Definition universe : World := {| rank := 0; world_id := 0 |}.
Definition subworld : World := {| rank := 0; world_id := 1 |}.

(** The value of a load, when it returns one. *)
Definition loaded_value (r : result (value * @Cloud substrate)) : option value :=
  match r with
  | Ok (v, _) => Some v
  | Err _ => None
  end.

End Reference.

(** ** Archives ([archive.h]): cookies, wrappers and the standard containers *)

Module ArchiveIO.
Import Archive.
Local Open Scope Z_scope.

(** The fundamental types, in the order of their registration. *)
Inductive fund : Set :=
| F_uchar | F_ushort | F_uint | F_ulong | F_ulonglong
| F_schar | F_char | F_short | F_int | F_long | F_longlong
| F_bool | F_float | F_double | F_longdouble.

(** The types whose serialization [archive.h] defines, but for pointers,
    which come further down; a template is a function of the type.
    [std::vector<bool>] is [AVectorBool], and no [AVector] of [bool].  A
    [std::map] is taken with a key of a fundamental integer type and
    [std::less].  The tensors, and the classes with a [serialize] member of
    their own, are outside the header. *)
#[local] Unset Elimination Schemes.
Inductive sty : Set :=
| AFund (k : fund)
| AComplex (k : fund)
| AVector (T : sty)
| AVectorBool
| AArray (T : sty) (N : nat)
| ACArray (T : sty) (n : nat)
| AString
| APair (T Q : sty)
| ATuple (Types : list sty)
| AMap (k : fund) (Q : sty).

(** Their values.  A fundamental value is the integer it denotes (for a
    floating point type, its bit pattern: an archive only copies it); a
    vector, a [std::array], a [T[n]] and a string are sequences; a map is
    the sequence of its pairs in the order of iteration. *)
Inductive aval : Set :=
| Scalar (d : Z)
| Complex (re im : Z)
| Seq (l : list aval)
| Pair (a b : aval)
| Tuple (l : list aval)
| MapOf (l : list (Z * aval)).
#[local] Set Elimination Schemes.

(** *** Cookies *)

Definition fund_cookie (k : fund) : Z :=
  match k with
  | F_uchar => 0 | F_ushort => 1 | F_uint => 2 | F_ulong => 3 | F_ulonglong => 4
  | F_schar => 5 | F_char => 5 | F_short => 6 | F_int => 7 | F_long => 8
  | F_longlong => 9 | F_bool => 10 | F_float => 11 | F_double => 12
  | F_longdouble => 13
  end.

(** [archive_typeinfo<T>::cookie]: the registrations of the header, and 255
    for every other type. *)
Definition cookie (T : sty) : Z :=
  match T with
  | AFund k => fund_cookie k
  | AComplex F_float => 14
  | AComplex F_double => 15
  | AVector (AFund F_char) => 20
  | AVector (AFund F_uchar) => 21
  | AVector (AFund F_short) => 22
  | AVector (AFund F_ushort) => 23
  | AVector (AFund F_int) => 24
  | AVector (AFund F_uint) => 25
  | AVector (AFund F_long) => 26
  | AVector (AFund F_ulong) => 27
  | AVectorBool => 28
  | AVector (AFund F_float) => 29
  | AVector (AFund F_double) => 30
  | AString => 31
  | _ => 255
  end.

(** [archive_typeinfo<T*>::cookie]: [ARCHIVE_REGISTER_TYPE_AND_PTR] gives
    the pointer to a registered type the cookie of the type plus 64. *)
Definition ptr_cookie (T : sty) : Z :=
  if cookie T =? 255 then 255 else cookie T + 64.

(** *** Outcomes *)

(** What ends a store or a load early: the exception of [preamble_load];
    the [MADNESS_ASSERT] of the load of a [std::array]; the two failures of
    the archive; an array shorter than the count, and the read of a [bool]
    that was never written, neither of which C++ defines; an object that is
    no value of its type, which C++ does not compile. *)
Inductive failure : Set :=
| CookieMismatch (expected got : Z)
| AssertionFailure
| EndOfArchive
| NotAnItem
| OutOfBounds
| Indeterminate
| IllTyped.

Inductive outcome (A : Type) : Type :=
| Done (a : A)
| Thrown (e : failure).
Arguments Done {A} a.
Arguments Thrown {A} e.

#[global] Instance outcome_ret : MRet outcome := fun A a => Done a.
#[global] Instance outcome_bind : MBind outcome := fun A B f m =>
  match m with
  | Done a => f a
  | Thrown e => Thrown e
  end.

(** *** The archive *)

(** The archive classes are not in [archive.h], which asks of them
    [store(const T*, n)] and [load(T*, n)] only.  An archive is taken as the
    sequence of the items stored into it, read from the front; a load past
    the end, or of an item that is no value of the type asked for, is the
    archive's failure. *)
Definition archive : Set := list aval.

Definition ar_store (items : list aval) (ar : archive) : archive := ar ++ items.

Fixpoint ar_load (is_T : aval -> bool) (n : nat) (ar : archive)
  : outcome (list aval * archive) :=
  match n with
  | O => Done ([], ar)
  | S n' =>
      match ar with
      | [] => Thrown EndOfArchive
      | x :: ar' =>
          if is_T x then
            '(l, ar'') ← ar_load is_T n' ar';
            Done (x :: l, ar'')
          else Thrown NotAnItem
      end
  end.

Definition is_scalar (x : aval) : bool :=
  match x with Scalar _ => true | _ => false end.

(** [wrap(ptr, n)] takes the count as an [unsigned int]. *)
Definition to_uint (n : nat) : nat := Z.to_nat (Z.of_nat n mod 2 ^ 32).

(** [t[key] = value] on a [std::map] with integer keys. *)
Fixpoint map_assign (key : Z) (value : aval) (t : list (Z * aval)) : list (Z * aval) :=
  match t with
  | [] => [(key, value)]
  | (k, v) :: t' =>
      if key <? k then (key, value) :: t
      else if key =? k then (key, value) :: t'
      else (k, v) :: map_assign key value t'
  end.

Fixpoint strictly_sorted (keys : list Z) : bool :=
  match keys with
  | [] => true
  | k :: keys' =>
      match keys' with
      | [] => true
      | k' :: _ => (k <? k') && strictly_sorted keys'
      end
  end.

Definition is_integer (k : fund) : bool :=
  match k with
  | F_float | F_double | F_longdouble => false
  | _ => true
  end.

(** The values of a type. *)
Fixpoint wt (T : sty) (t : aval) {struct T} : bool :=
  match T with
  | AFund _ => is_scalar t
  | AComplex _ => match t with Complex _ _ => true | _ => false end
  | AVector T' =>
      match T' with AFund F_bool => false | _ =>
        match t with Seq l => forallb (wt T') l | _ => false end
      end
  | AVectorBool => match t with Seq l => forallb is_scalar l | _ => false end
  | AArray T' N =>
      match t with Seq l => (length l =? N)%nat && forallb (wt T') l | _ => false end
  | ACArray T' n =>
      match t with Seq l => (length l =? n)%nat && forallb (wt T') l | _ => false end
  | AString => match t with Seq l => forallb is_scalar l | _ => false end
  | APair T' Q => match t with Pair a b => wt T' a && wt Q b | _ => false end
  | ATuple Types =>
      match t with
      | Tuple l =>
          negb (Nat.eqb (length Types) 0) &&
          (fix members (Ts : list sty) (l : list aval) {struct Ts} : bool :=
             match Ts, l with
             | [], [] => true
             | T0 :: Ts', x :: l' => wt T0 x && members Ts' l'
             | _, _ => false
             end) Types l
      | _ => false
      end
  | AMap k Q =>
      match t with
      | MapOf m =>
          is_integer k && strictly_sorted (map fst m) &&
          forallb (fun p => wt Q (snd p)) m
      | _ => false
      end
  end.

(** A value-initialised object. *)
Fixpoint default (T : sty) : aval :=
  match T with
  | AFund _ => Scalar 0
  | AComplex _ => Complex 0 0
  | AVector _ | AVectorBool | AString => Seq []
  | AArray T' N => Seq (replicate N (default T'))
  | ACArray T' n => Seq (replicate n (default T'))
  | APair T' Q => Pair (default T') (default Q)
  | ATuple Types => Tuple (map default Types)
  | AMap _ _ => MapOf []
  end.

Section Serialization.

(** [is_default_serializable<Archive,T>], from [type_traits.h]: whether the
    archive stores an array of [T] as it is. *)
Variable plain : sty -> bool.

(** **** Storing *)

(** [ArchivePrePostImpl::preamble_store] *)
Definition preamble_store (ck : Z) (ar : archive) : archive :=
  ar_store [Scalar ck] ar.

(** [ar & t] for a fundamental [t]: the preamble, then [serialize(ar,&t,1)]. *)
Definition store_fund (k : fund) (d : Z) (ar : archive) : archive :=
  ar_store [Scalar d] (preamble_store (fund_cookie k) ar).

Definition amp_store_fund (k : fund) (t : aval) (ar : archive) : outcome archive :=
  match t with
  | Scalar d => Done (store_fund k d ar)
  | _ => Thrown IllTyped
  end.

(** [ar & v.size()]; [std::size_t] is [unsigned long]. *)
Definition store_size (n : nat) (ar : archive) : archive :=
  store_fund F_ulong (Z.of_nat n) ar.

(** [for (...) ar & elem] *)
Fixpoint store_each (amp : aval -> archive -> outcome archive) (l : list aval)
    (ar : archive) : outcome archive :=
  match l with
  | [] => Done ar
  | x :: l' => ar' ← amp x ar; store_each amp l' ar'
  end.

(** [serialize(ar, const T* t, n)] on an output archive: the array as it
    is when [T] is plain, else element by element. *)
Definition serialize_out (plainT : bool) (amp : aval -> archive -> outcome archive)
    (t : list aval) (n : nat) (ar : archive) : outcome archive :=
  if (length t <? n)%nat then Thrown OutOfBounds
  else if plainT then Done (ar_store (firstn n t) ar)
  else store_each amp (firstn n t) ar.

(** [ArchiveImpl<Archive, archive_array<T>>::wrap_store]: the preamble of
    [T*], then the array. *)
Definition wrap_store_array (plainT : bool) (ptr_ck : Z)
    (amp : aval -> archive -> outcome archive)
    (ptr : list aval) (n : nat) (ar : archive) : outcome archive :=
  serialize_out plainT amp ptr n (preamble_store ptr_ck ar).

(** [ArchiveImpl::wrap_store], with the [store] of each type in its place:
    [operator<<] and [operator&] on an output archive.  A fundamental object
    goes to [serialize(ar,&t,1)] and is stored as it is; [std::array]
    chooses by [is_serializable], which holds of every type here, and so
    always wraps its data. *)
Fixpoint wrap_store (T : sty) (t : aval) (ar : archive) {struct T} : outcome archive :=
  match T with
  | ACArray T' n =>
      (* ar << wrap(&t[0],n) *)
      match t with
      | Seq l =>
          wrap_store_array (plain T') (ptr_cookie T') (wrap_store T') l (to_uint n) ar
      | _ => Thrown IllTyped
      end
  | _ =>
      let ar0 := preamble_store (cookie T) ar in
      match T with
      | AFund k =>
          match t with
          | Scalar d => Done (ar_store [Scalar d] ar0)
          | _ => Thrown IllTyped
          end
      | AComplex k =>
          (* ar & c.real() & c.imag() *)
          match t with
          | Complex re im => Done (store_fund k im (store_fund k re ar0))
          | _ => Thrown IllTyped
          end
      | AVector T' =>
          match t with
          | Seq v =>
              let ar1 := store_size (length v) ar0 in
              if plain T' then
                wrap_store_array true (ptr_cookie T') (wrap_store T') v
                  (to_uint (length v)) ar1
              else store_each (wrap_store T') v ar1
          | _ => Thrown IllTyped
          end
      | AVectorBool =>
          (* ar & n & wrap(b,v.size()) *)
          match t with
          | Seq v =>
              wrap_store_array (plain (AFund F_bool)) (ptr_cookie (AFund F_bool))
                (amp_store_fund F_bool) v (to_uint (length v))
                (store_size (length v) ar0)
          | _ => Thrown IllTyped
          end
      | AArray T' N =>
          match t with
          | Seq v =>
              wrap_store_array (plain T') (ptr_cookie T') (wrap_store T') v
                (to_uint (length v)) (store_size (length v) ar0)
          | _ => Thrown IllTyped
          end
      | AString =>
          match t with
          | Seq v =>
              wrap_store_array (plain (AFund F_char)) (ptr_cookie (AFund F_char))
                (amp_store_fund F_char) v (to_uint (length v))
                (store_size (length v) ar0)
          | _ => Thrown IllTyped
          end
      | APair T' Q =>
          (* ar & t.first & t.second *)
          match t with
          | Pair a b => ar1 ← wrap_store T' a ar0; wrap_store Q b ar1
          | _ => Thrown IllTyped
          end
      | ATuple Types =>
          (* tuple_serialize_helper<size-1>::exec: get<idx>, then idx-1 *)
          match t with
          | Tuple l =>
              (fix exec (Ts : list sty) (l : list aval) (ar : archive) {struct Ts}
                 : outcome archive :=
                 match Ts, l with
                 | [], [] => Done ar
                 | T0 :: Ts', x :: l' => ar' ← exec Ts' l' ar; wrap_store T0 x ar'
                 | _, _ => Thrown IllTyped
                 end) Types l ar0
          | _ => Thrown IllTyped
          end
      | AMap k Q =>
          (* ar << t.size(); for (p ...) { std::pair<T,Q> pp = *p; ar & pp; } *)
          match t with
          | MapOf m =>
              (fix entries (m : list (Z * aval)) (ar : archive) {struct m}
                 : outcome archive :=
                 match m with
                 | [] => Done ar
                 | (key, value) :: m' =>
                     ar' ← wrap_store Q value
                             (store_fund k key (preamble_store 255 ar));
                     entries m' ar'
                 end) m (store_size (length m) ar0)
          | _ => Thrown IllTyped
          end
      | ACArray _ _ => Thrown IllTyped
      end
  end.

(** **** Loading *)

(** [ArchivePrePostImpl::preamble_load] *)
Definition preamble_load (ck : Z) (ar : archive) : outcome archive :=
  '(l, ar') ← ar_load is_scalar 1 ar;
  match l with
  | [Scalar cookie] =>
      if cookie =? ck then Done ar' else Thrown (CookieMismatch ck cookie)
  | _ => Thrown NotAnItem
  end.

(** [ar & t] for a fundamental [t]. *)
Definition load_fund (k : fund) (ar : archive) : outcome (Z * archive) :=
  ar1 ← preamble_load (fund_cookie k) ar;
  '(l, ar2) ← ar_load is_scalar 1 ar1;
  match l with
  | [Scalar d] => Done (d, ar2)
  | _ => Thrown NotAnItem
  end.

Definition amp_load_fund (k : fund) (t : aval) (ar : archive) : outcome (aval * archive) :=
  '(d, ar') ← load_fund k ar; Done (Scalar d, ar').

(** [std::size_t n = 0ul; ar & n] *)
Definition load_size (ar : archive) : outcome (nat * archive) :=
  '(d, ar') ← load_fund F_ulong ar; Done (Z.to_nat d, ar').

(** [for (auto& elem : v) ar & elem] *)
Fixpoint load_each (amp : aval -> archive -> outcome (aval * archive))
    (l : list aval) (ar : archive) : outcome (list aval * archive) :=
  match l with
  | [] => Done ([], ar)
  | x :: l' =>
      '(x', ar1) ← amp x ar;
      '(l'', ar2) ← load_each amp l' ar1;
      Done (x' :: l'', ar2)
  end.

(** [serialize(ar, const T* t, n)] on an input archive: the first [n]
    objects at [t] are loaded, the others stay. *)
Definition serialize_in (plainT : bool) (is_T : aval -> bool)
    (amp : aval -> archive -> outcome (aval * archive))
    (t : list aval) (n : nat) (ar : archive) : outcome (list aval * archive) :=
  if (length t <? n)%nat then Thrown OutOfBounds
  else if plainT then
    '(l, ar') ← ar_load is_T n ar; Done (l ++ skipn n t, ar')
  else
    '(l, ar') ← load_each amp (firstn n t) ar; Done (l ++ skipn n t, ar').

(** [ArchiveImpl<Archive, archive_array<T>>::wrap_load] *)
Definition wrap_load_array (plainT : bool) (ptr_ck : Z) (is_T : aval -> bool)
    (amp : aval -> archive -> outcome (aval * archive))
    (ptr : list aval) (n : nat) (ar : archive) : outcome (list aval * archive) :=
  ar' ← preamble_load ptr_ck ar;
  serialize_in plainT is_T amp ptr n ar'.

(** [if (n != v.size()) { v.clear(); v.resize(n); }] *)
Definition resize (T : sty) (n : nat) (v : list aval) : list aval :=
  if (n =? length v)%nat then v else replicate n (default T).

(** [ArchiveImpl::wrap_load], with the [load] of each type in its place:
    [operator>>] and [operator&] on an input archive.  [t] is the object
    that is loaded into. *)
Fixpoint wrap_load (T : sty) (t : aval) (ar : archive) {struct T}
  : outcome (aval * archive) :=
  match T with
  | ACArray T' n =>
      (* ar >> wrap(&t[0],n) *)
      match t with
      | Seq l =>
          '(l', ar') ← wrap_load_array (plain T') (ptr_cookie T') (wt T')
                         (wrap_load T') l (to_uint n) ar;
          Done (Seq l', ar')
      | _ => Thrown IllTyped
      end
  | _ =>
      ar0 ← preamble_load (cookie T) ar;
      match T with
      | AFund k =>
          '(l, ar1) ← ar_load is_scalar 1 ar0;
          match l with
          | [x] => Done (x, ar1)
          | _ => Thrown NotAnItem
          end
      | AComplex k =>
          (* T r = 0, i = 0; ar & r & i; c = std::complex<T>(r,i) *)
          '(r, ar1) ← load_fund k ar0;
          '(i, ar2) ← load_fund k ar1;
          Done (Complex r i, ar2)
      | AVector T' =>
          match t with
          | Seq v =>
              '(n, ar1) ← load_size ar0;
              let v1 := resize T' n v in
              if plain T' then
                '(v2, ar2) ← wrap_load_array true (ptr_cookie T') (wt T')
                               (wrap_load T') v1 (to_uint n) ar1;
                Done (Seq v2, ar2)
              else
                '(v2, ar2) ← load_each (wrap_load T') v1 ar1;
                Done (Seq v2, ar2)
          | _ => Thrown IllTyped
          end
      | AVectorBool =>
          (* bool* b = new bool[n]; ar & wrap(b,v.size()); v[i] = b[i] *)
          match t with
          | Seq v =>
              '(n, ar1) ← load_size ar0;
              if (to_uint n =? n)%nat then
                '(b, ar2) ← wrap_load_array (plain (AFund F_bool))
                              (ptr_cookie (AFund F_bool)) is_scalar
                              (amp_load_fund F_bool)
                              (replicate n (Scalar 0)) (to_uint n) ar1;
                Done (Seq b, ar2)
              else Thrown Indeterminate
          | _ => Thrown IllTyped
          end
      | AArray T' N =>
          match t with
          | Seq v =>
              '(n, ar1) ← load_size ar0;
              if (n =? length v)%nat then
                '(v2, ar2) ← wrap_load_array (plain T') (ptr_cookie T') (wt T')
                               (wrap_load T') v (to_uint n) ar1;
                Done (Seq v2, ar2)
              else Thrown AssertionFailure
          | _ => Thrown IllTyped
          end
      | AString =>
          match t with
          | Seq v =>
              '(n, ar1) ← load_size ar0;
              '(v2, ar2) ← wrap_load_array (plain (AFund F_char))
                             (ptr_cookie (AFund F_char)) is_scalar
                             (amp_load_fund F_char)
                             (resize (AFund F_char) n v) (to_uint n) ar1;
              Done (Seq v2, ar2)
          | _ => Thrown IllTyped
          end
      | APair T' Q =>
          match t with
          | Pair a b =>
              '(a', ar1) ← wrap_load T' a ar0;
              '(b', ar2) ← wrap_load Q b ar1;
              Done (Pair a' b', ar2)
          | _ => Thrown IllTyped
          end
      | ATuple Types =>
          match t with
          | Tuple l =>
              '(l', ar1) ←
                (fix exec (Ts : list sty) (l : list aval) (ar : archive) {struct Ts}
                   : outcome (list aval * archive) :=
                   match Ts, l with
                   | [], [] => Done ([], ar)
                   | T0 :: Ts', x :: l' =>
                       '(l'', ar1) ← exec Ts' l' ar;
                       '(x', ar2) ← wrap_load T0 x ar1;
                       Done (x' :: l'', ar2)
                   | _, _ => Thrown IllTyped
                   end) Types l ar0;
              Done (Tuple l', ar1)
          | _ => Thrown IllTyped
          end
      | AMap k Q =>
          (* while (n--) { std::pair<T,Q> p; ar & p; t[p.first] = p.second; } *)
          match t with
          | MapOf m =>
              '(n, ar1) ← load_size ar0;
              '(m', ar2) ←
                (fix entries (n : nat) (m : list (Z * aval)) (ar : archive) {struct n}
                   : outcome (list (Z * aval) * archive) :=
                   match n with
                   | O => Done (m, ar)
                   | S n' =>
                       ar1 ← preamble_load 255 ar;
                       '(key, ar2) ← load_fund k ar1;
                       '(value, ar3) ← wrap_load Q (default Q) ar2;
                       entries n' (map_assign key value m) ar3
                   end) n m ar1;
              Done (MapOf m', ar2)
          | _ => Thrown IllTyped
          end
      | ACArray _ _ => Thrown IllTyped
      end
  end.

(** **** Arrays of function pointers *)

(** [serialize(ar, const T* t, n)] for function pointers: the pointers are
    stored relative to the reference function of the storing process, and
    made absolute with that of the loading one.  [std::ptrdiff_t] is
    [long]. *)
Variable fn_ptr_origin : Z.

Definition serialize_fn_ptrs_out (t : list Z) (n : nat) (ar : archive) : outcome archive :=
  if (length t <? n)%nat then Thrown OutOfBounds
  else
    let t_rel := map (to_rel_fn_ptr fn_ptr_origin) (firstn n t) in
    Done (ar_store (map Scalar t_rel) ar).

Definition scalar_value (x : aval) : Z :=
  match x with Scalar d => d | _ => 0 end.

Definition serialize_fn_ptrs_in (t : list Z) (n : nat) (ar : archive)
  : outcome (list Z * archive) :=
  if (length t <? n)%nat then Thrown OutOfBounds
  else
    '(t_rel, ar') ← ar_load is_scalar n ar;
    Done (map (to_abs_fn_ptr fn_ptr_origin) (map scalar_value t_rel) ++ skipn n t, ar').

(** The same for member function pointers of [memfn_ptr_width] slots
    each. *)
Variable abi : cxx_abi.
Variable memfn_ptr_width : nat.

Definition serialize_memfn_ptrs_out (t : list memfn_ptr) (n : nat) (ar : archive)
  : outcome archive :=
  if (length t <? n)%nat then Thrown OutOfBounds
  else
    let t_rel := map (to_rel_memfn_ptr fn_ptr_origin abi) (firstn n t) in
    Done (ar_store (map Scalar (concat t_rel)) ar).

(** The [n * memfn_ptr_width] slots read, by pointer. *)
Fixpoint slots_by_pointer (n : nat) (slots : list Z) : list memfn_ptr :=
  match n with
  | O => []
  | S n' => firstn memfn_ptr_width slots :: slots_by_pointer n' (skipn memfn_ptr_width slots)
  end.

Definition serialize_memfn_ptrs_in (t : list memfn_ptr) (n : nat) (ar : archive)
  : outcome (list memfn_ptr * archive) :=
  if (length t <? n)%nat then Thrown OutOfBounds
  else
    '(slots, ar') ← ar_load is_scalar (n * memfn_ptr_width) ar;
    let t_rel := slots_by_pointer n (map scalar_value slots) in
    Done (map (to_abs_memfn_ptr fn_ptr_origin abi) t_rel ++ skipn n t, ar').

(** **** Opaque objects *)

(** [wrap_opaque(t)]: the object as an array of [sizeof(t)] unsigned
    characters.  A [std::ptrdiff_t], and so each slot of a pointer, is eight
    bytes, taken here with the least significant first. *)
Definition bytes_of_word (z : Z) : list Z :=
  map (fun i => (z / 2 ^ (8 * Z.of_nat i)) mod 256) (seq 0 8).

Fixpoint unsigned_of_bytes (bytes : list Z) : Z :=
  match bytes with
  | [] => 0
  | b :: bytes' => b + 256 * unsigned_of_bytes bytes'
  end.

Definition word_of_bytes (bytes : list Z) : Z := Int64.wrap (unsigned_of_bytes bytes).

Definition bytes_of_words (words : list Z) : list Z := concat (map bytes_of_word words).

Fixpoint words_of_bytes (n : nat) (bytes : list Z) : list Z :=
  match n with
  | O => []
  | S n' => word_of_bytes (firstn 8 bytes) :: words_of_bytes n' (skipn 8 bytes)
  end.

(** [ar & wrap_opaque(t)] on an output archive, for a [t] of the given
    words. *)
Definition store_opaque (words : list Z) (ar : archive) : outcome archive :=
  let bytes := map Scalar (bytes_of_words words) in
  wrap_store_array (plain (AFund F_uchar)) (ptr_cookie (AFund F_uchar))
    (amp_store_fund F_uchar) bytes (to_uint (length bytes)) ar.

(** [ar & wrap_opaque(t)] on an input archive, for a [t] of [n] words: the
    words that [t] holds afterwards. *)
Definition load_opaque (n : nat) (ar : archive) : outcome (list Z * archive) :=
  '(bytes, ar') ← wrap_load_array (plain (AFund F_uchar)) (ptr_cookie (AFund F_uchar))
                    is_scalar (amp_load_fund F_uchar)
                    (replicate (8 * n) (Scalar 0)) (to_uint (8 * n)) ar;
  Done (words_of_bytes n (map scalar_value bytes), ar').

(** **** One function pointer *)

(** [is_default_serializable] of the archive for function pointers and for
    member function pointers. *)
Variable plain_fn_ptr : bool.
Variable plain_memfn_ptr : bool.

(** [ar & fn] for a function pointer: the cookie of an unregistered type,
    then [serialize(ar,&fn,1)] where the archive takes function pointers as
    they are, and [ArchiveSerializeImpl] otherwise, which stores the
    relative pointer as an opaque object. *)
Definition store_fn_ptr (fn : Z) (ar : archive) : outcome archive :=
  let ar0 := preamble_store 255 ar in
  if plain_fn_ptr then serialize_fn_ptrs_out [fn] 1 ar0
  else store_opaque [to_rel_fn_ptr fn_ptr_origin fn] ar0.

Definition load_fn_ptr (fn : Z) (ar : archive) : outcome (Z * archive) :=
  ar0 ← preamble_load 255 ar;
  if plain_fn_ptr then
    '(l, ar1) ← serialize_fn_ptrs_in [fn] 1 ar0;
    match l with
    | [fn'] => Done (fn', ar1)
    | _ => Thrown NotAnItem
    end
  else
    (* std::ptrdiff_t rel_fn_ptr{}; ar & wrap_opaque(rel_fn_ptr); *)
    '(words, ar1) ← load_opaque 1 ar0;
    match words with
    | [rel_fn_ptr] => Done (to_abs_fn_ptr fn_ptr_origin rel_fn_ptr, ar1)
    | _ => Thrown NotAnItem
    end.

(** [ar & memfn] for a member function pointer.  The [ArchiveSerializeImpl]
    of a pointer to a const member function takes the pointer by value and
    stores and loads it as an opaque object: nothing is made relative, and
    what is loaded goes to the copy. *)
Definition store_memfn_ptr (is_const : bool) (memfn : memfn_ptr) (ar : archive)
  : outcome archive :=
  let ar0 := preamble_store 255 ar in
  if plain_memfn_ptr then serialize_memfn_ptrs_out [memfn] 1 ar0
  else if is_const then store_opaque memfn ar0
  else store_opaque (to_rel_memfn_ptr fn_ptr_origin abi memfn) ar0.

Definition load_memfn_ptr (is_const : bool) (memfn : memfn_ptr) (ar : archive)
  : outcome (memfn_ptr * archive) :=
  ar0 ← preamble_load 255 ar;
  if plain_memfn_ptr then
    '(l, ar1) ← serialize_memfn_ptrs_in [memfn] 1 ar0;
    match l with
    | [memfn'] => Done (memfn', ar1)
    | _ => Thrown NotAnItem
    end
  else if is_const then
    '(_, ar1) ← load_opaque memfn_ptr_width ar0;
    Done (memfn, ar1)
  else
    (* rel_memfn_ptr_t rel_fn_ptr{}; ar & wrap_opaque(rel_fn_ptr); *)
    '(rel_fn_ptr, ar1) ← load_opaque memfn_ptr_width ar0;
    Done (to_abs_memfn_ptr fn_ptr_origin abi rel_fn_ptr, ar1).

(** [archive_ptr<T>::serialize]: [ar & wrap_opaque(&ptr, 1)], a bitwise
    copy of the pointer. *)
Definition store_archive_ptr (ptr : Z) (ar : archive) : outcome archive :=
  store_opaque [ptr] (preamble_store 255 ar).

Definition load_archive_ptr (ar : archive) : outcome (Z * archive) :=
  ar0 ← preamble_load 255 ar;
  '(words, ar1) ← load_opaque 1 ar0;
  match words with
  | [ptr] => Done (ptr, ar1)
  | _ => Thrown NotAnItem
  end.

End Serialization.

End ArchiveIO.

(** ** Properties of the relative pointers *)

Module ArchiveProofs.
Import Archive.
Local Open Scope Z_scope.

Lemma even_bit_zero : Int64.even_bit 0 = true.
Proof. reflexivity. Qed.

Lemma even_bit_sub_origin r0 origin :
  Z.even origin = true ->
  Int64.even_bit (Int64.sub r0 origin) = Int64.even_bit r0.
Proof.
  intros Ho. rewrite !Int64.even_bit_spec. now apply Int64.even_sub_even.
Qed.

(** Free functions and static member functions: the decoder undoes the
    encoder at every pointer value, the null pointer included. *)
Lemma fn_ptr_roundtrip origin fn :
  Int64.in_range fn -> to_abs_fn_ptr origin (to_rel_fn_ptr origin fn) = fn.
Proof. intros H. unfold to_abs_fn_ptr, to_rel_fn_ptr. now apply Int64.add_sub_cancel. Qed.

Lemma memfn_roundtrip_itanium origin r0 r1 rest :
  Z.even origin = true -> Int64.in_range r0 ->
  let fn := r0 :: r1 :: rest in
  let back := to_abs_memfn_ptr origin GenericItanium (to_rel_memfn_ptr origin GenericItanium fn) in
  (r0 = 0 -> back = 0 :: 0 :: rest) /\
  (r0 <> 0 -> hits_null_sentinel origin GenericItanium fn = false -> back = fn).
Proof.
  intros Ho Hr fn back. subst fn back. cbn [to_rel_memfn_ptr hits_null_sentinel].
  split.
  - intros ->. cbn. reflexivity.
  - intros Hnz Hs. apply Z.eqb_neq in Hnz. rewrite Hnz.
    destruct (Int64.even_bit r0) eqn:He.
    + cbn [to_abs_memfn_ptr]. rewrite Hs, even_bit_sub_origin, He by assumption.
      now rewrite Int64.add_sub_cancel.
    + cbn [to_abs_memfn_ptr]. rewrite Hnz, He. reflexivity.
Qed.

Lemma memfn_roundtrip_arm origin r0 r1 rest :
  Int64.in_range r0 ->
  let fn := r0 :: r1 :: rest in
  let back := to_abs_memfn_ptr origin GenericARM (to_rel_memfn_ptr origin GenericARM fn) in
  is_null GenericARM fn || is_virtual GenericARM fn
    || negb (hits_null_sentinel origin GenericARM fn) = true ->
  back = fn.
Proof.
  intros Hr fn back. subst fn back.
  cbn [to_rel_memfn_ptr is_null is_virtual hits_null_sentinel].
  destruct (Int64.even_bit r1) eqn:He; cbn [negb andb orb].
  - destruct (r0 =? 0) eqn:Hz; cbn [orb].
    + intros _. apply Z.eqb_eq in Hz. subst r0.
      cbn [to_abs_memfn_ptr]. rewrite He. reflexivity.
    + intros Hs. apply negb_true_iff in Hs.
      cbn [to_abs_memfn_ptr]. rewrite He, Hs.
      now rewrite Int64.add_sub_cancel.
  - intros _. cbn [to_abs_memfn_ptr]. rewrite He. reflexivity.
Qed.

Lemma well_formed_misses_sentinel origin abi mfn :
  well_formed origin abi mfn ->
  is_null abi mfn || is_virtual abi mfn
    || negb (hits_null_sentinel origin abi mfn) = true.
Proof.
  intros Hwf. unfold well_formed in Hwf.
  destruct (is_null abi mfn); [reflexivity|].
  destruct (is_virtual abi mfn); [reflexivity|].
  specialize (Hwf eq_refl eq_refl). cbn [orb]. apply negb_true_iff.
  destruct abi, mfn as [| r0 [| r1 rest]]; try reflexivity;
    cbn [hits_null_sentinel].
  - destruct Hwf as [H | H].
    + apply Z.eqb_neq in H. now rewrite H.
    + apply Z.eqb_neq in H. rewrite H. apply andb_false_r.
  - now apply Z.eqb_neq.
Qed.

(** C8.  Decoding the relative form of a pointer gives the pointer back:
    exactly for every free function pointer; for every member function
    pointer that a program can hold (the reference address being even
    under the Itanium ABI, which tells virtual from non-virtual by parity),
    a null pointer comes back null, a virtual one comes back unchanged and
    virtual, and a non-virtual one comes back unchanged. *)
Theorem rel_ptr_roundtrip (origin : Z) (abi : cxx_abi) (fn : Z) (mfn : memfn_ptr) :
  (abi = GenericItanium -> Z.even origin = true) ->
  Int64.in_range fn ->
  Forall Int64.in_range mfn ->
  well_formed origin abi mfn ->
  let back := to_abs_memfn_ptr origin abi (to_rel_memfn_ptr origin abi mfn) in
  to_abs_fn_ptr origin (to_rel_fn_ptr origin fn) = fn /\
  memfn_eq abi back mfn /\
  is_null abi back = is_null abi mfn /\
  is_virtual abi back = is_virtual abi mfn /\
  (is_null abi mfn = false -> back = mfn).
Proof.
  intros Ho Hfn Hm Hwf back. split; [now apply fn_ptr_roundtrip|].
  pose proof (well_formed_misses_sentinel origin abi mfn Hwf) as Hcase.
  assert (Hshape : (exists r0 r1 rest, mfn = r0 :: r1 :: rest /\ abi <> Microsoft)
                   \/ back = mfn).
  { subst back. destruct abi, mfn as [|r0 [|r1 rest]]; eauto 10; left;
      do 3 eexists; (split; [reflexivity | discriminate]). }
  destruct Hshape as [(r0 & r1 & rest & -> & Habi) | Heq].
  2:{ rewrite Heq. repeat split; auto. now right. }
  assert (Hr0 : Int64.in_range r0) by (now inversion Hm).
  destruct abi; [| | congruence].
  - specialize (Ho eq_refl).
    destruct (memfn_roundtrip_itanium origin r0 r1 rest Ho Hr0) as [Hnull Hother].
    fold back in Hnull, Hother.
    destruct (Z.eq_dec r0 0) as [-> | Hnz].
    + rewrite (Hnull eq_refl). cbn. repeat split; try discriminate.
      left. split; reflexivity.
    + assert (Hn : is_null GenericItanium (r0 :: r1 :: rest) = false)
        by (cbn; now apply Z.eqb_neq).
      assert (Hback : back = r0 :: r1 :: rest).
      { destruct (is_virtual GenericItanium (r0 :: r1 :: rest)) eqn:Hv.
        - subst back. cbn in Hv. apply negb_true_iff in Hv.
          cbn [to_rel_memfn_ptr]. apply Z.eqb_neq in Hnz. rewrite Hnz, Hv.
          cbn [to_abs_memfn_ptr]. rewrite Hnz, Hv. reflexivity.
        - apply Hother; [assumption|]. rewrite Hn in Hcase. cbn [orb] in Hcase.
          now apply negb_true_iff in Hcase. }
      rewrite Hback. repeat split; auto. now right.
  - pose proof (memfn_roundtrip_arm origin r0 r1 rest Hr0 Hcase) as Hback.
    fold back in Hback. rewrite Hback. repeat split; auto. now right.
Qed.

Lemma rel_ptr_roundtrip_witness :
  let mfn := [4128; 16] in
  let back := to_abs_memfn_ptr 4096 GenericItanium
                (to_rel_memfn_ptr 4096 GenericItanium mfn) in
  to_abs_fn_ptr 4096 (to_rel_fn_ptr 4096 4112) = 4112 /\
  memfn_eq GenericItanium back mfn /\
  is_null GenericItanium back = is_null GenericItanium mfn /\
  is_virtual GenericItanium back = is_virtual GenericItanium mfn /\
  (is_null GenericItanium mfn = false -> back = mfn).
Proof.
  assert (He : GenericItanium = GenericItanium -> Z.even 4096 = true)
    by reflexivity.
  assert (Hf : Int64.in_range 4112) by (unfold Int64.in_range, Int64.min_signed, Int64.max_signed; lia).
  assert (Hm : Forall Int64.in_range [4128; 16]).
  { repeat constructor; unfold Int64.min_signed, Int64.max_signed; lia. }
  assert (Hw : well_formed 4096 GenericItanium [4128; 16]).
  { intros _ _. left. discriminate. }
  exact (rel_ptr_roundtrip 4096 GenericItanium 4112 [4128; 16] He Hf Hm Hw).
Defined.

(** The pair that the Itanium encoder reserves for null is no such pointer:
    it would be a non-virtual member function at the address of the
    reference function, with adjustment [PTRDIFF_MIN]; a representation
    built that way is decoded to null. *)
Lemma sentinel_is_not_well_formed :
  let origin := 4096 in
  let mfn := [4096; Int64.min_signed] in
  ~ well_formed origin GenericItanium mfn /\
  to_abs_memfn_ptr origin GenericItanium (to_rel_memfn_ptr origin GenericItanium mfn)
    = [0; 0].
Proof.
  cbv zeta. split; [|reflexivity].
  intros H. destruct (H eq_refl eq_refl) as [N | N]; now apply N.
Qed.

End ArchiveProofs.

(** ** Properties of the Cloud *)

Module CloudProofs.
Import CloudStore.

(** Induction over storable values, through the members of tuples. *)
Lemma value_ind (P : value -> Prop) :
  (forall o, P (VLeaf o)) ->
  (forall members, Forall P members -> P (VTuple members)) ->
  forall v, P v.
Proof.
  intros Hleaf Htuple. fix IH 1. intros [o | members].
  - apply Hleaf.
  - apply Htuple. induction members as [| m ms IHms]; constructor.
    + apply IH.
    + apply IHms.
Qed.

(** The objects that reach [store_other_generic] when an object, or a value,
    is stored, in the order in which they reach it. *)
Definition leaves_of_obj (o : cached_objT) : list cached_objT :=
  match o with
  | O_vector_Function v => O_size_t (Z.of_nat (length v)) :: map O_Function v
  | _ => [o]
  end.

Fixpoint leaves (v : value) : list cached_objT :=
  match v with
  | VLeaf o => leaves_of_obj o
  | VTuple members => flat_map leaves members
  end.

Section Proofs.
Context {SUB : Substrate}.

Definition records_of (v : value) : recordlistT := map compute_record (leaves v).

(** The stores of a list of objects, one after the other. *)
Definition store_leaves (world : World) (os : list cached_objT) (c : Cloud) : Cloud :=
  fold_left (fun c o => snd (store_other_generic world o c)) os c.

(** Equality of two Clouds up to the two time counters and the number of
    measurements added to them. *)
Definition untimed (c : Cloud) : Cloud :=
  {| debug := debug c; dofence := dofence c;
     force_load_from_cache := force_load_from_cache c;
     container := container c; container_puts := container_puts c;
     cached_objects := cached_objects c;
     local_list_of_container_keys := local_list_of_container_keys c;
     reading_time := 0; writing_time := 0;
     cache_reads := cache_reads c; cache_stores := cache_stores c;
     measurements := 0 |}.

Definition teq (c1 c2 : Cloud) : Prop := untimed c1 = untimed c2.

Lemma append_list_app (l l2 : recordlistT) : append_list l l2 = l ++ l2.
Proof.
  unfold append_list. revert l. induction l2 as [| x l2 IH]; intros l; simpl.
  - now rewrite app_nil_r.
  - rewrite IH, <- app_assoc. reflexivity.
Qed.

Lemma fence_if_set_id world c : fence_if_set world c = c.
Proof. unfold fence_if_set, fence. now destruct (dofence c). Qed.

Lemma untimed_storetimer world c : untimed (storetimer world c) = untimed c.
Proof. unfold storetimer. now destruct (rank world =? 0)%Z. Qed.

Lemma untimed_loadtimer world c : untimed (loadtimer world c) = untimed c.
Proof. unfold loadtimer. now destruct (rank world =? 0)%Z. Qed.

Lemma teq_refl c : teq c c.
Proof. reflexivity. Qed.

Lemma teq_trans c1 c2 c3 : teq c1 c2 -> teq c2 c3 -> teq c1 c3.
Proof. unfold teq. congruence. Qed.

Lemma teq_fields c1 c2 :
  teq c1 c2 ->
  debug c1 = debug c2 /\ dofence c1 = dofence c2 /\
  force_load_from_cache c1 = force_load_from_cache c2 /\
  container c1 = container c2 /\ container_puts c1 = container_puts c2 /\
  cached_objects c1 = cached_objects c2 /\
  local_list_of_container_keys c1 = local_list_of_container_keys c2 /\
  cache_reads c1 = cache_reads c2 /\ cache_stores c1 = cache_stores c2.
Proof.
  unfold teq, untimed. intros H. injection H. intros. repeat split; assumption.
Qed.

Lemma store_other_generic_fst world o c :
  fst (store_other_generic world o c) = [compute_record o].
Proof. reflexivity. Qed.

Lemma store_other_generic_teq world o c1 c2 :
  teq c1 c2 ->
  teq (snd (store_other_generic world o c1)) (snd (store_other_generic world o c2)).
Proof.
  intros H. pose proof (teq_fields _ _ H) as (?&?&?&?&?&?&Hl&?&?).
  unfold store_other_generic. cbn [snd]. rewrite !fence_if_set_id.
  unfold is_in_container. rewrite Hl.
  destruct (bool_decide _).
  - unfold count_cache_store, teq, untimed.
    destruct (rank world =? 0)%Z; cbn; congruence.
  - unfold write_record, teq, untimed; cbn; congruence.
Qed.

Lemma store_leaves_teq world os c1 c2 :
  teq c1 c2 -> teq (store_leaves world os c1) (store_leaves world os c2).
Proof.
  revert c1 c2. induction os as [| o os IH]; intros c1 c2 H; cbn.
  - assumption.
  - apply IH. now apply store_other_generic_teq.
Qed.

Lemma store_leaves_app world os1 os2 c :
  store_leaves world (os1 ++ os2) c = store_leaves world os2 (store_leaves world os1 c).
Proof. unfold store_leaves. apply fold_left_app. Qed.

Lemma store_functions_fold world v l c1 :
  fold_left
    (fun (acc : recordlistT * Cloud) s =>
       let '(l2, c') := store_other_generic world (O_Function s) (snd acc) in
       (append_list (fst acc) l2, c'))
    v (l, c1)
  = (l ++ map compute_record (map O_Function v),
     store_leaves world (map O_Function v) c1).
Proof.
  revert l c1. induction v as [| f v IH]; intros l c1; cbn [fold_left map].
  - now rewrite app_nil_r.
  - cbn [fst snd].
    change (store_other_generic world (O_Function f) c1)
      with ([compute_record (O_Function f)],
            snd (store_other_generic world (O_Function f) c1)).
    cbn iota beta. rewrite append_list_app, IH, <- app_assoc. reflexivity.
Qed.

(** The vector overload stores the length and then the elements. *)
Lemma store_other_vector_Function_eq world v c :
  store_other_vector_Function world v c =
    (map compute_record (leaves_of_obj (O_vector_Function v)),
     store_leaves world (leaves_of_obj (O_vector_Function v)) c).
Proof.
  unfold store_other_vector_Function. cbn [leaves_of_obj].
  set (n := O_size_t (Z.of_nat (length v))).
  change (store_other_generic world n c)
    with ([compute_record n], snd (store_other_generic world n c)).
  cbn iota beta. rewrite store_functions_fold, fence_if_set_id. reflexivity.
Qed.

Lemma store_other_eq world o c :
  store_other world o c =
    (map compute_record (leaves_of_obj o), store_leaves world (leaves_of_obj o) c).
Proof.
  destruct o; try reflexivity. apply store_other_vector_Function_eq.
Qed.

Lemma records_of_tuple members :
  records_of (VTuple members) = flat_map records_of members.
Proof.
  unfold records_of. cbn [leaves].
  induction members as [| m ms IH]; cbn [flat_map]; [reflexivity|].
  rewrite map_app, IH. reflexivity.
Qed.

Lemma store_tuple_with_eq (st : World -> value -> Cloud -> recordlistT * Cloud)
    world members :
  Forall (fun m => forall c, exists c',
            st world m c = (records_of m, c') /\
            teq c' (store_leaves world (leaves m) c)) members ->
  forall l c0 c, teq c0 (store_leaves world l c) ->
  forall acc, exists c',
    fold_left (fun (a : recordlistT * Cloud) arg =>
                 let '(l, c') := st world arg (snd a) in
                 (append_list (fst a) l, c')) members (acc, c0)
      = (acc ++ flat_map records_of members, c') /\
    teq c' (store_leaves world (l ++ flat_map leaves members) c).
Proof.
  induction 1 as [| m ms Hm _ IH]; intros l c0 c H0 acc; cbn [fold_left flat_map].
  - exists c0. rewrite !app_nil_r. auto.
  - cbn [snd fst]. destruct (Hm c0) as (c1 & -> & H1).
    rewrite append_list_app.
    destruct (IH (l ++ leaves m) c1 c) with (acc := acc ++ records_of m)
      as (c' & -> & H').
    + rewrite store_leaves_app. eapply teq_trans; [exact H1|].
      now apply store_leaves_teq.
    + exists c'. rewrite <- !app_assoc. rewrite <- app_assoc in H'. auto.
Qed.

(** [store] returns the records of the leaves, and leaves the Cloud that
    storing the leaves one by one leaves, up to the time counters. *)
Lemma store_eq world v :
  forall c, exists c',
    store world v c = (records_of v, c') /\
    teq c' (store_leaves world (leaves v) c).
Proof.
  induction v as [o | members IH] using value_ind; intros c.
  - cbn [store]. rewrite store_other_eq, append_list_app, fence_if_set_id.
    eexists. split; [reflexivity|].
    unfold teq. now rewrite untimed_storetimer.
  - cbn [store].
    destruct (store_tuple_with_eq store world members IH [] c c (teq_refl _) [])
      as (c' & Hfold & Hteq).
    unfold store_tuple_with. rewrite Hfold. rewrite append_list_app, fence_if_set_id.
    cbn [app] in *. rewrite <- records_of_tuple.
    eexists. split; [reflexivity|].
    unfold teq. rewrite untimed_storetimer. exact Hteq.
Qed.

Lemma store_fst world v c : fst (store world v c) = records_of v.
Proof. destruct (store_eq world v c) as (c' & -> & _). reflexivity. Qed.

Lemma store_snd world v c : teq (snd (store world v c)) (store_leaves world (leaves v) c).
Proof. destruct (store_eq world v c) as (c' & -> & H). exact H. Qed.


(** The records among [rs] that a run of stores writes when the local list
    of keys is [known]: the first occurrence of each record not yet known. *)
Fixpoint fresh_records (known rs : list Z) : list Z :=
  match rs with
  | [] => []
  | r :: rs' =>
      if bool_decide (r ∈ known) then fresh_records known rs'
      else r :: fresh_records (known ++ [r]) rs'
  end.

Lemma fresh_records_elem known rs r :
  r ∈ fresh_records known rs <-> r ∈ rs /\ r ∉ known.
Proof.
  revert known. induction rs as [| x rs IH]; intros known; cbn.
  - split; [intros H; inversion H | intros [H _]; inversion H].
  - case_bool_decide as Hx.
    + rewrite IH. rewrite elem_of_cons. split; [tauto|].
      intros [[-> | H] Hn]; [contradiction | tauto].
    + rewrite !elem_of_cons, IH, elem_of_app, list_elem_of_singleton.
      destruct (decide (r = x)) as [-> | Hne]; [tauto|]. tauto.
Qed.

Lemma fresh_records_NoDup known rs : NoDup (fresh_records known rs).
Proof.
  revert known. induction rs as [| x rs IH]; intros known; cbn.
  - constructor.
  - case_bool_decide as Hx; [apply IH|]. constructor; [|apply IH].
    rewrite fresh_records_elem, elem_of_app, list_elem_of_singleton. tauto.
Qed.

Lemma fresh_records_known known rs :
  (forall r, r ∈ rs -> r ∈ known) -> fresh_records known rs = [].
Proof.
  induction rs as [| x rs IH]; intros H; cbn; [reflexivity|].
  rewrite bool_decide_eq_true_2 by (apply H; left).
  apply IH. intros r Hr. apply H. now right.
Qed.

Lemma fresh_records_length known rs :
  (length (fresh_records known rs) <= length rs)%nat.
Proof.
  revert known. induction rs as [| x rs IH]; intros known; cbn; [lia|].
  case_bool_decide; cbn; [specialize (IH known) | specialize (IH (known ++ [x]))]; lia.
Qed.

(** What one call of the general [store_other] does to the members. *)
Lemma store_other_generic_snd world o c :
  let r := compute_record o in
  let c' := snd (store_other_generic world o c) in
  debug c' = debug c /\ dofence c' = dofence c /\
  force_load_from_cache c' = force_load_from_cache c /\
  cached_objects c' = cached_objects c /\
  cache_reads c' = cache_reads c /\
  reading_time c' = reading_time c /\ writing_time c' = writing_time c /\
  if is_in_container r c then
    container c' = container c /\ container_puts c' = container_puts c /\
    local_list_of_container_keys c' = local_list_of_container_keys c /\
    cache_stores c' =
      Int64.increments (if (rank world =? 0)%Z then 1 else 0) (cache_stores c)
  else
    container c' = <[r := serialize o]> (container c) /\
    container_puts c' = container_puts c ++ [r] /\
    local_list_of_container_keys c' = local_list_of_container_keys c ++ [r] /\
    cache_stores c' = cache_stores c.
Proof.
  cbv zeta. unfold store_other_generic. cbn [snd]. rewrite fence_if_set_id.
  destruct (is_in_container (compute_record o) c).
  - unfold count_cache_store. destruct (rank world =? 0)%Z; cbn;
      repeat split.
  - cbn. repeat split.
Qed.

(** What a run of general stores does to the members. *)
Lemma store_leaves_snd world os c :
  let rs := map compute_record os in
  let written := fresh_records (local_list_of_container_keys c) rs in
  let c' := store_leaves world os c in
  debug c' = debug c /\ dofence c' = dofence c /\
  force_load_from_cache c' = force_load_from_cache c /\
  cached_objects c' = cached_objects c /\
  cache_reads c' = cache_reads c /\
  container_puts c' = container_puts c ++ written /\
  local_list_of_container_keys c' = local_list_of_container_keys c ++ written /\
  cache_stores c' =
    Int64.increments
      (if (rank world =? 0)%Z then length rs - length written else 0)
      (cache_stores c).
Proof.
  cbv zeta. revert c. induction os as [| o os IH]; intros c; cbn [map fresh_records].
  - cbn. rewrite !app_nil_r. repeat split. destruct (rank world =? 0)%Z; reflexivity.
  - change (store_leaves world (o :: os) c)
      with (store_leaves world os (snd (store_other_generic world o c))).
    pose proof (store_other_generic_snd world o c) as Hstep. cbv zeta in Hstep.
    destruct Hstep as (Hd & Hf & Hfl & Hc & Hr & _ & _ & Hcase).
    specialize (IH (snd (store_other_generic world o c))).
    destruct IH as (Hd' & Hf' & Hfl' & Hc' & Hr' & Hp' & Hl' & Hs').
    unfold is_in_container in Hcase.
    destruct (bool_decide (compute_record o ∈ local_list_of_container_keys c)).
    + destruct Hcase as (_ & Hp & Hl & Hs).
      rewrite Hl in *. rewrite Hp in *.
      repeat split; try congruence.
      rewrite Hs', Hs.
      pose proof (fresh_records_length (local_list_of_container_keys c)
                    (map compute_record os)).
      cbn [length]. destruct (rank world =? 0)%Z; [|reflexivity].
      rewrite <- Int64.increments_add. f_equal. lia.
    + destruct Hcase as (_ & Hp & Hl & Hs).
      rewrite Hl in *. rewrite Hp in *.
      repeat split; try congruence.
      * rewrite Hp'. now rewrite <- app_assoc.
      * rewrite Hl'. now rewrite <- app_assoc.
      * rewrite Hs', Hs. cbn [length]. destruct (rank world =? 0)%Z; reflexivity.
Qed.

(** A run of stores whose records are all in the local list of keys writes
    nothing. *)
Lemma store_leaves_known_container world os c :
  (forall r, r ∈ map compute_record os -> r ∈ local_list_of_container_keys c) ->
  container (store_leaves world os c) = container c.
Proof.
  revert c. induction os as [| o os IH]; intros c H; [reflexivity|].
  change (store_leaves world (o :: os) c)
    with (store_leaves world os (snd (store_other_generic world o c))).
  pose proof (store_other_generic_snd world o c) as Hstep. cbv zeta in Hstep.
  destruct Hstep as (_ & _ & _ & _ & _ & _ & _ & Hcase).
  unfold is_in_container in Hcase.
  rewrite bool_decide_eq_true_2 in Hcase by (apply H; cbn; left).
  destruct Hcase as (Hc & _ & Hl & _).
  rewrite IH; [exact Hc|]. rewrite Hl. intros r Hr. apply H. cbn. now right.
Qed.


(** *** Record lists returned by [store] *)

(** C6 (as amended).  Storing a vector of [N] functions returns [N + 1]
    records, the record of the length first and then one record per
    element, so an empty vector returns the single record of its length;
    storing a vector of pointers to implementations returns one record, as
    storing any other vector does; storing an empty tuple returns no
    record; storing a tuple returns the records of its members,
    concatenated in the order of the members. *)
Theorem store_record_counts (world : World) (c : Cloud)
    (fs : list Function) (ps : list FunctionImpl_ptr) (ds : list float)
    (m : value) (members : list value) :
  fst (store world (VLeaf (O_vector_Function fs)) c)
    = compute_record (O_size_t (Z.of_nat (length fs)))
      :: map (fun f => compute_record (O_Function f)) fs /\
  size (fst (store world (VLeaf (O_vector_Function fs)) c)) = (length fs + 1)%nat /\
  size (fst (store world (VLeaf (O_vector_Function [])) c)) = 1%nat /\
  fst (store world (VLeaf (O_vector_impl_ptr ps)) c)
    = [compute_record (O_vector_impl_ptr ps)] /\
  fst (store world (VLeaf (O_vector_double ds)) c)
    = [compute_record (O_vector_double ds)] /\
  fst (store world (VTuple []) c) = [] /\
  fst (store world (VTuple (m :: members)) c)
    = fst (store world m c)
      ++ fst (store world (VTuple members) (snd (store world m c))) /\
  fst (store world (VTuple members) c)
    = concat (map (fun m => fst (store world m c)) members).
Proof.
  rewrite !store_fst. unfold records_of, size. cbn [leaves leaves_of_obj map flat_map].
  repeat split.
  - now rewrite map_map.
  - cbn [length]. rewrite !length_map. lia.
  - now rewrite map_app.
  - induction members as [| x xs IH]; cbn [flat_map map concat]; [reflexivity|].
    rewrite map_app, IH, store_fst. reflexivity.
Qed.

Lemma store_leaf_record world o c :
  leaves_of_obj o = [o] -> fst (store world (VLeaf o) c) = [compute_record o].
Proof. intros H. rewrite store_fst. unfold records_of. cbn [leaves]. now rewrite H. Qed.

(** C7.  The record of an object, under which [store] files it, is the
    hash, converted to the key type, of: the norm for a tensor; the
    identifier of the implementation for a function and for a pointer to an
    implementation; the sequence of the elements, in order, for a vector;
    the value itself for a scalar. *)
Theorem compute_record_by_category (world : World) (c : Cloud)
    (t : Tensor) (f : Function) (p : FunctionImpl_ptr)
    (vd : list float) (vp : list FunctionImpl_ptr) (n i l : Z) (d : float) :
  let stored_at (o : cached_objT) (h : Z) :=
    compute_record o = to_keyT h /\
    fst (store world (VLeaf o) c) = [to_keyT h] in
  stored_at (O_Tensor t) (hash_value (H_double (normf t))) /\
  stored_at (O_Function f) (hash_value (H_uniqueid (impl_id (get_impl f)))) /\
  stored_at (O_impl_ptr p) (hash_value (H_uniqueid (impl_id p))) /\
  stored_at (O_vector_double vd) (hash_range (map H_double vd)) /\
  stored_at (O_vector_impl_ptr vp)
    (hash_range (map (fun q => H_uniqueid (impl_id q)) vp)) /\
  stored_at (O_size_t n) (hash_value (H_size_t n)) /\
  stored_at (O_int i) (hash_value (H_int i)) /\
  stored_at (O_long l) (hash_value (H_long l)) /\
  stored_at (O_double d) (hash_value (H_double d)).
Proof.
  cbv zeta. repeat split; try (now rewrite store_leaf_record).
Qed.

(** *** Deduplication *)

(** C2.  A general store writes the blob and appends the record to the
    local list of keys exactly when the record is not in that list.  The
    first of two successive stores of a value writes each record that the
    list did not hold once; the second returns the same record list and
    writes nothing. *)
Theorem store_twice (world : World) (v : value) (o : cached_objT) (c : Cloud) :
  let c1 := snd (store world v c) in
  let c2 := snd (store world v c1) in
  let r := compute_record o in
  let co := snd (store_other_generic world o c) in
  (if is_in_container r c then
     container co = container c /\ container_puts co = container_puts c /\
     local_list_of_container_keys co = local_list_of_container_keys c
   else
     container co = <[r := serialize o]> (container c) /\
     container_puts co = container_puts c ++ [r] /\
     local_list_of_container_keys co = local_list_of_container_keys c ++ [r]) /\
  fst (store world v c1) = fst (store world v c) /\
  (exists written,
     container_puts c1 = container_puts c ++ written /\
     local_list_of_container_keys c1 = local_list_of_container_keys c ++ written /\
     NoDup written /\
     forall k, k ∈ written <->
               k ∈ fst (store world v c) /\ k ∉ local_list_of_container_keys c) /\
  container_puts c2 = container_puts c1 /\
  container c2 = container c1 /\
  local_list_of_container_keys c2 = local_list_of_container_keys c1.
Proof.
  cbv zeta. split.
  { pose proof (store_other_generic_snd world o c) as H. cbv zeta in H.
    destruct H as (_ & _ & _ & _ & _ & _ & _ & H).
    destruct (is_in_container (compute_record o) c); tauto. }
  rewrite !store_fst. split; [reflexivity|].
  pose proof (teq_fields _ _ (store_snd world v c)) as (_&_&_&_&Hp1&_&Hl1&_&_).
  pose proof (store_leaves_snd world (leaves v) c) as H1. cbv zeta in H1.
  destruct H1 as (_&_&_&_&_&Hp1'&Hl1'&_).
  set (c1 := snd (store world v c)) in *.
  set (written := fresh_records (local_list_of_container_keys c)
                    (map compute_record (leaves v))) in *.
  assert (Hknown : forall k, k ∈ map compute_record (leaves v) ->
                             k ∈ local_list_of_container_keys c1).
  { intros k Hk. rewrite Hl1, Hl1', elem_of_app.
    destruct (decide (k ∈ local_list_of_container_keys c)); [now left | right].
    apply fresh_records_elem. auto. }
  split.
  { exists written. rewrite Hp1, Hl1.
    split; [assumption|]. split; [assumption|].
    split; [apply fresh_records_NoDup|].
    intros k. apply fresh_records_elem. }
  pose proof (teq_fields _ _ (store_snd world v c1)) as (_&_&_&Hc2&Hp2&_&Hl2&_&_).
  pose proof (store_leaves_snd world (leaves v) c1) as H2. cbv zeta in H2.
  destruct H2 as (_&_&_&_&_&Hp2'&Hl2'&_).
  rewrite (fresh_records_known _ _ Hknown), app_nil_r in Hp2', Hl2'.
  rewrite Hp2, Hl2, Hc2. repeat split; try assumption.
  now apply store_leaves_known_container.
Qed.

(** C3.  When every record of a value is already in the local list of
    keys, [store] writes nothing to the container, returns the record list
    it returns from any other state, and increments the counter of skipped
    stores once per record on rank 0, and not at all on another rank.  The
    counter is a [std::atomic<long>]: the increments are those of a 64-bit
    value, whatever the counter held before. *)
Theorem store_skips_known_records (world : World) (v : value) (c c0 : Cloud) :
  (forall k, k ∈ fst (store world v c) -> is_in_container k c = true) ->
  let c' := snd (store world v c) in
  fst (store world v c) = fst (store world v c0) /\
  container c' = container c /\
  container_puts c' = container_puts c /\
  local_list_of_container_keys c' = local_list_of_container_keys c /\
  cached_objects c' = cached_objects c /\
  cache_stores c' =
    Int64.increments
      (if (rank world =? 0)%Z then size (fst (store world v c)) else 0)
      (cache_stores c).
Proof.
  rewrite !store_fst. intros Hin. cbv zeta.
  assert (Hknown : forall k, k ∈ map compute_record (leaves v) ->
                             k ∈ local_list_of_container_keys c).
  { intros k Hk. specialize (Hin k Hk). unfold is_in_container in Hin.
    now apply bool_decide_eq_true_1 in Hin. }
  pose proof (teq_fields _ _ (store_snd world v c)) as (_&_&_&Hc&Hp&Hca&Hl&_&Hs).
  pose proof (store_leaves_snd world (leaves v) c) as H1. cbv zeta in H1.
  destruct H1 as (_&_&_&Hca'&_&Hp'&Hl'&Hs').
  rewrite (fresh_records_known _ _ Hknown) in Hp', Hl', Hs'.
  rewrite app_nil_r in Hp', Hl'.
  rewrite Hc, Hp, Hl, Hs, Hca. repeat split; try assumption.
  - now apply store_leaves_known_container.
  - rewrite Hs'. unfold records_of, size. cbn [length].
    rewrite Nat.sub_0_r. reflexivity.
Qed.


(** *** Loading *)

Lemma is_cached_true r c :
  is_cached r c = true <-> exists o, cached_objects c !! r = Some o.
Proof. unfold is_cached. rewrite bool_decide_eq_true. reflexivity. Qed.

Lemma is_cached_false r c :
  is_cached r c = false <-> cached_objects c !! r = None.
Proof.
  unfold is_cached. rewrite bool_decide_eq_false, <- eq_None_not_Some. reflexivity.
Qed.

Lemma bind_Ok {A B} (m : result A) (k : A -> result B) b :
  m ≫= k = Ok b -> exists a, m = Ok a /\ k a = Ok b.
Proof. destruct m as [a | e]; cbn; [eauto | discriminate]. Qed.

Lemma count_cache_read_fields world c :
  let c' := count_cache_read world c in
  debug c' = debug c /\ dofence c' = dofence c /\
  force_load_from_cache c' = force_load_from_cache c /\
  container c' = container c /\ container_puts c' = container_puts c /\
  cached_objects c' = cached_objects c /\
  local_list_of_container_keys c' = local_list_of_container_keys c /\
  cache_stores c' = cache_stores c.
Proof.
  cbv zeta. unfold count_cache_read. destruct (rank world =? 0)%Z; cbn; tauto.
Qed.

(** A load of one record from the cache. *)
Lemma load_other_hit T world r rl c o :
  cached_objects c !! r = Some o -> type_of o = T ->
  load_other T world (r :: rl) c = Ok (o, rl, count_cache_read world c).
Proof.
  intros Hc HT. unfold load_other. cbn [pop_front_and_return].
  assert (Hic : is_cached r c = true) by (apply is_cached_true; eauto).
  rewrite Hic, andb_false_r. unfold load_from_cache.
  destruct (count_cache_read_fields world c) as (_&_&_&_&_&Hco&_).
  rewrite Hco, Hc. rewrite decide_True by assumption. reflexivity.
Qed.

(** A load of one record from the container. *)
Lemma load_other_miss T world r rl c bytes o :
  force_load_from_cache c = false ->
  cached_objects c !! r = None ->
  container c !! r = Some bytes ->
  deserialize world T bytes = Some o ->
  load_other T world (r :: rl) c = Ok (o, rl, cache world o r c).
Proof.
  intros Hf Hc Hb Hd. unfold load_other. cbn [pop_front_and_return].
  apply is_cached_false in Hc. rewrite Hf, Hc. cbn [andb].
  unfold fetch_record. rewrite Hb. cbn. now rewrite Hd.
Qed.

(** What a successful load of one record tells. *)
Lemma load_other_Ok T world rl c o rl' c' :
  load_other T world rl c = Ok (o, rl', c') ->
  exists r,
    rl = r :: rl' /\ type_of o = T /\
    ((cached_objects c !! r = Some o /\ c' = count_cache_read world c)
     \/ (cached_objects c !! r = None /\ force_load_from_cache c = false /\
         c' = cache world o r c /\
         exists bytes, container c !! r = Some bytes /\
                       deserialize world T bytes = Some o)).
Proof.
  unfold load_other. destruct rl as [| r rl0]; cbn [pop_front_and_return];
    [discriminate|].
  destruct (is_cached r c) eqn:Hic.
  - rewrite andb_false_r. unfold load_from_cache.
    destruct (count_cache_read_fields world c) as (_&_&_&_&_&Hco&_).
    rewrite Hco. destruct (cached_objects c !! r) as [obj|] eqn:Hobj; cbn;
      [|discriminate].
    destruct (decide (type_of obj = T)); cbn; [|discriminate].
    intros [= -> -> <-]. exists r. auto.
  - rewrite andb_true_r. destruct (force_load_from_cache c) eqn:Hf; [discriminate|].
    unfold fetch_record.
    destruct (container c !! r) as [bytes|] eqn:Hb; cbn; [|discriminate].
    destruct (deserialize world T bytes) as [target|] eqn:Hd; [|discriminate].
    intros [= -> -> <-]. exists r. split; [reflexivity|].
    split; [eapply deserialize_type; eassumption|].
    right. apply is_cached_false in Hic. eauto 10.
Qed.

(** Loading only adds to the cache, and the object a load returns is
    afterwards cached at its record. *)
Lemma load_other_cache T world rl c o rl' c' :
  load_other T world rl c = Ok (o, rl', c') ->
  cached_objects c ⊆ cached_objects c' /\
  exists r, rl = r :: rl' /\ type_of o = T /\ cached_objects c' !! r = Some o.
Proof.
  intros H. apply load_other_Ok in H as (r & -> & HT & Hcase).
  destruct (count_cache_read_fields world c) as (_&_&_&_&_&Hco&_).
  destruct Hcase as [[Hc ->] | (Hc & _ & -> & _)].
  - rewrite Hco. split; [reflexivity | eauto].
  - cbn. split; [now apply insert_subseteq|].
    exists r. rewrite lookup_insert_eq. auto.
Qed.

(** The members that loading does not touch. *)
Lemma load_other_frame T world rl c o rl' c' :
  load_other T world rl c = Ok (o, rl', c') ->
  force_load_from_cache c' = force_load_from_cache c /\
  container c' = container c /\ container_puts c' = container_puts c /\
  local_list_of_container_keys c' = local_list_of_container_keys c.
Proof.
  intros H. apply load_other_Ok in H as (r & -> & HT & Hcase).
  destruct (count_cache_read_fields world c) as (_&_&?&?&?&_&?&_).
  destruct Hcase as [[Hc ->] | (Hc & _ & -> & _)]; cbn; auto.
Qed.

(** Replaying a successful load of one record against a cache that holds
    at least what the load left. *)
Lemma load_other_replay T world rl c o rl' c1 :
  load_other T world rl c = Ok (o, rl', c1) ->
  forall world' c', cached_objects c1 ⊆ cached_objects c' ->
    load_other T world' rl c' = Ok (o, rl', count_cache_read world' c').
Proof.
  intros H world' c' Hsub.
  apply load_other_cache in H as (_ & r & -> & HT & Hr).
  apply load_other_hit; [|assumption].
  eapply lookup_weaken; eassumption.
Qed.


(** What every loader of the class guarantees when it returns: the cache
    only grew (not at all when loads are forced from the cache) and the
    other members of interest are untouched; the records it popped are a
    prefix [used] of the list it was given, [count x] of them for the result
    [x]; the call depends on that prefix only, and on a list cut short
    inside it the call pops an empty list; and the same call returns the
    same result from any state whose cache holds at least what this call
    left. *)
Definition loader (A : Type) : Type :=
  World -> recordlistT -> Cloud -> result (A * recordlistT * Cloud).

Definition run_ok {A} (count : A -> nat) (L : loader A) : Prop :=
  forall world rl c x rl' c1,
    L world rl c = Ok (x, rl', c1) ->
    cached_objects c ⊆ cached_objects c1 /\
    (force_load_from_cache c = true -> cached_objects c1 = cached_objects c) /\
    force_load_from_cache c1 = force_load_from_cache c /\
    container c1 = container c /\
    container_puts c1 = container_puts c /\
    local_list_of_container_keys c1 = local_list_of_container_keys c /\
    (exists used,
       rl = used ++ rl' /\ length used = count x /\
       (forall rl'', L world (used ++ rl'') c = Ok (x, rl'', c1)) /\
       (forall p q, used = p ++ q -> q <> [] ->
                    L world p c = Err EmptyRecordList)) /\
    (forall world' c', cached_objects c1 ⊆ cached_objects c' ->
       exists c'',
         L world' rl c' = Ok (x, rl', c'') /\
         cached_objects c'' = cached_objects c' /\
         force_load_from_cache c'' = force_load_from_cache c' /\
         container c'' = container c').

Ltac inv_bind H :=
  let a := fresh "a" in
  let Ha := fresh "Hrun" in
  apply bind_Ok in H as (a & Ha & H);
  destruct a as [[? ?] ?].

Lemma load_other_run_ok T : run_ok (fun _ => 1%nat) (load_other T).
Proof.
  intros world rl c o rl' c1 H.
  destruct (load_other_cache _ _ _ _ _ _ _ H) as (Hsub & r & -> & HT & Hr).
  destruct (load_other_frame _ _ _ _ _ _ _ H) as (Hf & Hc & Hp & Hl).
  split; [assumption|]. split.
  { intros Hforce. apply load_other_Ok in H as (r' & _ & _ & Hcase).
    destruct Hcase as [[_ ->] | (_ & Hff & _)]; [|congruence].
    now destruct (count_cache_read_fields world c) as (_&_&_&_&_&?&_). }
  repeat (split; [assumption|]). split.
  - exists [r]. split; [reflexivity|]. split; [reflexivity|]. split.
    + intros rl''. pose proof H as H'.
      apply load_other_Ok in H' as (r' & Hrl & _ & Hcase).
      injection Hrl as <-.
      destruct Hcase as [[Hhit ->] | (Hmiss & Hff & -> & bytes & Hb & Hd)].
      * now apply load_other_hit.
      * now apply (load_other_miss _ _ _ _ _ bytes).
    + intros p q Hpq Hq. destruct p as [| x p]; [reflexivity|].
      destruct p; destruct q; cbn in Hpq; congruence.
  - intros world' c' Hsub'.
    rewrite (load_other_replay _ _ _ _ _ _ _ H world' c' Hsub').
    destruct (count_cache_read_fields world' c') as (_&_&?&?&_&?&_).
    eauto.
Qed.

(** Sequencing two loaders that satisfy [run_ok]. *)
Lemma run_ok_seq {A B C} (ca : A -> nat) (cb : B -> nat) (cc : C -> nat)
    (La : loader A) (Lb : A -> loader B) (f : A -> B -> option C) (L : loader C) :
  run_ok ca La -> (forall a, run_ok cb (Lb a)) ->
  (forall world rl c,
     L world rl c =
       '(a, rl1, c1) ← La world rl c;
       '(b, rl2, c2) ← Lb a world rl1 c1;
       match f a b with Some x => Ok (x, rl2, c2) | None => Err TypeMismatch end) ->
  (forall a b x, f a b = Some x -> cc x = (ca a + cb b)%nat) ->
  run_ok cc L.
Proof.
  intros Ha Hb HL Hcount world rl c x rl' c2 H.
  rewrite HL in H. inv_bind H. inv_bind H.
  destruct (f a b) as [x'|] eqn:Hf; [|discriminate].
  injection H as -> -> ->.
  destruct (Ha _ _ _ _ _ _ Hrun)
    as (Hs1 & Hk1 & Hf1 & Hc1 & Hp1 & Hl1 & (u1 & -> & Hu1 & Hpre1 & Hcut1) & Hr1).
  destruct (Hb a _ _ _ _ _ _ Hrun0)
    as (Hs2 & Hk2 & Hf2 & Hc2 & Hp2 & Hl2 & (u2 & -> & Hu2 & Hpre2 & Hcut2) & Hr2).
  split; [etrans; eassumption|].
  split; [intros Hforce; rewrite Hk2, Hk1; congruence|].
  do 4 (split; [congruence|]).
  split.
  - exists (u1 ++ u2). split; [now rewrite <- app_assoc|].
    split; [rewrite length_app, (Hcount _ _ _ Hf); auto|]. split.
    + intros rl''. rewrite HL, <- app_assoc, Hpre1. cbn.
      rewrite Hpre2. cbn. now rewrite Hf.
    + intros p q Hpq Hq. rewrite HL. symmetry in Hpq.
      apply app_eq_app in Hpq as [k [[-> ->] | [-> ->]]].
      * rewrite Hpre1. cbn.
        rewrite (Hcut2 k q); [reflexivity | reflexivity | assumption].
      * destruct k as [| y k].
        -- rewrite app_nil_r in Hpre1. cbn [app] in Hq.
           pose proof (Hpre1 []) as E. rewrite app_nil_r in E. rewrite E. cbn.
           rewrite (Hcut2 [] u2); [reflexivity | reflexivity | assumption].
        -- rewrite (Hcut1 p (y :: k)); [reflexivity | reflexivity | discriminate].
  - intros world' c' Hsub.
    destruct (Hr1 world' c') as (c1' & E1 & Hca1 & Hfl1 & Hco1); [etrans; eassumption|].
    destruct (Hr2 world' c1') as (c2' & E2 & Hca2 & Hfl2 & Hco2);
      [rewrite Hca1; exact Hsub|].
    exists c2'. rewrite HL, E1. cbn. rewrite E2. cbn. rewrite Hf.
    repeat split; congruence.
Qed.

Lemma run_ok_ret {A} (count : A -> nat) (x0 : A) (L : loader A) :
  (forall world rl c, L world rl c = Ok (x0, rl, c)) -> count x0 = 0%nat ->
  run_ok count L.
Proof.
  intros HL H0 world rl c x rl' c1 H. rewrite HL in H. injection H as <- <- <-.
  repeat (split; [reflexivity|]). split.
  - exists []. repeat split; auto.
    intros p q Hpq Hq. destruct p, q; cbn in Hpq; congruence.
  - intros world' c' _. exists c'. rewrite HL. auto.
Qed.

Lemma load_functions_run_ok n : run_ok (@length Function) (load_functions n).
Proof.
  induction n as [| n IH].
  - apply (run_ok_ret _ []); reflexivity.
  - eapply (run_ok_seq (fun _ => 1%nat) (@length Function) _
              (load_other FunctionT)
              (fun o => match o with
                        | O_Function _ => load_functions n
                        | _ => fun _ _ _ => Err TypeMismatch
                        end)
              (fun o fs => match o with O_Function f => Some (f :: fs) | _ => None end)).
    + apply load_other_run_ok.
    + intros o. destruct o; try (intros ? ? ? ? ? ? ?; discriminate). exact IH.
    + intros world rl c. cbn [load_functions].
      destruct (load_other FunctionT world rl c) as [[[o rl1] c1] | e]; cbn;
        [|reflexivity].
      destruct o;
        first [ reflexivity
              | destruct (load_functions n world rl1 c1) as [[[? ?] ?] | ?];
                reflexivity ].
    + intros o fs x. destruct o; try discriminate. intros [= <-]. reflexivity.
Qed.

Lemma load_functions_length n world rl c fs rl' c' :
  load_functions n world rl c = Ok (fs, rl', c') -> length fs = n.
Proof.
  revert rl c fs rl' c'. induction n as [| n IH]; intros rl c fs rl' c' H; cbn in H.
  - now injection H as <- _ _.
  - inv_bind H. destruct c0; try discriminate. inv_bind H.
    injection H as <- _ _. cbn. f_equal. eapply IH; eassumption.
Qed.

Definition count_obj (o : cached_objT) : nat := length (leaves_of_obj o).

Lemma load_madness_function_vector_run_ok :
  run_ok count_obj load_madness_function_vector.
Proof.
  eapply (run_ok_seq (fun _ => 1%nat) (@length Function) _
            (load_other size_tT)
            (fun o => match o with
                      | O_size_t sz => load_functions (Z.to_nat sz)
                      | _ => fun _ _ _ => Err TypeMismatch
                      end)
            (fun o fs => match o with
                         | O_size_t _ => Some (O_vector_Function fs)
                         | _ => None
                         end)).
  - apply load_other_run_ok.
  - intros o. destruct o; try (intros ? ? ? ? ? ? ?; discriminate).
    apply load_functions_run_ok.
  - intros world rl c. unfold load_madness_function_vector.
    destruct (load_other size_tT world rl c) as [[[o rl1] c1] | e]; cbn;
      [|reflexivity].
    destruct o;
      first [ reflexivity
            | destruct (load_functions (Z.to_nat n) world rl1 c1) as [[[? ?] ?] | ?];
              reflexivity ].
  - intros o fs x. destruct o; try discriminate. intros [= <-].
    unfold count_obj. cbn. now rewrite length_map.
Qed.

Lemma load_internal_type T world rl c o rl' c' :
  load_internal T world rl c = Ok (o, rl', c') -> type_of o = T.
Proof.
  destruct T; cbn [load_internal]; intros H;
    try (apply load_other_Ok in H as (r & _ & HT & _); exact HT).
  unfold load_madness_function_vector in H. inv_bind H.
  destruct c0; try discriminate. inv_bind H. now injection H as <- _ _.
Qed.

Lemma load_internal_run_ok T : run_ok count_obj (load_internal T).
Proof.
  destruct T; cbn [load_internal]; try apply load_madness_function_vector_run_ok.
  all: intros world rl c o rl' c1 H;
    pose proof (load_other_run_ok _ world rl c o rl' c1 H) as Hok;
    apply load_other_Ok in H as (r & _ & HT & _);
    destruct o; try discriminate HT; exact Hok.
Qed.

Definition count_objs (os : list cached_objT) : nat := length (flat_map leaves_of_obj os).

Lemma load_tuple_run_ok Ts : run_ok count_objs (load_tuple Ts).
Proof.
  induction Ts as [| T Ts IH].
  - apply (run_ok_ret _ []); reflexivity.
  - eapply (run_ok_seq count_obj count_objs _
              (load_internal T) (fun _ => load_tuple Ts)
              (fun o os => Some (o :: os))).
    + apply load_internal_run_ok.
    + intros _. exact IH.
    + intros world rl c. cbn [load_tuple].
      destruct (load_internal T world rl c) as [[[o rl1] c1] | e]; cbn;
        [|reflexivity].
      destruct (load_tuple Ts world rl1 c1) as [[[os rl2] c2] | e]; reflexivity.
    + intros o os x [= <-]. unfold count_objs, count_obj. cbn [flat_map].
      now rewrite length_app.
Qed.

Lemma load_tuple_types Ts world rl c os rl' c' :
  load_tuple Ts world rl c = Ok (os, rl', c') -> map type_of os = Ts.
Proof.
  revert rl c os rl' c'. induction Ts as [| T Ts IH]; intros rl c os rl' c' H;
    cbn [load_tuple] in H.
  - now injection H as <- _ _.
  - inv_bind H. inv_bind H. injection H as <- _ _. cbn. f_equal.
    + eapply load_internal_type; eassumption.
    + eapply IH; eassumption.
Qed.


Lemma loadtimer_fields world c :
  let c' := loadtimer world c in
  force_load_from_cache c' = force_load_from_cache c /\
  container c' = container c /\ container_puts c' = container_puts c /\
  cached_objects c' = cached_objects c /\
  local_list_of_container_keys c' = local_list_of_container_keys c.
Proof.
  cbv zeta. unfold loadtimer. destruct (rank world =? 0)%Z; cbn; tauto.
Qed.

Lemma leaves_VLeafs os : flat_map leaves (map VLeaf os) = flat_map leaves_of_obj os.
Proof. induction os as [| o os IH]; cbn; [reflexivity|]. now rewrite IH. Qed.

(** [load] in terms of the loader it dispatches to. *)
Definition load_dispatch (T : ty) : loader value :=
  fun world rl c =>
    match T with
    | TTuple Ts =>
        '(os, rl', c') ← load_tuple Ts world rl c;
        mret (VTuple (map VLeaf os), rl', c')
    | TLeaf T =>
        '(o, rl', c') ← load_internal T world rl c;
        mret (VLeaf o, rl', c')
    end.

Lemma load_dispatch_eq T world rl c :
  load T world rl c =
    '(x, _, c') ← load_dispatch T world rl c; mret (x, loadtimer world c').
Proof.
  unfold load, load_dispatch. destruct T as [T | Ts].
  - destruct (load_internal T world rl c) as [[[o rl'] c'] | e]; reflexivity.
  - destruct (load_tuple Ts world rl c) as [[[os rl'] c'] | e]; reflexivity.
Qed.

Lemma run_ok_map {A B} (ca : A -> nat) (cb : B -> nat) (g : A -> B)
    (La : loader A) (L : loader B) :
  run_ok ca La ->
  (forall world rl c,
     L world rl c = '(a, rl', c') ← La world rl c; mret (g a, rl', c')) ->
  (forall a, cb (g a) = ca a) ->
  run_ok cb L.
Proof.
  intros Ha HL Hcount.
  eapply (run_ok_seq ca (fun _ : unit => 0%nat) cb La
            (fun _ _ rl c => Ok (tt, rl, c)) (fun a _ => Some (g a))).
  - exact Ha.
  - intros _. now apply (run_ok_ret _ tt).
  - intros world rl c. rewrite HL.
    destruct (La world rl c) as [[[a rl'] c'] | e]; reflexivity.
  - intros a [] x [= <-]. rewrite Hcount. lia.
Qed.

Lemma load_dispatch_run_ok T : run_ok (fun v => length (leaves v)) (load_dispatch T).
Proof.
  destruct T as [T | Ts].
  - eapply (run_ok_map count_obj _ VLeaf (load_internal T)).
    + apply load_internal_run_ok.
    + reflexivity.
    + reflexivity.
  - eapply (run_ok_map count_objs _ (fun os => VTuple (map VLeaf os)) (load_tuple Ts)).
    + apply load_tuple_run_ok.
    + reflexivity.
    + intros os. cbn [leaves]. now rewrite leaves_VLeafs.
Qed.

(** The guarantees of [run_ok], for [load] itself. *)
Lemma load_run T world rl c x c1 :
  load T world rl c = Ok (x, c1) ->
  cached_objects c ⊆ cached_objects c1 /\
  (force_load_from_cache c = true -> cached_objects c1 = cached_objects c) /\
  force_load_from_cache c1 = force_load_from_cache c /\
  container c1 = container c /\
  (exists used rest,
     rl = used ++ rest /\ length used = length (leaves x) /\
     (forall rl'', load T world (used ++ rl'') c = Ok (x, c1)) /\
     (forall p q, used = p ++ q -> q <> [] ->
                  load T world p c = Err EmptyRecordList)) /\
  (forall world' c', cached_objects c1 ⊆ cached_objects c' ->
     exists c'',
       load T world' rl c' = Ok (x, c'') /\
       cached_objects c'' = cached_objects c' /\
       force_load_from_cache c'' = force_load_from_cache c' /\
       container c'' = container c').
Proof.
  rewrite load_dispatch_eq. intros H. inv_bind H. injection H as -> <-.
  destruct (load_dispatch_run_ok T _ _ _ _ _ _ Hrun)
    as (Hs & Hk & Hf & Hc & _ & _ & (used & -> & Hu & Hpre & Hcut) & Hr).
  destruct (loadtimer_fields world c0) as (Hf' & Hc' & _ & Hca' & _).
  rewrite Hf', Hc', Hca'.
  repeat (split; [assumption|]). split.
  - exists used, l. repeat split; try assumption.
    + intros rl''. now rewrite load_dispatch_eq, Hpre.
    + intros p q Hpq Hq. now rewrite load_dispatch_eq, (Hcut p q Hpq Hq).
  - intros world' c' Hsub. destruct (Hr world' c' Hsub) as (c'' & E & Hca & Hfl & Hco).
    exists (loadtimer world' c''). rewrite load_dispatch_eq, E.
    destruct (loadtimer_fields world' c'') as (Hf2 & Hc2 & _ & Hca2 & _).
    split; [reflexivity|]. rewrite Hf2, Hc2, Hca2. auto.
Qed.


Lemma load_internal_other T world rl c :
  T <> vector_FunctionT -> load_internal T world rl c = load_other T world rl c.
Proof. destruct T; try reflexivity. congruence. Qed.

Lemma load_other_first_miss_forced T world r rl c :
  force_load_from_cache c = true -> is_cached r c = false ->
  load_other T world (r :: rl) c = Err CacheRequiredMiss.
Proof.
  intros Hf Hc. unfold load_other. cbn [pop_front_and_return].
  now rewrite Hf, Hc.
Qed.

Lemma load_internal_first_miss_forced T world r rl c :
  force_load_from_cache c = true -> is_cached r c = false ->
  load_internal T world (r :: rl) c = Err CacheRequiredMiss.
Proof.
  intros Hf Hc. destruct T; cbn [load_internal];
    try (now apply load_other_first_miss_forced).
  unfold load_madness_function_vector.
  now rewrite load_other_first_miss_forced.
Qed.

(** C5.  With [force_load_from_cache] set, loading a record that the cache
    does not hold throws, whatever the container holds at that record:
    in [load_other], and so in every [load] whose first record it is. *)
Theorem forced_load_miss_fails (T : leafT) (Ts : list leafT)
    (world : World) (r : keyT) (rl : recordlistT) (c : Cloud) :
  force_load_from_cache c = true ->
  is_cached r c = false ->
  load_other T world (r :: rl) c = Err CacheRequiredMiss /\
  load (TLeaf T) world (r :: rl) c = Err CacheRequiredMiss /\
  load (TTuple (T :: Ts)) world (r :: rl) c = Err CacheRequiredMiss.
Proof.
  intros Hf Hc. split; [now apply load_other_first_miss_forced|].
  unfold load. cbn [load_tuple].
  now rewrite load_internal_first_miss_forced.
Qed.





(** [n] calls of [load] with the same record list, as in [test_cloud.cc],
    which loads three times from [precords]: the caller keeps the list, and
    [load], taking it by value, cannot change it. *)
Fixpoint load_repeatedly (n : nat) (T : ty) (world : World) (recordlist : recordlistT)
    (c : Cloud) : result (list value * Cloud) :=
  match n with
  | O => Ok ([], c)
  | S n' =>
      '(x, c1) ← load T world recordlist c;
      '(xs, c2) ← load_repeatedly n' T world recordlist c1;
      mret (x :: xs, c2)
  end.

(** C9.  [load] works on a copy of the record list it is given, so the
    list can be passed again: after a load that returned a value, any
    number of further loads of the same list, in any world, return that
    value again, and change neither the cache nor the container. *)
Theorem load_repeatable (T : ty) (world world' : World) (rl : recordlistT)
    (c c1 : Cloud) (x : value) (n : nat) :
  load T world rl c = Ok (x, c1) ->
  exists c2,
    load_repeatedly n T world' rl c1 = Ok (replicate n x, c2) /\
    cached_objects c2 = cached_objects c1 /\
    container c2 = container c1.
Proof.
  intros H. destruct (load_run _ _ _ _ _ _ H) as (_ & _ & _ & _ & _ & Hr).
  assert (Hn : forall c', cached_objects c1 ⊆ cached_objects c' ->
             exists c2, load_repeatedly n T world' rl c' = Ok (replicate n x, c2) /\
                        cached_objects c2 = cached_objects c' /\
                        container c2 = container c').
  { induction n as [| n IH]; intros c' Hsub.
    - exists c'. auto.
    - destruct (Hr world' c' Hsub) as (c'' & E & Hca & _ & Hco).
      destruct (IH c'') as (c2 & E2 & Hca2 & Hco2); [now rewrite Hca|].
      exists c2. cbn [load_repeatedly replicate]. rewrite E. cbn. rewrite E2. cbn.
      repeat split; congruence. }
  apply Hn. reflexivity.
Qed.

Lemma load_other_defined T world r rl c :
  load_other T world (r :: rl) c <> Err EmptyRecordList /\
  load_other T world (r :: rl) c <> Err UndefinedBehaviour.
Proof.
  unfold load_other. cbn [pop_front_and_return].
  destruct (is_cached r c) eqn:Hic.
  - rewrite andb_false_r. unfold load_from_cache.
    destruct (count_cache_read_fields world c) as (_&_&_&_&_&Hco&_).
    apply is_cached_true in Hic as (o & Ho). rewrite Hco, Ho.
    destruct (decide (type_of o = T)); cbn; split; discriminate.
  - rewrite andb_true_r. destruct (force_load_from_cache c); [split; discriminate|].
    unfold fetch_record.
    destruct (container c !! r) as [bytes|]; cbn; [|split; discriminate].
    destruct (deserialize world T bytes); split; discriminate.
Qed.

(** C10.  [pop_front_and_return] is defined on non-empty lists only, and
    [load] pops: a load from an empty list reads the front of an empty list,
    for every type but the empty tuple; a load of a type that is one record
    does not, as soon as the list is not empty; and when a load returns a
    value, it has popped as many records as the value has leaves, the list
    held at least that many, cutting the list below that number makes the
    load read the front of an empty list, and cutting it anywhere else
    leaves the result as it is. *)
Theorem pop_front_precondition (T : ty) (world : World) (rl : recordlistT)
    (c c1 : Cloud) (x : value)
    (T0 : leafT) (Ts : list leafT) (r0 : keyT) (rl0 : recordlistT) :
  load T world rl c = Ok (x, c1) ->
  (pop_front_and_return [] = None /\
   pop_front_and_return (r0 :: rl0) = Some (r0, rl0)) /\
  (load (TLeaf T0) world [] c = Err EmptyRecordList /\
   load (TTuple (T0 :: Ts)) world [] c = Err EmptyRecordList) /\
  (T0 <> vector_FunctionT ->
   load (TLeaf T0) world (r0 :: rl0) c <> Err EmptyRecordList) /\
  (length (leaves x) <= length rl)%nat /\
  (forall n, (n < length (leaves x))%nat ->
             load T world (take n rl) c = Err EmptyRecordList) /\
  (forall n, (length (leaves x) <= n)%nat ->
             load T world (take n rl) c = Ok (x, c1)).
Proof.
  intros H. split; [split; reflexivity|]. split.
  { split; [destruct T0; reflexivity|]. unfold load. cbn [load_tuple].
    destruct T0; reflexivity. }
  split.
  { intros HT0. unfold load. rewrite load_internal_other by assumption.
    destruct (load_other_defined T0 world r0 rl0 c) as [Hd _].
    destruct (load_other T0 world (r0 :: rl0) c) as [[[o rl'] c'] | e]; cbn;
      [discriminate|].
    intros [= ->]. now apply Hd. }
  destruct (load_run _ _ _ _ _ _ H)
    as (_ & _ & _ & _ & (used & rest & -> & Hu & Hpre & Hcut) & _).
  rewrite <- Hu. split; [rewrite length_app; lia|]. split.
  - intros n Hn. rewrite take_app_le by lia.
    apply (Hcut (take n used) (drop n used)).
    + now rewrite take_drop.
    + intros Hnil. apply (f_equal length) in Hnil.
      rewrite length_drop in Hnil. cbn in Hnil. lia.
  - intros n Hn. rewrite take_app_ge by lia. apply Hpre.
Qed.

(** *** Round trip *)

(** No two distinct objects of the list have the same record. *)
Definition collision_free (os : list cached_objT) : Prop :=
  forall o1 o2, o1 ∈ os -> o2 ∈ os -> compute_record o1 = compute_record o2 -> o1 = o2.

(** What the Cloud already holds at the record of [o] is [o]: its blob in
    the container when the record is in the local list of keys, and [o]
    itself in the cache. *)
Definition agrees (c : Cloud) (o : cached_objT) : Prop :=
  let r := compute_record o in
  (r ∈ local_list_of_container_keys c -> container c !! r = Some (serialize o)) /\
  (forall o', cached_objects c !! r = Some o' -> o' = o).

(** The container holds the blob of [o] at its record, and the cache holds
    nothing else there. *)
Definition stored (c : Cloud) (o : cached_objT) : Prop :=
  let r := compute_record o in
  container c !! r = Some (serialize o) /\
  (forall o', cached_objects c !! r = Some o' -> o' = o).

Lemma agrees_new_cloud o : agrees new_cloud o.
Proof.
  split; cbn.
  - intros H. inversion H.
  - intros o'. rewrite lookup_empty. discriminate.
Qed.

Lemma store_step_invariant world L0 o c :
  collision_free L0 -> o ∈ L0 -> Forall (agrees c) L0 ->
  let c1 := snd (store_other_generic world o c) in
  Forall (agrees c1) L0 /\ stored c1 o /\
  (forall d, d ∈ L0 -> stored c d -> stored c1 d).
Proof.
  intros Hcf Ho Hag. cbv zeta.
  pose proof (store_other_generic_snd world o c) as Hstep. cbv zeta in Hstep.
  destruct Hstep as (_ & _ & _ & Hca & _ & _ & _ & Hcase).
  rewrite Forall_forall in Hag.
  set (c1 := snd (store_other_generic world o c)) in *.
  unfold is_in_container in Hcase.
  destruct (bool_decide_reflect (compute_record o ∈ local_list_of_container_keys c))
    as [Hin | Hnin].
  - destruct Hcase as (Hco & _ & Hl & _).
    assert (Hsame : forall d, agrees c1 d <-> agrees c d).
    { intros d. unfold agrees. cbv zeta. now rewrite Hco, Hl, Hca. }
    split; [|split].
    + rewrite Forall_forall. intros d Hd. apply Hsame. auto.
    + destruct (Hag o Ho) as [Hb Hc]. unfold stored. cbv zeta.
      rewrite Hco, Hca. auto.
    + intros d _. unfold stored. cbv zeta. now rewrite Hco, Hca.
  - destruct Hcase as (Hco & _ & Hl & _).
    assert (Hlook : forall d, d ∈ L0 ->
              (compute_record d = compute_record o /\ d = o) \/
              (compute_record d <> compute_record o /\
               container c1 !! compute_record d = container c !! compute_record d)).
    { intros d Hd. destruct (decide (compute_record d = compute_record o)) as [E | N].
      - left. split; [assumption | now apply Hcf].
      - right. split; [assumption|]. rewrite Hco. now apply lookup_insert_ne. }
    split; [|split].
    + rewrite Forall_forall. intros d Hd. destruct (Hag d Hd) as [Hb Hc].
      split; cbv zeta; [|rewrite Hca; exact Hc].
      destruct (Hlook d Hd) as [[E ->] | [N E]].
      * intros _. rewrite Hco. apply lookup_insert_eq.
      * rewrite E, Hl, elem_of_app, list_elem_of_singleton. intros [H | H]; tauto.
    + destruct (Hag o Ho) as [_ Hc]. split; cbv zeta.
      * rewrite Hco. apply lookup_insert_eq.
      * rewrite Hca. exact Hc.
    + intros d Hd [Hb Hc]. split; cbv zeta; [|rewrite Hca; exact Hc].
      destruct (Hlook d Hd) as [[E ->] | [N E]].
      * rewrite Hco. apply lookup_insert_eq.
      * now rewrite E.
Qed.

Lemma store_leaves_invariant world L0 os :
  collision_free L0 -> (forall o, o ∈ os -> o ∈ L0) ->
  forall c D, Forall (agrees c) L0 ->
    (forall d, d ∈ D -> d ∈ L0) -> Forall (stored c) D ->
    Forall (stored (store_leaves world os c)) (D ++ os).
Proof.
  intros Hcf. induction os as [| o os IH]; intros Hos c D Hag HD Hst.
  - now rewrite app_nil_r.
  - change (store_leaves world (o :: os) c)
      with (store_leaves world os (snd (store_other_generic world o c))).
    destruct (store_step_invariant world L0 o c Hcf) as (Hag1 & Ho1 & Hkeep);
      [apply Hos; left | assumption |].
    replace (D ++ o :: os) with ((D ++ [o]) ++ os) by now rewrite <- app_assoc.
    apply IH.
    + intros x Hx. apply Hos. now right.
    + assumption.
    + intros d Hd. apply elem_of_app in Hd as [Hd | Hd]; [auto|].
      apply list_elem_of_singleton in Hd as ->. apply Hos. left.
    + apply Forall_app. split.
      * rewrite Forall_forall in Hst |- *. intros d Hd. apply Hkeep; auto.
      * now constructor.
Qed.

(** The state in which every object of [L0] can be loaded. *)
Definition all_stored (c : Cloud) (L0 : list cached_objT) : Prop :=
  force_load_from_cache c = false /\ forall d, d ∈ L0 -> stored c d.

Section Loading.
Variable L0 : list cached_objT.
Variable world : World.
Hypothesis Hcf : collision_free L0.
Hypothesis Hser :
  forall o, o ∈ L0 -> deserialize world (type_of o) (serialize o) = Some o.

Lemma load_other_stored o rl c :
  all_stored c L0 -> o ∈ L0 ->
  exists c1,
    load_other (type_of o) world (compute_record o :: rl) c = Ok (o, rl, c1) /\
    all_stored c1 L0.
Proof using Hcf Hser.
  intros [Hforce Hall] Ho. destruct (Hall o Ho) as [Hb Hc].
  destruct (cached_objects c !! compute_record o) as [o'|] eqn:Hlook.
  - rewrite (Hc o' eq_refl) in Hlook. eexists. split.
    + now apply load_other_hit.
    + destruct (count_cache_read_fields world c) as (_&_&Hf&Hco&_&Hca&_).
      split; [congruence|]. intros d Hd. unfold stored. cbv zeta.
      rewrite Hco, Hca. now apply Hall.
  - eexists. split.
    + apply (load_other_miss _ _ _ _ _ (serialize o)); auto.
    + split; [assumption|]. intros d Hd. destruct (Hall d Hd) as [Hbd Hcd].
      split; cbv zeta; [exact Hbd|]. cbn. intros o'.
      destruct (decide (compute_record o = compute_record d)) as [E | N].
      * rewrite E, lookup_insert_eq. intros [= <-]. now apply Hcf.
      * rewrite lookup_insert_ne by assumption. apply Hcd.
Qed.

Lemma load_functions_stored fs rl c :
  all_stored c L0 -> (forall f, f ∈ fs -> O_Function f ∈ L0) ->
  exists c1,
    load_functions (length fs) world
      (map compute_record (map O_Function fs) ++ rl) c = Ok (fs, rl, c1) /\
    all_stored c1 L0.
Proof using Hcf Hser.
  revert c. induction fs as [| f fs IH]; intros c Hall Hfs.
  - exists c. auto.
  - destruct (load_other_stored (O_Function f)
                (map compute_record (map O_Function fs) ++ rl) c Hall)
      as (c1 & E1 & Hall1); [apply Hfs; left|].
    destruct (IH c1 Hall1) as (c2 & E2 & Hall2);
      [intros g Hg; apply Hfs; now right|].
    exists c2. cbn [length load_functions map app].
    cbn [type_of] in E1. rewrite E1. cbn. rewrite E2. auto.
Qed.

Lemma load_internal_stored o rl c :
  all_stored c L0 -> (forall d, d ∈ leaves_of_obj o -> d ∈ L0) ->
  exists c1,
    load_internal (type_of o) world
      (map compute_record (leaves_of_obj o) ++ rl) c = Ok (o, rl, c1) /\
    all_stored c1 L0.
Proof using Hcf Hser.
  intros Hall Ho.
  destruct o;
    try (apply (load_other_stored _ rl c Hall); apply Ho; cbn; left).
  cbn [type_of load_internal leaves_of_obj map app].
  unfold load_madness_function_vector.
  destruct (load_other_stored (O_size_t (Z.of_nat (length v)))
              (map compute_record (map O_Function v) ++ rl) c Hall)
    as (c1 & E1 & Hall1); [apply Ho; cbn; left|].
  destruct (load_functions_stored v rl c1 Hall1) as (c2 & E2 & Hall2).
  { intros f Hf. apply Ho. cbn. right. now apply list_elem_of_fmap_2. }
  exists c2. cbn [type_of] in E1. rewrite E1. cbn.
  rewrite Nat2Z.id, E2. auto.
Qed.

Lemma load_tuple_stored os rl c :
  all_stored c L0 -> (forall d, d ∈ flat_map leaves_of_obj os -> d ∈ L0) ->
  exists c1,
    load_tuple (map type_of os) world
      (map compute_record (flat_map leaves_of_obj os) ++ rl) c = Ok (os, rl, c1) /\
    all_stored c1 L0.
Proof using Hcf Hser.
  revert c. induction os as [| o os IH]; intros c Hall Hos.
  - exists c. auto.
  - cbn [flat_map map load_tuple]. rewrite map_app, <- app_assoc.
    destruct (load_internal_stored o
                (map compute_record (flat_map leaves_of_obj os) ++ rl) c Hall)
      as (c1 & E1 & Hall1).
    { intros d Hd. apply Hos. cbn [flat_map]. apply elem_of_app. now left. }
    destruct (IH c1 Hall1) as (c2 & E2 & Hall2).
    { intros d Hd. apply Hos. cbn [flat_map]. apply elem_of_app. now right. }
    exists c2. rewrite E1. cbn. rewrite E2. auto.
Qed.

End Loading.

Lemma flat_members_Some members os :
  flat_members members = Some os -> members = map VLeaf os.
Proof.
  revert os. induction members as [| m ms IH]; intros os H; cbn in H.
  - now injection H as <-.
  - destruct m as [o | ?]; [|discriminate].
    destruct (flat_members ms) as [os'|]; [|discriminate].
    injection H as <-. cbn. f_equal. now apply IH.
Qed.


(** C1 (as amended).  With [force_load_from_cache] cleared, a value whose
    leaves have pairwise distinct records, stored into a Cloud that holds
    nothing else at those records, is what [load] returns from the record
    list that [store] returned, in any world in which the blobs of the
    leaves deserialise to the leaves. *)
Theorem store_load_roundtrip (world world' : World) (v : value) (T : ty) (c : Cloud) :
  type_of_value v = Some T ->
  force_load_from_cache c = false ->
  collision_free (leaves v) ->
  Forall (agrees c) (leaves v) ->
  (forall o, o ∈ leaves v -> deserialize world' (type_of o) (serialize o) = Some o) ->
  exists c2,
    load T world' (fst (store world v c)) (snd (store world v c)) = Ok (v, c2).
Proof.
  intros HT Hforce Hcf Hag Hser. rewrite store_fst.
  pose proof (teq_fields _ _ (store_snd world v c)) as (_&_&Hf1&Hc1&_&Hca1&_).
  pose proof (store_leaves_snd world (leaves v) c) as Hs. cbv zeta in Hs.
  destruct Hs as (_&_&Hf2&_).
  set (c1 := snd (store world v c)) in *.
  assert (Hall : all_stored c1 (leaves v)).
  { split; [congruence|].
    assert (Hst : Forall (stored (store_leaves world (leaves v) c)) (leaves v)).
    { apply (store_leaves_invariant world (leaves v) (leaves v) Hcf
               (fun o H => H) c [] Hag).
      - intros ? H. inversion H.
      - constructor. }
    rewrite Forall_forall in Hst.
    intros d Hd. unfold stored. cbv zeta. rewrite Hc1, Hca1.
    now apply Hst. }
  clearbody c1. unfold records_of.
  destruct v as [o | members]; cbn [type_of_value] in HT.
  - injection HT as <-. cbn [leaves] in *.
    destruct (load_internal_stored (leaves_of_obj o) world' Hcf Hser o [] c1 Hall)
      as (c2 & E & _); [auto|].
    rewrite app_nil_r in E. unfold load. rewrite E. cbn. eauto.
  - destruct (flat_members members) as [os|] eqn:Hos; [|discriminate].
    injection HT as <-. apply flat_members_Some in Hos as ->.
    cbn [leaves] in *. rewrite leaves_VLeafs in *.
    destruct (load_tuple_stored (flat_map leaves_of_obj os) world' Hcf Hser os [] c1 Hall)
      as (c2 & E & _); [auto|].
    rewrite app_nil_r in E. unfold load. rewrite E. cbn. eauto.
Qed.

End Proofs.

(** *** The theorems at concrete inputs *)

Section Runs.
Import Reference.
#[local] Existing Instance substrate.

Definition f1 : Function := {| get_impl := {| impl_id := {| worldid := 0; objid := 7 |} |} |}.
Definition f2 : Function := {| get_impl := {| impl_id := {| worldid := 0; objid := 8 |} |} |}.
Definition f3 : Function := {| get_impl := {| impl_id := {| worldid := 0; objid := 9 |} |} |}.
Definition f4 : Function := {| get_impl := {| impl_id := {| worldid := 0; objid := 10 |} |} |}.

(** The tuple of [test_cloud.cc], with a vector of functions added. *)
Definition a_tuple : value :=
  VTuple [VLeaf (O_double 1%float); VLeaf (O_int 2); VLeaf (O_Function f1);
          VLeaf (O_impl_ptr (get_impl f2)); VLeaf (O_vector_Function [f3; f4])].

Definition a_tuple_type : ty :=
  TTuple [doubleT; intT; FunctionT; impl_ptrT; vector_FunctionT].

Definition unit_x : Tensor := {| dims := [2%Z]; elements := [1%float; 0%float] |}.
Definition unit_y : Tensor := {| dims := [2%Z]; elements := [0%float; 1%float] |}.

(** The state a load leaves, when it returns. *)
Definition final_state (r : result (value * Cloud)) : Cloud :=
  match r with
  | Ok (_, c) => c
  | Err _ => new_cloud
  end.

Lemma ref_deserialize_serialize w o :
  deserialize w (type_of o) (serialize o) = Some o.
Proof. cbn. unfold ref_deserialize. now rewrite decide_True. Qed.

Lemma a_tuple_collision_free : collision_free (leaves a_tuple).
Proof.
  intros o1 o2 H1 H2 E. cbn in H1, H2.
  repeat (apply elem_of_cons in H1 as [-> | H1]);
    try (now inversion H1);
    repeat (apply elem_of_cons in H2 as [-> | H2]);
    try (now inversion H2);
    try reflexivity;
    vm_compute in E; discriminate E.
Qed.

Lemma store_load_roundtrip_witness :
  exists c2,
    load a_tuple_type subworld (fst (store universe a_tuple new_cloud))
      (snd (store universe a_tuple new_cloud)) = Ok (a_tuple, c2).
Proof.
  apply (store_load_roundtrip universe subworld a_tuple a_tuple_type new_cloud).
  - reflexivity.
  - reflexivity.
  - exact a_tuple_collision_free.
  - apply Forall_forall. intros o _. apply agrees_new_cloud.
  - intros o _. apply ref_deserialize_serialize.
Defined.

(** C1 (as stated) fails for a tuple of two tensors of equal norm, stored
    into a new Cloud: both have the record of the norm, the second is not
    written, and the load returns the first tensor twice. *)
Lemma roundtrip_fails_on_equal_norms :
  let v := VTuple [VLeaf (O_Tensor unit_x); VLeaf (O_Tensor unit_y)] in
  let T := TTuple [TensorT; TensorT] in
  type_of_value v = Some T /\
  unit_x <> unit_y /\
  normf unit_x = normf unit_y /\
  loaded_value (load T subworld (fst (store universe v new_cloud))
                  (snd (store universe v new_cloud)))
    = Some (VTuple [VLeaf (O_Tensor unit_x); VLeaf (O_Tensor unit_x)]) /\
  VTuple [VLeaf (O_Tensor unit_x); VLeaf (O_Tensor unit_x)] <> v.
Proof.
  cbv zeta. split; [reflexivity|]. split.
  { intros E.
    apply (f_equal (fun t => match elements t with
                             | x :: _ => PrimFloat.eqb x 1
                             | [] => false
                             end)) in E.
    vm_compute in E. discriminate E. }
  split; [vm_compute; reflexivity|]. split; [vm_compute; reflexivity|].
  intros E.
  apply (f_equal (fun v => match v with
                           | VTuple [_; VLeaf (O_Tensor t)] =>
                               match elements t with
                               | x :: _ => PrimFloat.eqb x 1
                               | [] => false
                               end
                           | _ => false
                           end)) in E.
  vm_compute in E. discriminate E.
Qed.

(** C6 (as stated) fails for a vector of two pointers to implementations:
    only a vector of functions is stored element by element, this one is
    stored as one blob under one record. *)
Lemma vector_of_pointers_is_one_record :
  size (fst (store universe
               (VLeaf (O_vector_impl_ptr [get_impl f1; get_impl f2])) new_cloud))
    = 1%nat /\
  size (fst (store universe
               (VLeaf (O_vector_impl_ptr [get_impl f1; get_impl f2])) new_cloud))
    <> (length [get_impl f1; get_impl f2] + 1)%nat.
Proof. split; [reflexivity | discriminate]. Qed.

(** The scenarios of [test_cloud.cc]: three functions in a vector give four
    records; the tuple of a double, an integer, a function and a pointer
    gives four. *)
Example vector_of_three_functions :
  size (fst (store universe (VLeaf (O_vector_Function [f1; f2; f3])) new_cloud))
    = 4%nat.
Proof. reflexivity. Qed.

Example tuple_of_four :
  let v := VTuple [VLeaf (O_double 1%float); VLeaf (O_int 2); VLeaf (O_Function f1);
                   VLeaf (O_impl_ptr (get_impl f2))] in
  size (fst (store universe v new_cloud)) = 4%nat /\
  loaded_value (load (TTuple [doubleT; intT; FunctionT; impl_ptrT]) subworld
                  (fst (store universe v new_cloud))
                  (snd (store universe v new_cloud))) = Some v.
Proof. cbv zeta. split; vm_compute; reflexivity. Qed.

(** [clear_timings] empties the local list of keys with the counters: a
    store after it writes again what the container already holds. *)
Example store_after_clear_timings :
  let v := VLeaf (O_int 3) in
  let c1 := snd (store universe v new_cloud) in
  container_puts (snd (store universe v c1)) = [compute_record (O_int 3)] /\
  container_puts (snd (store universe v (clear_timings c1)))
    = [compute_record (O_int 3); compute_record (O_int 3)].
Proof. cbv zeta. split; vm_compute; reflexivity. Qed.

(** A function and the pointer to its implementation have the same record
    too: stored together, the pair cannot be loaded. *)
Lemma roundtrip_fails_on_handle_and_pointer :
  let v := VTuple [VLeaf (O_Function f1); VLeaf (O_impl_ptr (get_impl f1))] in
  loaded_value (load (TTuple [FunctionT; impl_ptrT]) subworld
                  (fst (store universe v new_cloud))
                  (snd (store universe v new_cloud))) = None /\
  fst (store universe v new_cloud)
    = [compute_record (O_Function f1); compute_record (O_Function f1)].
Proof. cbv zeta. split; vm_compute; reflexivity. Qed.

Lemma loaded_value_final_state (r : result (value * Cloud)) (v : value) :
  loaded_value r = Some v -> r = Ok (v, final_state r).
Proof. destruct r as [[x c] | e]; cbn; [intros [= ->]; reflexivity | discriminate]. Qed.

(** The integer of [test_cloud.cc], the Cloud after storing it from the
    universe, and the Cloud after loading it into the subworld. *)
Definition three : value := VLeaf (O_int 3).
Definition three_records : recordlistT := fst (store universe three new_cloud).
Definition three_stored : Cloud := snd (store universe three new_cloud).
Definition three_loaded : Cloud :=
  final_state (load (TLeaf intT) subworld three_records three_stored).

Lemma store_skips_known_records_witness :
  fst (store universe three three_stored) = fst (store universe three new_cloud) /\
  container (snd (store universe three three_stored)) = container three_stored /\
  container_puts (snd (store universe three three_stored))
    = container_puts three_stored /\
  cache_stores (snd (store universe three three_stored))
    = Int64.increments 1 (cache_stores three_stored).
Proof.
  assert (Hknown : forall k, k ∈ fst (store universe three three_stored) ->
                             is_in_container k three_stored = true).
  { intros k Hk. rewrite store_fst in Hk.
    cbn [records_of leaves leaves_of_obj three map] in Hk.
    apply list_elem_of_singleton in Hk as ->. vm_compute. reflexivity. }
  destruct (store_skips_known_records universe three three_stored new_cloud Hknown)
    as (H1 & H2 & H3 & _ & _ & H6).
  repeat split; assumption.
Defined.




Lemma forced_load_miss_fails_witness :
  container (set_force_load_from_cache true three_stored) !! compute_record (O_int 3)
    = Some (O_int 3) /\
  load_other intT subworld (compute_record (O_int 3) :: [])
    (set_force_load_from_cache true three_stored) = Err CacheRequiredMiss /\
  load (TLeaf intT) subworld (compute_record (O_int 3) :: [])
    (set_force_load_from_cache true three_stored) = Err CacheRequiredMiss /\
  load (TTuple [intT]) subworld (compute_record (O_int 3) :: [])
    (set_force_load_from_cache true three_stored) = Err CacheRequiredMiss.
Proof.
  split; [vm_compute; reflexivity|].
  apply (forced_load_miss_fails intT [] subworld (compute_record (O_int 3)) []
           (set_force_load_from_cache true three_stored)).
  - reflexivity.
  - vm_compute. reflexivity.
Defined.

Lemma load_repeatable_witness :
  exists c2,
    load_repeatedly 3 (TLeaf intT) subworld three_records three_loaded
      = Ok ([three; three; three], c2) /\
    cached_objects c2 = cached_objects three_loaded /\
    container c2 = container three_loaded.
Proof.
  apply (load_repeatable (TLeaf intT) subworld subworld three_records
           three_stored three_loaded three 3).
  apply loaded_value_final_state. vm_compute. reflexivity.
Defined.

Definition a_tuple_records : recordlistT := fst (store universe a_tuple new_cloud).
Definition a_tuple_stored : Cloud := snd (store universe a_tuple new_cloud).

Lemma pop_front_precondition_witness :
  (length (leaves a_tuple) <= length a_tuple_records)%nat /\
  load a_tuple_type subworld (take 6 a_tuple_records) a_tuple_stored
    = Err EmptyRecordList /\
  loaded_value (load a_tuple_type subworld (take 7 a_tuple_records) a_tuple_stored)
    = Some a_tuple.
Proof.
  assert (Hload : load a_tuple_type subworld a_tuple_records a_tuple_stored
                  = Ok (a_tuple,
                        final_state (load a_tuple_type subworld a_tuple_records
                                       a_tuple_stored))).
  { apply loaded_value_final_state. vm_compute. reflexivity. }
  destruct (pop_front_precondition a_tuple_type subworld a_tuple_records
              a_tuple_stored _ a_tuple intT [] 0%Z [] Hload)
    as (_ & _ & _ & Hlen & Hcut & Hkeep).
  split; [exact Hlen|]. split.
  - apply Hcut. cbn. lia.
  - rewrite Hkeep; [reflexivity | cbn; lia].
Defined.

End Runs.

End CloudProofs.

(** ** Further properties of the Cloud *)

Module CloudExtras.
Import CloudStore CloudProofs.

Ltac bind_inv H :=
  let a := fresh "a" in
  let Ha := fresh "Hrun" in
  apply bind_Ok in H as (a & Ha & H);
  destruct a as [[? ?] ?].

Section Extras.
Context {SUB : Substrate}.

(** *** The loaders, as compositions *)

(** What the loop of [load_madness_function_vector] does with the object
    it has loaded, and what the function does with the length. *)
Definition rest_of_functions (n : nat) (o : cached_objT) : loader (list Function) :=
  match o with
  | O_Function _ => load_functions n
  | _ => fun _ _ _ => Err TypeMismatch
  end.

Definition cons_function (o : cached_objT) (fs : list Function) : option (list Function) :=
  match o with
  | O_Function f => Some (f :: fs)
  | _ => None
  end.

Definition functions_of_length (o : cached_objT) : loader (list Function) :=
  match o with
  | O_size_t sz => load_functions (Z.to_nat sz)
  | _ => fun _ _ _ => Err TypeMismatch
  end.

Definition vector_of_length (o : cached_objT) (fs : list Function) : option cached_objT :=
  match o with
  | O_size_t _ => Some (O_vector_Function fs)
  | _ => None
  end.

Lemma load_functions_eq n world rl c :
  load_functions (S n) world rl c =
    '(o, rl1, c1) ← load_other FunctionT world rl c;
    '(fs, rl2, c2) ← rest_of_functions n o world rl1 c1;
    match cons_function o fs with
    | Some x => Ok (x, rl2, c2)
    | None => Err TypeMismatch
    end.
Proof.
  cbn [load_functions].
  destruct (load_other FunctionT world rl c) as [[[o rl1] c1] | e]; cbn;
    [|reflexivity].
  destruct o;
    first [ reflexivity
          | destruct (load_functions n world rl1 c1) as [[[? ?] ?] | ?];
            reflexivity ].
Qed.

Lemma load_madness_function_vector_eq world rl c :
  load_madness_function_vector world rl c =
    '(o, rl1, c1) ← load_other size_tT world rl c;
    '(fs, rl2, c2) ← functions_of_length o world rl1 c1;
    match vector_of_length o fs with
    | Some x => Ok (x, rl2, c2)
    | None => Err TypeMismatch
    end.
Proof.
  unfold load_madness_function_vector.
  destruct (load_other size_tT world rl c) as [[[o rl1] c1] | e]; cbn;
    [|reflexivity].
  destruct o;
    first [ reflexivity
          | destruct (load_functions (Z.to_nat n) world rl1 c1) as [[[? ?] ?] | ?];
            reflexivity ].
Qed.

Lemma load_tuple_eq T Ts world rl c :
  load_tuple (T :: Ts) world rl c =
    '(o, rl1, c1) ← load_internal T world rl c;
    '(os, rl2, c2) ← load_tuple Ts world rl1 c1;
    match Some (o :: os) with
    | Some x => Ok (x, rl2, c2)
    | None => Err TypeMismatch
    end.
Proof.
  cbn [load_tuple].
  destruct (load_internal T world rl c) as [[[o rl1] c1] | e]; cbn; [|reflexivity].
  destruct (load_tuple Ts world rl1 c1) as [[[os rl2] c2] | e]; reflexivity.
Qed.

(** A property of loaders that holds of [load_other], of a loader that
    returns at once, of one that throws at once, and of the sequence of two
    loaders that have it, holds of every loader of the class. *)
Section LoaderInduction.
Variable P : forall A : Type, (A -> nat) -> loader A -> Prop.
Hypothesis P_other : forall T, P _ (fun _ => 1%nat) (load_other T).
Hypothesis P_ret : forall A (count : A -> nat) (x0 : A),
  count x0 = 0%nat -> P A count (fun _ rl c => Ok (x0, rl, c)).
Hypothesis P_throw : forall A (count : A -> nat) e, P A count (fun _ _ _ => Err e).
Hypothesis P_seq : forall A B C (ca : A -> nat) (cb : B -> nat) (cc : C -> nat)
    (La : loader A) (Lb : A -> loader B) (f : A -> B -> option C),
  P A ca La -> (forall a, P B cb (Lb a)) ->
  (forall a b x, f a b = Some x -> cc x = (ca a + cb b)%nat) ->
  P C cc (fun world rl c =>
            '(a, rl1, c1) ← La world rl c;
            '(b, rl2, c2) ← Lb a world rl1 c1;
            match f a b with Some x => Ok (x, rl2, c2) | None => Err TypeMismatch end).
Hypothesis P_ext : forall A (count : A -> nat) (L L' : loader A),
  (forall world rl c, L world rl c = L' world rl c) -> P A count L -> P A count L'.

Lemma P_load_functions n : P _ (@length Function) (load_functions n).
Proof using P_other P_ret P_throw P_seq P_ext.
  induction n as [| n IH].
  - apply (P_ext _ _ (fun _ rl c => Ok ([], rl, c))); [reflexivity|].
    now apply P_ret.
  - eapply P_ext; [intros; symmetry; apply load_functions_eq|].
    apply (P_seq _ _ _ (fun _ => 1%nat) (@length Function) (@length Function)
             (load_other FunctionT) (rest_of_functions n) cons_function).
    + apply P_other.
    + intros o. destruct o; try apply P_throw. exact IH.
    + intros o fs x. destruct o; try discriminate. intros [= <-]. reflexivity.
Qed.

Lemma P_load_madness_function_vector : P _ count_obj load_madness_function_vector.
Proof using P_other P_ret P_throw P_seq P_ext.
  eapply P_ext; [intros; symmetry; apply load_madness_function_vector_eq|].
  apply (P_seq _ _ _ (fun _ => 1%nat) (@length Function) count_obj
           (load_other size_tT) functions_of_length vector_of_length).
  - apply P_other.
  - intros o. destruct o; try apply P_throw. apply P_load_functions.
  - intros o fs x. destruct o; try discriminate. intros [= <-].
    unfold count_obj. cbn. now rewrite length_map.
Qed.

Lemma P_load_other_counted T :
  T <> vector_FunctionT -> P _ count_obj (load_other T).
Proof using P_other P_ret P_seq P_ext.
  intros HT.
  apply (P_ext _ _ (fun world rl c =>
         '(a, rl1, c1) ← load_other T world rl c;
         '(b, rl2, c2) ← (fun _ rl c => Ok (tt, rl, c)) world rl1 c1;
         match (if decide (count_obj a = 1%nat) then Some a else None) with
         | Some x => Ok (x, rl2, c2)
         | None => Err TypeMismatch
         end)).
  - intros world rl c.
    destruct (load_other T world rl c) as [[[o rl1] c1] | e] eqn:E;
      cbn; [|reflexivity].
    apply load_other_Ok in E as (r & _ & HTo & _).
    destruct o; cbn in HTo; try congruence; reflexivity.
  - apply (P_seq _ _ _ (fun _ => 1%nat) (fun _ : unit => 0%nat) count_obj
             (load_other T) (fun _ _ rl c => Ok (tt, rl, c))
             (fun a _ => if decide (count_obj a = 1%nat) then Some a else None)).
    + apply P_other.
    + intros _. now apply P_ret.
    + intros a b x. destruct (decide (count_obj a = 1%nat)) as [E|];
        [intros [= <-]; lia | discriminate].
Qed.

Lemma P_load_internal T : P _ count_obj (load_internal T).
Proof using P_other P_ret P_throw P_seq P_ext.
  destruct T; cbn [load_internal];
    try apply P_load_madness_function_vector;
    apply P_load_other_counted; discriminate.
Qed.

Lemma P_load_tuple Ts : P _ count_objs (load_tuple Ts).
Proof using P_other P_ret P_throw P_seq P_ext.
  induction Ts as [| T Ts IH].
  - apply (P_ext _ _ (fun _ rl c => Ok ([], rl, c))); [reflexivity|].
    now apply P_ret.
  - eapply P_ext; [intros; symmetry; apply load_tuple_eq|].
    apply (P_seq _ _ _ count_obj count_objs count_objs
             (load_internal T) (fun _ => load_tuple Ts) (fun o os => Some (o :: os))).
    + apply P_load_internal.
    + intros _. exact IH.
    + intros o os x [= <-]. unfold count_objs, count_obj. cbn [flat_map].
      now rewrite length_app.
Qed.

Lemma P_load_dispatch T : P _ (fun v => length (leaves v)) (load_dispatch T).
Proof using P_other P_ret P_throw P_seq P_ext.
  destruct T as [T | Ts].
  - eapply (P_ext _ _ (fun world rl c =>
         '(a, rl1, c1) ← load_internal T world rl c;
         '(b, rl2, c2) ← (fun _ rl c => Ok (tt, rl, c)) world rl1 c1;
         match Some (VLeaf a) with
         | Some x => Ok (x, rl2, c2)
         | None => Err TypeMismatch
         end)).
    + intros world rl c. unfold load_dispatch.
      destruct (load_internal T world rl c) as [[[o rl1] c1] | e]; reflexivity.
    + apply (P_seq _ _ _ count_obj (fun _ : unit => 0%nat) _
               (load_internal T) (fun _ _ rl c => Ok (tt, rl, c))
               (fun a _ => Some (VLeaf a))).
      * apply P_load_internal.
      * intros _. now apply P_ret.
      * intros a b x [= <-]. unfold count_obj. cbn [leaves]. lia.
  - eapply (P_ext _ _ (fun world rl c =>
         '(a, rl1, c1) ← load_tuple Ts world rl c;
         '(b, rl2, c2) ← (fun _ rl c => Ok (tt, rl, c)) world rl1 c1;
         match Some (VTuple (map VLeaf a)) with
         | Some x => Ok (x, rl2, c2)
         | None => Err TypeMismatch
         end)).
    + intros world rl c. unfold load_dispatch.
      destruct (load_tuple Ts world rl c) as [[[o rl1] c1] | e]; reflexivity.
    + apply (P_seq _ _ _ count_objs (fun _ : unit => 0%nat) _
               (load_tuple Ts) (fun _ _ rl c => Ok (tt, rl, c))
               (fun a _ => Some (VTuple (map VLeaf a)))).
      * apply P_load_tuple.
      * intros _. now apply P_ret.
      * intros a b x [= <-]. unfold count_objs. cbn [leaves].
        rewrite leaves_VLeafs. lia.
Qed.

End LoaderInduction.

(** *** What a load reads and what it leaves alone *)

(** The members a load reads. *)
Definition same_view (c c' : Cloud) : Prop :=
  container c = container c' /\
  cached_objects c = cached_objects c' /\
  force_load_from_cache c = force_load_from_cache c'.

Definition agree_res {A} (r r' : result (A * recordlistT * Cloud)) : Prop :=
  match r, r' with
  | Ok (x, rl, c), Ok (x', rl', c') => x = x' /\ rl = rl' /\ same_view c c'
  | Err e, Err e' => e = e'
  | _, _ => False
  end.

Definition view_only (A : Type) (count : A -> nat) (L : loader A) : Prop :=
  forall world rl c c', same_view c c' -> agree_res (L world rl c) (L world rl c').

Lemma same_view_count_cache_read world c c' :
  same_view c c' -> same_view (count_cache_read world c) (count_cache_read world c').
Proof.
  unfold same_view, count_cache_read. destruct (rank world =? 0)%Z; cbn; tauto.
Qed.

Lemma view_only_load_other T : view_only _ (fun _ => 1%nat) (load_other T).
Proof.
  intros world rl c c' Hv. pose proof Hv as (Hc & Hca & Hf).
  unfold load_other. destruct (pop_front_and_return rl) as [[r rl']|]; [|reflexivity].
  unfold is_cached. rewrite <- Hf, <- Hca.
  destruct (bool_decide (is_Some (cached_objects c !! r))).
  - rewrite andb_false_r. unfold load_from_cache.
    destruct (count_cache_read_fields world c) as (_&_&_&_&_&->&_).
    destruct (count_cache_read_fields world c') as (_&_&_&_&_&->&_).
    rewrite <- Hca. destruct (cached_objects c !! r) as [o|]; [|reflexivity].
    destruct (decide (type_of o = T)); cbn; [|reflexivity].
    split; [reflexivity|]. split; [reflexivity|].
    now apply same_view_count_cache_read.
  - rewrite andb_true_r. destruct (force_load_from_cache c) eqn:Hfc; [reflexivity|].
    unfold fetch_record. rewrite <- Hc.
    destruct (container c !! r) as [bytes|]; cbn; [|reflexivity].
    destruct (deserialize world T bytes) as [o|]; [|reflexivity].
    unfold agree_res, same_view. cbn. repeat split; congruence.
Qed.

Lemma view_only_all T : view_only _ (fun v => length (leaves v)) (load_dispatch T).
Proof.
  apply (P_load_dispatch view_only).
  - apply view_only_load_other.
  - intros A count x0 _ world rl c c' Hv. cbn. auto.
  - intros A count e world rl c c' _. reflexivity.
  - intros A B C ca cb cc La Lb f Ha Hb _ world rl c c' Hv.
    specialize (Ha world rl c c' Hv). unfold agree_res in Ha.
    destruct (La world rl c) as [[[a rl1] c1] | e],
             (La world rl c') as [[[a' rl1'] c1'] | e']; cbn;
      try contradiction; [|exact Ha].
    destruct Ha as (<- & <- & Hv1).
    specialize (Hb a world rl1 c1 c1' Hv1). unfold agree_res in Hb.
    destruct (Lb a world rl1 c1) as [[[b rl2] c2] | e],
             (Lb a world rl1 c1') as [[[b' rl2'] c2'] | e']; cbn;
      try contradiction; [|exact Hb].
    destruct Hb as (<- & <- & Hv2).
    destruct (f a b); cbn; auto.
  - intros A count L L' Hext HL world rl c c' Hv. rewrite <- !Hext. now apply HL.
Qed.

(** [load] reads the container, the cache and [force_load_from_cache], and
    nothing else of the Cloud. *)
Lemma load_view T world rl c c' :
  same_view c c' ->
  match load T world rl c, load T world rl c' with
  | Ok (x, c1), Ok (x', c1') => x = x' /\ same_view c1 c1'
  | Err e, Err e' => e = e'
  | _, _ => False
  end.
Proof.
  intros Hv. rewrite !load_dispatch_eq.
  pose proof (view_only_all T world rl c c' Hv) as H. unfold agree_res in H.
  destruct (load_dispatch T world rl c) as [[[x rl1] c1] | e],
           (load_dispatch T world rl c') as [[[x' rl1'] c1'] | e']; cbn;
    try contradiction; [|exact H].
  destruct H as (<- & _ & Hv1). split; [reflexivity|].
  revert Hv1. unfold same_view, loadtimer. destruct (rank world =? 0)%Z; cbn; tauto.
Qed.

(** The members a load leaves alone. *)
Definition load_frame (c c1 : Cloud) : Prop :=
  debug c1 = debug c /\ dofence c1 = dofence c /\
  force_load_from_cache c1 = force_load_from_cache c /\
  container c1 = container c /\ container_puts c1 = container_puts c /\
  local_list_of_container_keys c1 = local_list_of_container_keys c /\
  writing_time c1 = writing_time c /\ cache_stores c1 = cache_stores c.

Definition keeps_frame (A : Type) (count : A -> nat) (L : loader A) : Prop :=
  forall world rl c x rl' c1, L world rl c = Ok (x, rl', c1) -> load_frame c c1.

Lemma load_frame_refl c : load_frame c c.
Proof. repeat split. Qed.

Lemma load_frame_trans c c1 c2 : load_frame c c1 -> load_frame c1 c2 -> load_frame c c2.
Proof. unfold load_frame. intuition congruence. Qed.

Lemma load_frame_count_cache_read world c : load_frame c (count_cache_read world c).
Proof.
  unfold load_frame, count_cache_read. destruct (rank world =? 0)%Z; cbn; tauto.
Qed.

Lemma load_frame_loadtimer world c : load_frame c (loadtimer world c).
Proof.
  unfold load_frame, loadtimer. destruct (rank world =? 0)%Z; cbn; tauto.
Qed.

Lemma keeps_frame_all T : keeps_frame _ (fun v => length (leaves v)) (load_dispatch T).
Proof.
  apply (P_load_dispatch keeps_frame).
  - intros T' world rl c o rl' c1 H.
    apply load_other_Ok in H as (r & _ & _ & [[_ ->] | (_ & _ & -> & _)]).
    + apply load_frame_count_cache_read.
    + repeat split.
  - intros A count x0 _ world rl c x rl' c1 [= _ _ <-]. apply load_frame_refl.
  - intros A count e world rl c x rl' c1 H. discriminate H.
  - intros A B C ca cb cc La Lb f Ha Hb _ world rl c x rl' c2 H.
    bind_inv H. bind_inv H. destruct (f a b); [|discriminate].
    injection H as _ _ <-.
    eapply load_frame_trans; [eapply Ha | eapply Hb]; eassumption.
  - intros A count L L' Hext HL world rl c x rl' c1 H. rewrite <- Hext in H.
    eapply HL; eassumption.
Qed.

Lemma load_keeps_frame T world rl c x c1 :
  load T world rl c = Ok (x, c1) -> load_frame c c1.
Proof.
  rewrite load_dispatch_eq. intros H. bind_inv H. injection H as _ <-.
  eapply load_frame_trans; [eapply keeps_frame_all; eassumption|].
  apply load_frame_loadtimer.
Qed.

(** *** clear_cache *)

(** X1.  After [clear_cache] the cache and the local list of keys are
    empty and the container is as it was: a load that must come from the
    cache throws at its first record, and a load that was first served from
    an empty cache returns the same value again and leaves the same
    cache. *)
Theorem clear_cache_then_load (world world' : World) (T : ty) (rl : recordlistT)
    (c c1 : Cloud) (x : value) (T0 : leafT) (r0 : keyT) (rl0 : recordlistT) :
  cached_objects c = ∅ ->
  load T world rl c = Ok (x, c1) ->
  (forall k, is_cached k (clear_cache world' c1) = false /\
             is_in_container k (clear_cache world' c1) = false) /\
  container (clear_cache world' c1) = container c1 /\
  load (TLeaf T0) world (r0 :: rl0)
    (set_force_load_from_cache true (clear_cache world' c1)) = Err CacheRequiredMiss /\
  exists c2,
    load T world rl (clear_cache world' c1) = Ok (x, c2) /\
    cached_objects c2 = cached_objects c1.
Proof.
  intros Hempty H. split; [|split; [reflexivity|split]].
  - intros k. split.
    + apply is_cached_false. cbn. apply lookup_empty.
    + unfold is_in_container. cbn. apply bool_decide_eq_false_2. intros Hk. inversion Hk.
  - unfold load. rewrite load_internal_first_miss_forced; [reflexivity|reflexivity|].
    apply is_cached_false. cbn. apply lookup_empty.
  - destruct (load_keeps_frame _ _ _ _ _ _ H) as (_&_&Hf&Hc&_).
    assert (Hv : same_view c (clear_cache world' c1)).
    { unfold same_view. cbn. rewrite Hc, Hf, Hempty. auto. }
    pose proof (load_view T world rl _ _ Hv) as Hm. rewrite H in Hm.
    destruct (load T world rl (clear_cache world' c1)) as [[x' c2] | e];
      [|contradiction].
    destruct Hm as (<- & _ & Hca & _). eauto.
Qed.

(** *** States the operations can reach *)

(** The Clouds that the public operations produce from a new one (a load
    that throws is left out: what it has done to the cache by then is not
    followed). *)
Inductive reachable : Cloud -> Prop :=
| reach_new : reachable new_cloud
| reach_store world v c : reachable c -> reachable (snd (store world v c))
| reach_load T world rl c x c1 :
    reachable c -> load T world rl c = Ok (x, c1) -> reachable c1
| reach_clear_cache world c : reachable c -> reachable (clear_cache world c)
| reach_clear_timings c : reachable c -> reachable (clear_timings c)
| reach_set_debug b c : reachable c -> reachable (set_debug b c)
| reach_set_fence b c : reachable c -> reachable (set_fence b c)
| reach_set_force b c : reachable c -> reachable (set_force_load_from_cache b c).

(** No key is twice in the local list; every key of the list and every
    cached record has a blob in the container; the container holds exactly
    the records that were written. *)
Definition consistent (c : Cloud) : Prop :=
  NoDup (local_list_of_container_keys c) /\
  (forall k, k ∈ local_list_of_container_keys c -> is_Some (container c !! k)) /\
  (forall k, is_Some (cached_objects c !! k) -> is_Some (container c !! k)) /\
  (forall k, is_Some (container c !! k) <-> k ∈ container_puts c).

Lemma consistent_teq c c' : teq c c' -> consistent c -> consistent c'.
Proof.
  intros H. pose proof (teq_fields _ _ H) as (_&_&_&Hc&Hp&Hca&Hl&_).
  unfold consistent. now rewrite Hc, Hp, Hca, Hl.
Qed.

Lemma consistent_store_other_generic world o c :
  consistent c -> consistent (snd (store_other_generic world o c)).
Proof.
  intros (Hnd & Hl & Hca & Hp).
  pose proof (store_other_generic_snd world o c) as Hstep. cbv zeta in Hstep.
  destruct Hstep as (_ & _ & _ & Hcache & _ & _ & _ & Hcase).
  set (c1 := snd (store_other_generic world o c)) in *.
  unfold is_in_container in Hcase. unfold consistent.
  destruct (bool_decide_reflect (compute_record o ∈ local_list_of_container_keys c))
    as [Hin | Hnin].
  - destruct Hcase as (-> & -> & -> & _). rewrite Hcache. auto.
  - destruct Hcase as (-> & -> & -> & _). rewrite Hcache.
    split; [|split; [|split]].
    + apply NoDup_app. split; [assumption|]. split.
      * intros k Hk Hk'. apply list_elem_of_singleton in Hk' as ->. contradiction.
      * apply NoDup_singleton.
    + intros k Hk. apply elem_of_app in Hk as [Hk | Hk].
      * destruct (decide (compute_record o = k)) as [-> | N].
        -- rewrite lookup_insert_eq. eauto.
        -- rewrite lookup_insert_ne by assumption. auto.
      * apply list_elem_of_singleton in Hk as ->. rewrite lookup_insert_eq. eauto.
    + intros k Hk. destruct (decide (compute_record o = k)) as [-> | N].
      * rewrite lookup_insert_eq. eauto.
      * rewrite lookup_insert_ne by assumption. auto.
    + intros k. rewrite elem_of_app, list_elem_of_singleton, <- Hp.
      destruct (decide (compute_record o = k)) as [-> | N].
      * rewrite lookup_insert_eq. split; eauto.
      * rewrite lookup_insert_ne by assumption. split; [tauto|].
        intros [? | ->]; [assumption | contradiction].
Qed.

Lemma consistent_store_leaves world os c :
  consistent c -> consistent (store_leaves world os c).
Proof.
  revert c. induction os as [| o os IH]; intros c H; [exact H|].
  apply IH. now apply consistent_store_other_generic.
Qed.

Lemma consistent_store world v c : consistent c -> consistent (snd (store world v c)).
Proof.
  intros H. eapply consistent_teq.
  - unfold teq. symmetry. apply store_snd.
  - now apply consistent_store_leaves.
Qed.

Definition keeps_consistent (A : Type) (count : A -> nat) (L : loader A) : Prop :=
  forall world rl c x rl' c1,
    L world rl c = Ok (x, rl', c1) -> consistent c -> consistent c1.

Lemma keeps_consistent_all T :
  keeps_consistent _ (fun v => length (leaves v)) (load_dispatch T).
Proof.
  apply (P_load_dispatch keeps_consistent).
  - intros T' world rl c o rl' c1 H (Hnd & Hl & Hca & Hp).
    apply load_other_Ok in H as (r & _ & _ & [[_ ->] | (_ & _ & -> & bytes & Hb & _)]).
    + unfold consistent, count_cache_read. destruct (rank world =? 0)%Z; cbn; auto.
    + unfold consistent. cbn. repeat split; auto; try apply Hp.
      intros k Hk. destruct (decide (r = k)) as [<- | N]; [eauto|].
      rewrite lookup_insert_ne in Hk by assumption. auto.
  - intros A count x0 _ world rl c x rl' c1 [= _ _ <-]. auto.
  - intros A count e world rl c x rl' c1 H. discriminate H.
  - intros A B C ca cb cc La Lb f Ha Hb _ world rl c x rl' c2 H Hc.
    bind_inv H. bind_inv H. destruct (f a b); [|discriminate].
    injection H as _ _ <-. eapply Hb; [eassumption|]. eapply Ha; eassumption.
  - intros A count L L' Hext HL world rl c x rl' c1 H. rewrite <- Hext in H.
    eapply HL; eassumption.
Qed.

Lemma consistent_load T world rl c x c1 :
  load T world rl c = Ok (x, c1) -> consistent c -> consistent c1.
Proof.
  rewrite load_dispatch_eq. intros H Hc. bind_inv H. injection H as _ <-.
  pose proof (keeps_consistent_all T _ _ _ _ _ _ Hrun Hc) as H1.
  revert H1. unfold consistent, loadtimer. destruct (rank world =? 0)%Z; cbn; auto.
Qed.

Lemma stored_records_in_list world v c k :
  k ∈ fst (store world v c) ->
  k ∈ local_list_of_container_keys (snd (store world v c)).
Proof.
  rewrite store_fst. intros Hk.
  pose proof (teq_fields _ _ (store_snd world v c)) as (_&_&_&_&_&_&->&_).
  pose proof (store_leaves_snd world (leaves v) c) as H. cbv zeta in H.
  destruct H as (_&_&_&_&_&_&->&_). rewrite elem_of_app.
  destruct (decide (k ∈ local_list_of_container_keys c)); [now left | right].
  apply fresh_records_elem. auto.
Qed.

(** X2.  In every Cloud that the operations reach from a new one, the local
    list of keys has no key twice, every key of the list and every cached
    record has a blob in the container, and the container holds exactly the
    records that were written; so every record that a [store] returns is
    then in the list and has a blob in the container. *)
Theorem reachable_consistent (c : Cloud) (world : World) (v : value) (k : keyT) :
  reachable c ->
  consistent c /\
  (k ∈ fst (store world v c) ->
   is_in_container k (snd (store world v c)) = true /\
   is_Some (container (snd (store world v c)) !! k)).
Proof.
  intros Hr.
  assert (Hc : consistent c).
  { induction Hr.
    - unfold consistent. cbn. split; [constructor|]. split; [|split].
      + intros k0 Hk. inversion Hk.
      + intros k0 [? Hk]. rewrite lookup_empty in Hk. discriminate.
      + intros k0. rewrite lookup_empty. split.
        * intros [? Hk]. discriminate.
        * intros Hk. inversion Hk.
    - now apply consistent_store.
    - eapply consistent_load; eassumption.
    - destruct IHHr as (_ & _ & _ & Hp). unfold consistent. cbn.
      split; [constructor|]. split; [|split].
      + intros k0 Hk. inversion Hk.
      + intros k0 [? Hk]. rewrite lookup_empty in Hk. discriminate.
      + exact Hp.
    - destruct IHHr as (_ & _ & Hca & Hp). unfold consistent. cbn.
      split; [constructor|]. split; [|split].
      + intros k0 Hk. inversion Hk.
      + exact Hca.
      + exact Hp.
    - exact IHHr.
    - exact IHHr.
    - exact IHHr. }
  split; [exact Hc|]. intros Hk.
  apply stored_records_in_list in Hk. split.
  - unfold is_in_container. now apply bool_decide_eq_true_2.
  - pose proof (consistent_store world v c Hc) as (_ & Hl & _). now apply Hl.
Qed.

(** *** What a load writes *)

(** Every object in the cache after the run was there before it, or is what
    the blob of its record in the container deserialises to. *)
Definition fills_from_container (A : Type) (count : A -> nat) (L : loader A) : Prop :=
  forall world rl c x rl' c1,
    L world rl c = Ok (x, rl', c1) ->
    load_frame c c1 /\
    forall k o, cached_objects c1 !! k = Some o ->
      cached_objects c !! k = Some o \/
      exists bytes, container c !! k = Some bytes /\
                    deserialize world (type_of o) bytes = Some o.

Lemma fills_from_container_all T :
  fills_from_container _ (fun v => length (leaves v)) (load_dispatch T).
Proof.
  apply (P_load_dispatch fills_from_container).
  - intros T' world rl c o rl' c1 H.
    apply load_other_Ok in H as (r & _ & HT & [[_ ->] | (_ & _ & -> & bytes & Hb & Hd)]).
    + split; [apply load_frame_count_cache_read|].
      destruct (count_cache_read_fields world c) as (_&_&_&_&_&->&_). auto.
    + split; [repeat split|]. cbn. intros k o'.
      destruct (decide (r = k)) as [<- | N].
      * rewrite lookup_insert_eq. intros [= <-]. right. exists bytes. now rewrite HT.
      * rewrite lookup_insert_ne by assumption. auto.
  - intros A count x0 _ world rl c x rl' c1 [= _ _ <-].
    split; [apply load_frame_refl | auto].
  - intros A count e world rl c x rl' c1 H. discriminate H.
  - intros A B C ca cb cc La Lb f Ha Hb _ world rl c x rl' c2 H.
    bind_inv H. bind_inv H. destruct (f a b); [|discriminate].
    injection H as _ _ <-.
    destruct (Ha _ _ _ _ _ _ Hrun) as (Hf1 & H1).
    destruct (Hb _ _ _ _ _ _ _ Hrun0) as (Hf2 & H2).
    split; [eapply load_frame_trans; eassumption|].
    intros k o Hk. destruct (H2 k o Hk) as [Hk1 | (bytes & Hbytes & Hd)].
    + auto.
    + right. exists bytes. destruct Hf1 as (_&_&_&Hco&_). now rewrite <- Hco.
  - intros A count L L' Hext HL world rl c x rl' c1 H. rewrite <- Hext in H.
    eapply HL; eassumption.
Qed.

(** X3.  A load that returns writes nothing but the cache and the two read
    counters: the container, the record of what was written, the local list
    of keys, the three flags, the writing time and the count of elided
    stores are as before; the cache keeps what it held, and every object it
    holds in addition is what the blob of its record in the container
    deserialises to, in the world of the load. *)
Theorem load_writes_cache_only (T : ty) (world : World) (rl : recordlistT)
    (c c1 : Cloud) (x : value) :
  load T world rl c = Ok (x, c1) ->
  load_frame c c1 /\
  cached_objects c ⊆ cached_objects c1 /\
  forall k o, cached_objects c1 !! k = Some o ->
    cached_objects c !! k = Some o \/
    exists bytes, container c !! k = Some bytes /\
                  deserialize world (type_of o) bytes = Some o.
Proof.
  intros H. split; [eapply load_keeps_frame; eassumption|]. split.
  - now destruct (load_run _ _ _ _ _ _ H) as (Hsub & _).
  - rewrite load_dispatch_eq in H. bind_inv H. injection H as _ <-.
    destruct (fills_from_container_all T _ _ _ _ _ _ Hrun) as (_ & Hk).
    destruct (loadtimer_fields world c0) as (_&_&_&->&_). exact Hk.
Qed.

(** *** What a store writes *)

Lemma store_leaves_container world os c k :
  is_Some (container c !! k) -> is_Some (container (store_leaves world os c) !! k).
Proof.
  revert c. induction os as [| o os IH]; intros c H; [exact H|].
  apply IH. pose proof (store_other_generic_snd world o c) as Hs. cbv zeta in Hs.
  destruct Hs as (_&_&_&_&_&_&_&Hcase).
  destruct (is_in_container (compute_record o) c).
  - destruct Hcase as (-> & _). exact H.
  - destruct Hcase as (-> & _).
    destruct (decide (compute_record o = k)) as [-> | N].
    + rewrite lookup_insert_eq. eauto.
    + now rewrite lookup_insert_ne.
Qed.

(** X4.  A store never touches the cache, the three flags or the count of
    cache reads, and it removes no record from the container: a store
    cannot turn a later load into a cache hit or a miss, and cannot make a
    record unloadable. *)
Theorem store_keeps_cache (world : World) (v : value) (c : Cloud) :
  let c' := snd (store world v c) in
  cached_objects c' = cached_objects c /\
  force_load_from_cache c' = force_load_from_cache c /\
  debug c' = debug c /\ dofence c' = dofence c /\
  cache_reads c' = cache_reads c /\
  (forall k, is_cached k c' = is_cached k c) /\
  (forall k, is_Some (container c !! k) -> is_Some (container c' !! k)).
Proof.
  cbv zeta.
  pose proof (teq_fields _ _ (store_snd world v c)) as (Hd&Hf&Hfo&Hco&_&Hca&_&Hr&_).
  pose proof (store_leaves_snd world (leaves v) c) as Hs. cbv zeta in Hs.
  destruct Hs as (Hd'&Hf'&Hfo'&Hca'&Hr'&_).
  assert (E : cached_objects (snd (store world v c)) = cached_objects c) by congruence.
  repeat split; try congruence.
  - intros k. unfold is_cached. now rewrite E.
  - intros k Hk. rewrite Hco. now apply store_leaves_container.
Qed.

(** *** Loads served from the cache *)

(** [n] hits of the cache. *)
Definition reads (n : nat) (world : World) (c : Cloud) : Cloud :=
  Nat.iter n (count_cache_read world) c.

Lemma reads_fields n world c :
  load_frame c (reads n world c) /\
  cached_objects (reads n world c) = cached_objects c /\
  reading_time (reads n world c) = reading_time c /\
  measurements (reads n world c) = measurements c /\
  cache_reads (reads n world c) =
    Int64.increments (if (rank world =? 0)%Z then n else 0) (cache_reads c).
Proof.
  induction n as [| n (Hf & Hc & Ht & Hm & Hr)].
  - cbn. split; [apply load_frame_refl|]. repeat split.
    destruct (rank world =? 0)%Z; reflexivity.
  - unfold reads in *. rewrite !Nat.iter_succ. split; [|split; [|split; [|split]]].
    + eapply load_frame_trans; [exact Hf | apply load_frame_count_cache_read].
    + destruct (count_cache_read_fields world (Nat.iter n (count_cache_read world) c))
        as (_&_&_&_&_&E&_). cbv zeta in E. now rewrite E.
    + rewrite <- Ht. unfold count_cache_read. now destruct (rank world =? 0)%Z.
    + rewrite <- Hm. unfold count_cache_read. now destruct (rank world =? 0)%Z.
    + unfold count_cache_read at 1. destruct (rank world =? 0)%Z eqn:E; cbn.
      * rewrite Hr. reflexivity.
      * rewrite Hr. reflexivity.
Qed.

Lemma reads_add n m world c : reads (n + m) world c = reads m world (reads n world c).
Proof. unfold reads. rewrite Nat.add_comm. apply Nat.iter_add. Qed.

(** Once a run has returned, the same run on any Cloud that caches what the
    first left returns the same, and its only effect is one hit of the
    cache for each record. *)
Definition served_from_cache (A : Type) (count : A -> nat) (L : loader A) : Prop :=
  forall world rl c x rl' c1,
    L world rl c = Ok (x, rl', c1) ->
    cached_objects c ⊆ cached_objects c1 /\
    forall world' c', cached_objects c1 ⊆ cached_objects c' ->
      L world' rl c' = Ok (x, rl', reads (count x) world' c').

Lemma served_from_cache_all T :
  served_from_cache _ (fun v => length (leaves v)) (load_dispatch T).
Proof.
  apply (P_load_dispatch served_from_cache).
  - intros T' world rl c o rl' c1 H.
    apply load_other_cache in H as (Hsub & r & -> & HT & Hr). split; [exact Hsub|].
    intros world' c' Hsub'. apply load_other_hit; [|exact HT].
    eapply lookup_weaken; eassumption.
  - intros A count x0 H0 world rl c x rl' c1 [= <- <- <-]. split; [reflexivity|].
    intros world' c' _. now rewrite H0.
  - intros A count e world rl c x rl' c1 H. discriminate H.
  - intros A B C ca cb cc La Lb f Ha Hb Hcc world rl c x rl' c2 H.
    bind_inv H. bind_inv H. destruct (f a b) as [y|] eqn:Ef; [|discriminate].
    injection H as <- <- <-.
    destruct (Ha _ _ _ _ _ _ Hrun) as (S1 & R1).
    destruct (Hb _ _ _ _ _ _ _ Hrun0) as (S2 & R2).
    split; [etrans; eassumption|].
    intros world' c' Hsub.
    rewrite (R1 world' c') by (etrans; eassumption). cbn.
    rewrite (R2 world' (reads (ca a) world' c')).
    + cbn. rewrite Ef. rewrite (Hcc _ _ _ Ef), reads_add. reflexivity.
    + destruct (reads_fields (ca a) world' c') as (_ & -> & _). exact Hsub.
  - intros A count L L' Hext HL world rl c x rl' c1 H. rewrite <- Hext in H.
    destruct (HL _ _ _ _ _ _ H) as (S1 & R1). split; [exact S1|].
    intros world' c' Hsub. rewrite <- Hext. now apply R1.
Qed.

(** X5.  A load of a record list that has been loaded before is served
    from the cache alone, in any world: it returns the same value, and of
    the Cloud it changes the two read counters only; on rank 0
    [cache_reads] is incremented once for each record of the value and the
    time that the timer of this load measures is added to the reading
    time, both as 64-bit values that wrap around; on the other ranks
    nothing changes at all. *)
Theorem cached_load_counts (T : ty) (world world' : World) (rl : recordlistT)
    (c c1 : Cloud) (x : value) :
  load T world rl c = Ok (x, c1) ->
  exists c2,
    load T world' rl c1 = Ok (x, c2) /\
    load_frame c1 c2 /\
    cached_objects c2 = cached_objects c1 /\
    cache_reads c2 =
      Int64.increments
        (if (rank world' =? 0)%Z then length (leaves x) else 0) (cache_reads c1) /\
    reading_time c2 =
      (if (rank world' =? 0)%Z
       then Int64.add (reading_time c1) (elapsed_ms (measurements c1))
       else reading_time c1) /\
    ((rank world' =? 0)%Z = false -> c2 = c1).
Proof.
  intros H. rewrite load_dispatch_eq in H. bind_inv H. injection H as <- <-.
  destruct (served_from_cache_all T _ _ _ _ _ _ Hrun) as (_ & R).
  destruct (loadtimer_fields world c0) as (_&_&_&Hc0&_).
  specialize (R world' (loadtimer world c0)). rewrite Hc0 in R.
  specialize (R (reflexivity _)).
  set (n := length (leaves v)) in *.
  exists (loadtimer world' (reads n world' (loadtimer world c0))).
  rewrite load_dispatch_eq, R. cbn.
  destruct (reads_fields n world' (loadtimer world c0)) as (Hf & Hca & Ht & Hm & Hr).
  split; [reflexivity|]. split; [|split; [|split; [|split]]].
  - eapply load_frame_trans; [exact Hf | apply load_frame_loadtimer].
  - destruct (loadtimer_fields world' (reads n world' (loadtimer world c0)))
      as (_&_&_&->&_). exact Hca.
  - rewrite <- Hr. unfold loadtimer at 1. now destruct (rank world' =? 0)%Z.
  - rewrite <- Ht, <- Hm. unfold loadtimer at 1.
    now destruct (rank world' =? 0)%Z.
  - intros E. unfold loadtimer at 1. rewrite E. unfold reads.
    clear -E. induction n as [| n IH]; [reflexivity|]. rewrite Nat.iter_succ.
    rewrite IH. unfold count_cache_read. now rewrite E.
Qed.

(** *** One record, two types *)

Lemma load_pair_same_record (T1 T2 : leafT) world r rl c x c1 :
  T1 <> T2 -> T1 <> vector_FunctionT -> T2 <> vector_FunctionT ->
  load (TTuple [T1; T2]) world (r :: r :: rl) c <> Ok (x, c1).
Proof.
  intros Hne H1 H2 H. unfold load in H. cbn [load_tuple] in H.
  rewrite (load_internal_other T1) in H by assumption.
  apply bind_Ok in H as ([[os rl'] c'] & H & _).
  bind_inv H.
  apply load_other_cache in Hrun as (_ & r' & [= <- <-] & HT & Hr).
  rewrite (load_internal_other T2) in H by assumption.
  unfold load_other in H. cbn [pop_front_and_return] in H.
  assert (Hic : is_cached r c2 = true) by (apply is_cached_true; eauto).
  rewrite Hic, andb_false_r in H. unfold load_from_cache in H.
  destruct (count_cache_read_fields world c2) as (_&_&_&_&_&Hco&_).
  cbv zeta in Hco. rewrite Hco, Hr in H.
  rewrite decide_False in H by congruence. discriminate H.
Qed.

(** X6.  A record is cached under one type: a load of two members of
    different types from a list that names the same record twice never
    returns, whatever the Cloud holds.  A [Function] and the pointer to
    its implementation have the same record, so the record list that
    [store] returns for the pair of them cannot be loaded as that pair, in
    any world and from any Cloud. *)
Theorem same_record_two_types (T1 T2 : leafT) (world : World) (r : keyT)
    (rl : recordlistT) (c : Cloud) :
  T1 <> T2 -> T1 <> vector_FunctionT -> T2 <> vector_FunctionT ->
  (forall x c1, load (TTuple [T1; T2]) world (r :: r :: rl) c <> Ok (x, c1)) /\
  (forall (f : Function) (world0 : World) (c0 : Cloud) x c1,
     load (TTuple [FunctionT; impl_ptrT]) world
       (fst (store world0
               (VTuple [VLeaf (O_Function f); VLeaf (O_impl_ptr (get_impl f))]) c0)) c
     <> Ok (x, c1)).
Proof.
  intros Hne H1 H2. split.
  - intros x c1. now apply load_pair_same_record.
  - intros f world0 c0 x c1. rewrite store_fst.
    change (records_of (VTuple [VLeaf (O_Function f); VLeaf (O_impl_ptr (get_impl f))]))
      with [compute_record (O_Function f); compute_record (O_Function f)].
    apply load_pair_same_record; discriminate.
Qed.

(** *** Stores of equal records *)

Lemma store_leaf_state world o c :
  type_of o <> vector_FunctionT ->
  teq (snd (store world (VLeaf o) c)) (snd (store_other_generic world o c)).
Proof.
  intros HT. pose proof (store_snd world (VLeaf o) c) as H.
  destruct o; try exact H. now contradiction HT.
Qed.

(** X7.  The container is keyed by the record alone.  When two objects
    have the same record and the first is stored where the record is not
    yet in the local list, a later store of the second, from any world,
    returns the same record list and writes nothing: the blob under the
    record is still that of the first object. *)
Theorem first_store_wins (world world' : World) (o1 o2 : cached_objT) (c : Cloud) :
  compute_record o1 = compute_record o2 ->
  type_of o1 <> vector_FunctionT -> type_of o2 <> vector_FunctionT ->
  is_in_container (compute_record o1) c = false ->
  let c1 := snd (store world (VLeaf o1) c) in
  let c2 := snd (store world' (VLeaf o2) c1) in
  fst (store world' (VLeaf o2) c1) = fst (store world (VLeaf o1) c) /\
  container c2 = container c1 /\
  container_puts c2 = container_puts c1 /\
  container c2 !! compute_record o2 = Some (serialize o1).
Proof.
  intros Hr H1 H2 Hnew. cbv zeta.
  set (c1 := snd (store world (VLeaf o1) c)).
  pose proof (teq_fields _ _ (store_leaf_state world o1 c H1))
    as (_&_&_&Hco1&Hp1&_&Hl1&_).
  pose proof (store_other_generic_snd world o1 c) as S1. cbv zeta in S1.
  destruct S1 as (_&_&_&_&_&_&_&S1). rewrite Hnew in S1.
  destruct S1 as (Hc & Hp & Hl & _).
  fold c1 in Hco1, Hp1, Hl1.
  assert (Hin : is_in_container (compute_record o2) c1 = true).
  { unfold is_in_container. apply bool_decide_eq_true_2.
    rewrite Hl1, Hl, <- Hr, elem_of_app, list_elem_of_singleton. now right. }
  pose proof (teq_fields _ _ (store_leaf_state world' o2 c1 H2))
    as (_&_&_&Hco2&Hp2&_).
  pose proof (store_other_generic_snd world' o2 c1) as S2. cbv zeta in S2.
  destruct S2 as (_&_&_&_&_&_&_&S2). rewrite Hin in S2.
  destruct S2 as (Hc' & Hp' & _).
  split; [|split; [|split]].
  - rewrite !store_fst. unfold records_of. cbn [leaves].
    destruct o1; try (now contradiction H1);
      destruct o2; try (now contradiction H2); cbn [leaves_of_obj map]; now rewrite Hr.
  - congruence.
  - congruence.
  - rewrite Hco2, Hc', Hco1, Hc, <- Hr. apply lookup_insert_eq.
Qed.

(** *** Composition of stores and of loads *)

Lemma store_state_of_leaves world v v' c c' :
  leaves v = leaves v' -> teq c c' ->
  teq (snd (store world v c)) (snd (store world v' c')).
Proof.
  intros Hl Hc. eapply teq_trans; [apply store_snd|].
  eapply teq_trans; [|symmetry; apply store_snd].
  rewrite Hl. now apply store_leaves_teq.
Qed.

(** X8.  [store] sees a value as the sequence of its leaves: two values
    with the same leaves, however they are nested in tuples, give the same
    record list and the same Cloud up to the time counters. *)
Theorem store_same_leaves (world : World) (v v' : value) (c : Cloud) :
  leaves v = leaves v' ->
  fst (store world v c) = fst (store world v' c) /\
  untimed (snd (store world v c)) = untimed (snd (store world v' c)).
Proof.
  intros Hl. split.
  - rewrite !store_fst. unfold records_of. now rewrite Hl.
  - apply store_state_of_leaves; [exact Hl | apply teq_refl].
Qed.

(** X9.  Storing a tuple is storing its members one after the other: the
    store of the concatenation of two tuples returns the record list of the
    first followed by that of the second stored after it, and leaves the
    Cloud of the two stores up to the time counters. *)
Theorem store_tuple_app (world : World) (ms1 ms2 : list value) (c : Cloud) :
  let r1 := store world (VTuple ms1) c in
  let r2 := store world (VTuple ms2) (snd r1) in
  fst (store world (VTuple (ms1 ++ ms2)) c) = fst r1 ++ fst r2 /\
  untimed (snd (store world (VTuple (ms1 ++ ms2)) c)) = untimed (snd r2).
Proof.
  cbv zeta. split.
  - rewrite !store_fst. unfold records_of. cbn [leaves].
    now rewrite flat_map_app, map_app.
  - change (teq (snd (store world (VTuple (ms1 ++ ms2)) c))
                (snd (store world (VTuple ms2) (snd (store world (VTuple ms1) c))))).
    eapply teq_trans; [apply store_snd|].
    eapply teq_trans; [|symmetry; apply store_snd].
    cbn [leaves]. rewrite flat_map_app, store_leaves_app.
    apply store_leaves_teq. symmetry. apply (store_snd world (VTuple ms1) c).
Qed.

(** X10.  [load_tuple] assigns the members from left to right out of one
    record list: loading the members [Ts1 ++ Ts2] is loading [Ts1] and then
    [Ts2] from the records and the Cloud that the first load leaves; it
    throws what the first of the two throws. *)
Theorem load_tuple_app (Ts1 Ts2 : list leafT) (world : World) (rl : recordlistT)
    (c : Cloud) :
  load_tuple (Ts1 ++ Ts2) world rl c =
    '(os1, rl1, c1) ← load_tuple Ts1 world rl c;
    '(os2, rl2, c2) ← load_tuple Ts2 world rl1 c1;
    mret (os1 ++ os2, rl2, c2).
Proof.
  revert rl c. induction Ts1 as [| T Ts1 IH]; intros rl c; cbn [app load_tuple].
  - cbn. destruct (load_tuple Ts2 world rl c) as [[[os2 rl2] c2] | e]; reflexivity.
  - destruct (load_internal T world rl c) as [[[o rl1] c1] | e]; [|reflexivity].
    cbn. rewrite IH.
    destruct (load_tuple Ts1 world rl1 c1) as [[[os1 rl2] c2] | e]; [|reflexivity].
    cbn. destruct (load_tuple Ts2 world rl2 c2) as [[[os2 rl3] c3] | e]; reflexivity.
Qed.

(** *** Accounting *)

(** X11.  Every record that a store returns is accounted for once: it was
    written, and its key appended to the local list, or it was elided, and
    on rank 0 [cache_stores], a 64-bit counter that wraps around, was
    incremented for it; on the other ranks [cache_stores] does not move. *)
Theorem store_accounting (world : World) (v : value) (c : Cloud) :
  let c' := snd (store world v c) in
  let written :=
    (length (local_list_of_container_keys c') - length (local_list_of_container_keys c))%nat in
  (written <= length (fst (store world v c)))%nat /\
  length (container_puts c') = (length (container_puts c) + written)%nat /\
  cache_stores c' =
    Int64.increments
      (if (rank world =? 0)%Z then length (fst (store world v c)) - written else 0)
      (cache_stores c).
Proof.
  cbv zeta. rewrite store_fst. unfold records_of.
  pose proof (teq_fields _ _ (store_snd world v c)) as (_&_&_&_&Hp&_&Hl&_&Hs).
  pose proof (store_leaves_snd world (leaves v) c) as H. cbv zeta in H.
  destruct H as (_&_&_&_&_&Hp'&Hl'&Hs').
  pose proof (fresh_records_length (local_list_of_container_keys c)
                (map compute_record (leaves v))) as Hle.
  rewrite Hl, Hl', Hp, Hp', Hs, Hs', !length_app.
  set (n := length (fresh_records (local_list_of_container_keys c)
                      (map compute_record (leaves v)))) in *.
  replace (length (local_list_of_container_keys c) + n
           - length (local_list_of_container_keys c))%nat with n by lia.
  rewrite length_map in *. auto.
Qed.

(** The number of entries of the cache. *)
Definition cache_size (c : Cloud) : nat := base.size (cached_objects c).

Definition counts_reads (A : Type) (count : A -> nat) (L : loader A) : Prop :=
  forall world rl c x rl' c1,
    L world rl c = Ok (x, rl', c1) ->
    exists hits fetched : nat,
      count x = (hits + fetched)%nat /\
      cache_size c1 = (cache_size c + fetched)%nat /\
      cache_reads c1 =
        Int64.increments (if (rank world =? 0)%Z then hits else 0) (cache_reads c).

Lemma counts_reads_all T :
  counts_reads _ (fun v => length (leaves v)) (load_dispatch T).
Proof.
  apply (P_load_dispatch counts_reads).
  - intros T' world rl c o rl' c1 H.
    apply load_other_Ok in H as (r & _ & _ & [[_ ->] | (Hnone & _ & -> & _)]).
    + exists 1%nat, 0%nat. unfold cache_size, count_cache_read.
      destruct (rank world =? 0)%Z; cbn; repeat split; lia.
    + exists 0%nat, 1%nat. unfold cache_size. cbn.
      rewrite map_size_insert_None by assumption.
      destruct (rank world =? 0)%Z; repeat split; lia.
  - intros A count x0 H0 world rl c x rl' c1 [= <- _ <-].
    exists 0%nat, 0%nat. rewrite H0.
    destruct (rank world =? 0)%Z; repeat split; lia.
  - intros A count e world rl c x rl' c1 H. discriminate H.
  - intros A B C ca cb cc La Lb f Ha Hb Hcc world rl c x rl' c2 H.
    bind_inv H. bind_inv H. destruct (f a b) as [y|] eqn:Ef; [|discriminate].
    injection H as <- _ <-.
    destruct (Ha _ _ _ _ _ _ Hrun) as (h1 & f1 & E1 & S1 & R1).
    destruct (Hb _ _ _ _ _ _ _ Hrun0) as (h2 & f2 & E2 & S2 & R2).
    exists (h2 + h1)%nat, (f1 + f2)%nat. rewrite (Hcc _ _ _ Ef).
    split; [lia|]. split; [lia|]. rewrite R2, R1.
    destruct (rank world =? 0)%Z; [|reflexivity].
    now rewrite Int64.increments_add.
  - intros A count L L' Hext HL world rl c x rl' c1 H. rewrite <- Hext in H.
    eapply HL; eassumption.
Qed.

(** X12.  Every record of a load that returns is accounted for once: it was
    read from the cache, and on rank 0 [cache_reads], a 64-bit counter that
    wraps around, was incremented for it, or it was fetched from the
    container and has made a new entry of the cache; on the other ranks
    [cache_reads] does not move. *)
Theorem load_accounting (T : ty) (world : World) (rl : recordlistT) (c c1 : Cloud)
    (x : value) :
  load T world rl c = Ok (x, c1) ->
  exists hits fetched : nat,
    length (leaves x) = (hits + fetched)%nat /\
    cache_size c1 = (cache_size c + fetched)%nat /\
    cache_reads c1 =
      Int64.increments (if (rank world =? 0)%Z then hits else 0) (cache_reads c).
Proof.
  intros H. rewrite load_dispatch_eq in H. bind_inv H. injection H as <- <-.
  destruct (counts_reads_all T _ _ _ _ _ _ Hrun) as (hits & fetched & E & S & R).
  exists hits, fetched. split; [exact E|].
  unfold cache_size in *. destruct (loadtimer_fields world c0) as (_&_&_&->&_).
  split; [exact S|]. rewrite <- R.
  unfold loadtimer. now destruct (rank world =? 0)%Z.
Qed.

End Extras.

(** *** The properties on the reference substrate *)

Section ExtraRuns.
Import Reference.
#[local] Existing Instance substrate.

Lemma three_load : load (TLeaf intT) subworld three_records three_stored
                   = Ok (three, three_loaded).
Proof. apply loaded_value_final_state. vm_compute. reflexivity. Qed.

Lemma clear_cache_then_load_witness :
  (forall k, is_cached k (clear_cache subworld three_loaded) = false /\
             is_in_container k (clear_cache subworld three_loaded) = false) /\
  container (clear_cache subworld three_loaded) = container three_loaded /\
  load (TLeaf intT) subworld (compute_record (O_int 3) :: [])
    (set_force_load_from_cache true (clear_cache subworld three_loaded))
    = Err CacheRequiredMiss /\
  exists c2,
    load (TLeaf intT) subworld three_records (clear_cache subworld three_loaded)
      = Ok (three, c2) /\
    cached_objects c2 = cached_objects three_loaded.
Proof.
  apply (clear_cache_then_load subworld subworld (TLeaf intT) three_records
           three_stored three_loaded three intT (compute_record (O_int 3)) []).
  - vm_compute. reflexivity.
  - exact three_load.
Defined.

Lemma three_loaded_reachable : reachable three_loaded.
Proof.
  apply (reach_load (TLeaf intT) subworld three_records three_stored three).
  - apply (reach_store universe three new_cloud). apply reach_new.
  - exact three_load.
Qed.

Lemma reachable_consistent_witness :
  consistent three_loaded /\
  (compute_record (O_long 4) ∈ fst (store universe (VLeaf (O_long 4)) three_loaded) ->
   is_in_container (compute_record (O_long 4))
     (snd (store universe (VLeaf (O_long 4)) three_loaded)) = true /\
   is_Some (container (snd (store universe (VLeaf (O_long 4)) three_loaded))
              !! compute_record (O_long 4))).
Proof.
  apply (reachable_consistent three_loaded universe (VLeaf (O_long 4))
           (compute_record (O_long 4))).
  exact three_loaded_reachable.
Defined.

Lemma load_writes_cache_only_witness :
  load_frame three_stored three_loaded /\
  cached_objects three_stored ⊆ cached_objects three_loaded /\
  forall k o, cached_objects three_loaded !! k = Some o ->
    cached_objects three_stored !! k = Some o \/
    exists bytes, container three_stored !! k = Some bytes /\
                  deserialize subworld (type_of o) bytes = Some o.
Proof.
  apply (load_writes_cache_only (TLeaf intT) subworld three_records
           three_stored three_loaded three).
  exact three_load.
Defined.

Lemma cached_load_counts_witness :
  exists c2,
    load (TLeaf intT) universe three_records three_loaded = Ok (three, c2) /\
    load_frame three_loaded c2 /\
    cached_objects c2 = cached_objects three_loaded /\
    cache_reads c2 =
      Int64.increments
        (if (rank universe =? 0)%Z then length (leaves three) else 0)
        (cache_reads three_loaded) /\
    reading_time c2 =
      (if (rank universe =? 0)%Z
       then Int64.add (reading_time three_loaded)
              (elapsed_ms (measurements three_loaded))
       else reading_time three_loaded) /\
    ((rank universe =? 0)%Z = false -> c2 = three_loaded).
Proof.
  apply (cached_load_counts (TLeaf intT) subworld universe three_records
           three_stored three_loaded three).
  exact three_load.
Defined.

Lemma same_record_two_types_witness :
  (forall x c1,
     load (TTuple [intT; longT]) subworld (5 :: 5 :: [])%Z new_cloud <> Ok (x, c1)) /\
  (forall (f : Function) (world0 : World) (c0 : Cloud) x c1,
     load (TTuple [FunctionT; impl_ptrT]) subworld
       (fst (store world0
               (VTuple [VLeaf (O_Function f); VLeaf (O_impl_ptr (get_impl f))]) c0))
       new_cloud
     <> Ok (x, c1)).
Proof.
  apply (same_record_two_types intT longT subworld 5%Z [] new_cloud);
    discriminate.
Defined.

Lemma first_store_wins_witness :
  let c1 := snd (store universe (VLeaf (O_Tensor unit_x)) new_cloud) in
  let c2 := snd (store subworld (VLeaf (O_Tensor unit_y)) c1) in
  fst (store subworld (VLeaf (O_Tensor unit_y)) c1)
    = fst (store universe (VLeaf (O_Tensor unit_x)) new_cloud) /\
  container c2 = container c1 /\
  container_puts c2 = container_puts c1 /\
  container c2 !! compute_record (O_Tensor unit_y) = Some (serialize (O_Tensor unit_x)).
Proof.
  apply (first_store_wins universe subworld (O_Tensor unit_x) (O_Tensor unit_y)
           new_cloud).
  - vm_compute. reflexivity.
  - discriminate.
  - discriminate.
  - reflexivity.
Defined.

Lemma store_same_leaves_witness :
  let v := VTuple [VTuple [VLeaf (O_int 1)]; VTuple []; VLeaf (O_long 2)] in
  let v' := VTuple [VLeaf (O_int 1); VLeaf (O_long 2)] in
  fst (store universe v new_cloud) = fst (store universe v' new_cloud) /\
  untimed (snd (store universe v new_cloud)) = untimed (snd (store universe v' new_cloud)).
Proof.
  apply (store_same_leaves universe
           (VTuple [VTuple [VLeaf (O_int 1)]; VTuple []; VLeaf (O_long 2)])
           (VTuple [VLeaf (O_int 1); VLeaf (O_long 2)]) new_cloud).
  reflexivity.
Defined.

Lemma load_accounting_witness :
  exists hits fetched : nat,
    length (leaves three) = (hits + fetched)%nat /\
    cache_size three_loaded = (cache_size three_stored + fetched)%nat /\
    cache_reads three_loaded =
      Int64.increments (if (rank subworld =? 0)%Z then hits else 0)
        (cache_reads three_stored).
Proof.
  apply (load_accounting (TLeaf intT) subworld three_records three_stored three_loaded three).
  exact three_load.
Defined.

End ExtraRuns.

End CloudExtras.

(** ** Relative pointers between two processes *)

Module ArchiveExtras.
Import Archive.
Local Open Scope Z_scope.

Lemma wrap_eq_iff a b :
  Int64.in_range b -> (Int64.wrap a = b <-> exists q, a = b + 2 ^ 64 * q).
Proof.
  unfold Int64.in_range, Int64.wrap, Int64.min_signed, Int64.max_signed. intros Hb.
  pose proof (Z.div_mod (a + 2 ^ 63) (2 ^ 64) ltac:(lia)) as Hdm.
  pose proof (Z.mod_pos_bound (a + 2 ^ 63) (2 ^ 64) ltac:(lia)) as Hm.
  split.
  - intros H. exists ((a + 2 ^ 63) / 2 ^ 64). lia.
  - intros [q ->].
    replace (b + 2 ^ 64 * q + 2 ^ 63) with (b + 2 ^ 63 + q * 2 ^ 64) by lia.
    rewrite Z.mod_add by lia. rewrite Z.mod_small by lia. lia.
Qed.

(** X13.  A free function pointer sent from a process whose reference
    function is at [o1] to one where it is at [o2] arrives at the same
    distance from the reference function; the receiver's encoding undoes
    its decoding.  The pointer arrives unchanged only when the two
    reference addresses are equal: there is no sentinel on this path, so a
    null function pointer does not arrive as null between two processes
    that loaded the reference function at different addresses. *)
Theorem fn_ptr_between_processes (o1 o2 fn rel : Z) :
  Int64.in_range o1 -> Int64.in_range o2 ->
  Int64.in_range fn -> Int64.in_range rel ->
  to_rel_fn_ptr o2 (to_abs_fn_ptr o2 rel) = rel /\
  to_rel_fn_ptr o2 (to_abs_fn_ptr o2 (to_rel_fn_ptr o1 fn)) = to_rel_fn_ptr o1 fn /\
  (to_abs_fn_ptr o2 (to_rel_fn_ptr o1 fn) = fn <-> o1 = o2) /\
  (to_abs_fn_ptr o2 (to_rel_fn_ptr o1 0) = 0 <-> o1 = o2).
Proof.
  intros H1 H2 Hfn Hrel.
  assert (Hback : forall p, Int64.in_range p ->
            (to_abs_fn_ptr o2 (to_rel_fn_ptr o1 p) = p <-> o1 = o2)).
  { intros p Hp. unfold to_abs_fn_ptr, to_rel_fn_ptr, Int64.add, Int64.sub.
    rewrite Int64.wrap_idem_add, wrap_eq_iff by assumption.
    unfold Int64.in_range, Int64.min_signed, Int64.max_signed in *.
    split.
    - intros [q Hq]. lia.
    - intros ->. exists 0. lia. }
  split; [|split; [|split]].
  - unfold to_rel_fn_ptr, to_abs_fn_ptr. now apply Int64.sub_add_cancel.
  - unfold to_rel_fn_ptr, to_abs_fn_ptr. apply Int64.sub_add_cancel.
    apply Int64.wrap_in_range.
  - now apply Hback.
  - apply Hback. unfold Int64.in_range, Int64.min_signed, Int64.max_signed. lia.
Qed.

Lemma fn_ptr_between_processes_witness :
  to_rel_fn_ptr 8192 (to_abs_fn_ptr 8192 16) = 16 /\
  to_rel_fn_ptr 8192 (to_abs_fn_ptr 8192 (to_rel_fn_ptr 4096 4112)) = to_rel_fn_ptr 4096 4112 /\
  (to_abs_fn_ptr 8192 (to_rel_fn_ptr 4096 4112) = 4112 <-> 4096 = 8192) /\
  (to_abs_fn_ptr 8192 (to_rel_fn_ptr 4096 0) = 0 <-> 4096 = 8192).
Proof.
  apply (fn_ptr_between_processes 4096 8192 4112 16);
    unfold Int64.in_range, Int64.min_signed, Int64.max_signed; lia.
Defined.

(** X14.  A member function pointer sent between two processes.  Under the
    Itanium and ARM ABIs a virtual pointer arrives unchanged and a null
    pointer arrives null, whatever the two reference addresses are; a
    non-virtual pointer whose relative form is not the null sentinel has
    its pointer slot moved as a free function pointer is and keeps its
    adjustment (the sender's reference address being even under Itanium).
    Under the Microsoft ABI nothing is translated: the absolute
    representation arrives as it was sent. *)
Theorem memfn_ptr_between_processes (o1 o2 : Z) (abi : cxx_abi) (r0 r1 : Z)
    (rest : list Z) :
  (abi = GenericItanium -> Z.even o1 = true) ->
  let fn := r0 :: r1 :: rest in
  let back := to_abs_memfn_ptr o2 abi (to_rel_memfn_ptr o1 abi fn) in
  (is_virtual abi fn = true -> back = fn) /\
  (is_null abi fn = true -> is_null abi back = true) /\
  (abi <> Microsoft -> is_virtual abi fn = false -> is_null abi fn = false ->
   hits_null_sentinel o1 abi fn = false ->
   back = to_abs_fn_ptr o2 (to_rel_fn_ptr o1 r0) :: r1 :: rest) /\
  (abi = Microsoft -> back = fn).
Proof.
  intros Ho fn back. subst fn back. destruct abi.
  - specialize (Ho eq_refl). cbn [is_virtual is_null hits_null_sentinel to_rel_memfn_ptr].
    split; [|split; [|split]].
    + intros Hv. apply negb_true_iff in Hv.
      assert (Hz : (r0 =? 0) = false).
      { destruct (r0 =? 0) eqn:E; [|reflexivity]. apply Z.eqb_eq in E. subst r0.
        discriminate Hv. }
      rewrite Hz, Hv. cbn [to_abs_memfn_ptr]. now rewrite Hz, Hv.
    + intros Hz. apply Z.eqb_eq in Hz. subst r0. reflexivity.
    + intros _ Hv Hz Hs. apply negb_false_iff in Hv. rewrite Hz, Hv.
      cbn [to_abs_memfn_ptr]. rewrite Hs.
      rewrite ArchiveProofs.even_bit_sub_origin, Hv by assumption. reflexivity.
    + discriminate.
  - cbn [is_virtual is_null hits_null_sentinel to_rel_memfn_ptr].
    split; [|split; [|split]].
    + intros Hv. apply negb_true_iff in Hv. rewrite Hv.
      cbn [to_abs_memfn_ptr]. now rewrite Hv.
    + intros Hn. apply andb_true_iff in Hn as [He Hz]. rewrite He, Hz.
      cbn [to_abs_memfn_ptr]. rewrite He.
      change (Int64.min_signed =? Int64.min_signed) with true. cbn. now rewrite He.
    + intros _ Hv Hn Hs. apply negb_false_iff in Hv. rewrite Hv in *.
      cbn [andb] in Hn. rewrite Hn. cbn [to_abs_memfn_ptr]. rewrite Hv, Hs.
      reflexivity.
    + discriminate.
  - cbn. repeat split; try discriminate; congruence.
Qed.

Lemma memfn_ptr_between_processes_witness :
  to_abs_memfn_ptr 8192 GenericItanium (to_rel_memfn_ptr 4096 GenericItanium [4128; 16])
    = [to_abs_fn_ptr 8192 (to_rel_fn_ptr 4096 4128); 16].
Proof.
  assert (He : GenericItanium = GenericItanium -> Z.even 4096 = true) by reflexivity.
  pose proof (memfn_ptr_between_processes 4096 8192 GenericItanium 4128 16 [] He) as H.
  cbv zeta in H. destruct H as (_ & _ & H & _).
  apply H; [discriminate | reflexivity | reflexivity | reflexivity].
Defined.

End ArchiveExtras.

(** ** Properties of the archives *)

Module ArchiveIOProofs.
Import Archive ArchiveIO.
Local Open Scope Z_scope.

(** Induction over the types, through the members of tuples. *)
Lemma sty_ind (P : sty -> Prop) :
  (forall k, P (AFund k)) ->
  (forall k, P (AComplex k)) ->
  (forall T, P T -> P (AVector T)) ->
  P AVectorBool ->
  (forall T N, P T -> P (AArray T N)) ->
  (forall T n, P T -> P (ACArray T n)) ->
  P AString ->
  (forall T Q, P T -> P Q -> P (APair T Q)) ->
  (forall Types, Forall P Types -> P (ATuple Types)) ->
  (forall k Q, P Q -> P (AMap k Q)) ->
  forall T, P T.
Proof.
  intros Hf Hc Hv Hvb Ha Hca Hs Hp Ht Hm. fix IH 1. intros [k | k | T | | T N | T n | | T Q | Types | k Q].
  - apply Hf.
  - apply Hc.
  - apply Hv, IH.
  - apply Hvb.
  - apply Ha, IH.
  - apply Hca, IH.
  - apply Hs.
  - apply Hp; apply IH.
  - apply Ht. induction Types as [| T0 Ts IHTs]; constructor.
    + apply IH.
    + apply IHTs.
  - apply Hm, IH.
Qed.

(** Every sequence of the value has fewer than 2^32 elements. *)
Fixpoint small (t : aval) : bool :=
  match t with
  | Scalar _ | Complex _ _ => true
  | Seq l => (Z.of_nat (length l) <? 2 ^ 32) && forallb small l
  | Pair a b => small a && small b
  | Tuple l => forallb small l
  | MapOf m => forallb (fun p => small (snd p)) m
  end.

Lemma bind_Done {A B} (m : outcome A) (k : A -> outcome B) b :
  m ≫= k = Done b -> exists a, m = Done a /\ k a = Done b.
Proof. destruct m as [a | e]; cbn; [eauto | discriminate]. Qed.

Lemma to_uint_small n : Z.of_nat n < 2 ^ 32 -> to_uint n = n.
Proof. intros H. unfold to_uint. rewrite Z.mod_small by lia. apply Nat2Z.id. Qed.

Lemma to_uint_le n : (to_uint n <= n)%nat.
Proof.
  unfold to_uint. pose proof (Z.mod_le (Z.of_nat n) (2 ^ 32) ltac:(lia) ltac:(lia)).
  lia.
Qed.

(** *** The raw archive *)

Lemma ar_load_app is_T (items rest : archive) :
  forallb is_T items = true ->
  ar_load is_T (length items) (items ++ rest) = Done (items, rest).
Proof.
  induction items as [| x items IH]; intros H; cbn; [reflexivity|].
  cbn in H. apply andb_true_iff in H as [Hx H]. rewrite Hx, IH by assumption.
  reflexivity.
Qed.

Lemma ar_load_length is_T n ar l ar' :
  ar_load is_T n ar = Done (l, ar') -> ar = l ++ ar' /\ length l = n /\ forallb is_T l = true.
Proof.
  revert ar l ar'. induction n as [| n IH]; intros ar l ar' H; cbn in H.
  - injection H as <- <-. auto.
  - destruct ar as [| x ar0]; [discriminate|].
    destruct (is_T x) eqn:Hx; [|discriminate].
    apply bind_Done in H as ([l0 ar1] & H0 & H). injection H as <- <-.
    apply IH in H0 as (-> & <- & Hl). cbn. rewrite Hx, Hl. auto.
Qed.

Section Proofs.
Variable plain : sty -> bool.

Abbreviation wrap_store := (ArchiveIO.wrap_store plain).
Abbreviation wrap_load := (ArchiveIO.wrap_load plain).

(** *** Preambles and fundamental values *)

Lemma preamble_load_store ck rest :
  preamble_load ck (Scalar ck :: rest) = Done rest.
Proof. unfold preamble_load. cbn. now rewrite Z.eqb_refl. Qed.

Lemma preamble_load_other ck ck' rest :
  ck' <> ck -> preamble_load ck (Scalar ck' :: rest) = Thrown (CookieMismatch ck ck').
Proof.
  intros H. unfold preamble_load. cbn. apply Z.eqb_neq in H. now rewrite H.
Qed.

Lemma store_fund_eq k d ar :
  store_fund k d ar = ar ++ [Scalar (fund_cookie k); Scalar d].
Proof. unfold store_fund, preamble_store, ar_store. now rewrite <- app_assoc. Qed.

Lemma load_fund_store k d rest :
  load_fund k (Scalar (fund_cookie k) :: Scalar d :: rest) = Done (d, rest).
Proof. unfold load_fund. rewrite preamble_load_store. reflexivity. Qed.

Lemma load_size_store n rest :
  load_size (Scalar (fund_cookie F_ulong) :: Scalar (Z.of_nat n) :: rest) = Done (n, rest).
Proof. unfold load_size. rewrite load_fund_store. cbn. now rewrite Nat2Z.id. Qed.


(** *** The loops of the tuple and of the map, by name *)

Fixpoint store_members (Ts : list sty) (l : list aval) (ar : archive)
  : outcome archive :=
  match Ts, l with
  | [], [] => Done ar
  | T0 :: Ts', x :: l' => ar' ← store_members Ts' l' ar; wrap_store T0 x ar'
  | _, _ => Thrown IllTyped
  end.

Fixpoint load_members (Ts : list sty) (l : list aval) (ar : archive)
  : outcome (list aval * archive) :=
  match Ts, l with
  | [], [] => Done ([], ar)
  | T0 :: Ts', x :: l' =>
      '(l'', ar1) ← load_members Ts' l' ar;
      '(x', ar2) ← wrap_load T0 x ar1;
      Done (x' :: l'', ar2)
  | _, _ => Thrown IllTyped
  end.

Definition store_entries (k : fund) (Q : sty)
  : list (Z * aval) -> archive -> outcome archive :=
  fix entries (m : list (Z * aval)) (ar : archive) {struct m} : outcome archive :=
    match m with
    | [] => Done ar
    | (key, value) :: m' =>
        ar' ← wrap_store Q value (store_fund k key (preamble_store 255 ar));
        entries m' ar'
    end.

Definition load_entries (k : fund) (Q : sty)
  : nat -> list (Z * aval) -> archive -> outcome (list (Z * aval) * archive) :=
  fix entries (n : nat) (m : list (Z * aval)) (ar : archive) {struct n}
    : outcome (list (Z * aval) * archive) :=
    match n with
    | O => Done (m, ar)
    | S n' =>
        ar1 ← preamble_load 255 ar;
        '(key, ar2) ← load_fund k ar1;
        '(value, ar3) ← wrap_load Q (default Q) ar2;
        entries n' (map_assign key value m) ar3
    end.

Fixpoint wt_members (Ts : list sty) (l : list aval) : bool :=
  match Ts, l with
  | [], [] => true
  | T0 :: Ts', x :: l' => wt T0 x && wt_members Ts' l'
  | _, _ => false
  end.

Lemma wrap_store_fund k d ar :
  wrap_store (AFund k) (Scalar d) ar = Done (store_fund k d ar).
Proof. reflexivity. Qed.

Lemma wrap_store_complex k re im ar :
  wrap_store (AComplex k) (Complex re im) ar
  = Done (store_fund k im (store_fund k re (preamble_store (cookie (AComplex k)) ar))).
Proof. destruct k; reflexivity. Qed.

Lemma wrap_store_vector T v ar :
  wrap_store (AVector T) (Seq v) ar =
    let ar1 := store_size (length v) (preamble_store (cookie (AVector T)) ar) in
    if plain T then
      wrap_store_array true (ptr_cookie T) (wrap_store T) v (to_uint (length v)) ar1
    else store_each (wrap_store T) v ar1.
Proof. reflexivity. Qed.

Lemma wrap_store_vector_bool v ar :
  wrap_store AVectorBool (Seq v) ar =
    wrap_store_array (plain (AFund F_bool)) (ptr_cookie (AFund F_bool))
      (amp_store_fund F_bool) v (to_uint (length v))
      (store_size (length v) (preamble_store 28 ar)).
Proof. reflexivity. Qed.

Lemma wrap_store_array_eq T N v ar :
  wrap_store (AArray T N) (Seq v) ar =
    wrap_store_array (plain T) (ptr_cookie T) (wrap_store T) v (to_uint (length v))
      (store_size (length v) (preamble_store 255 ar)).
Proof. reflexivity. Qed.

Lemma wrap_store_c_array T n l ar :
  wrap_store (ACArray T n) (Seq l) ar =
    wrap_store_array (plain T) (ptr_cookie T) (wrap_store T) l (to_uint n) ar.
Proof. reflexivity. Qed.

Lemma wrap_store_string v ar :
  wrap_store AString (Seq v) ar =
    wrap_store_array (plain (AFund F_char)) (ptr_cookie (AFund F_char))
      (amp_store_fund F_char) v (to_uint (length v))
      (store_size (length v) (preamble_store 31 ar)).
Proof. reflexivity. Qed.

Lemma wrap_store_pair T Q a b ar :
  wrap_store (APair T Q) (Pair a b) ar =
    ar1 ← wrap_store T a (preamble_store 255 ar); wrap_store Q b ar1.
Proof. reflexivity. Qed.

Lemma wrap_store_tuple Ts l ar :
  wrap_store (ATuple Ts) (Tuple l) ar = store_members Ts l (preamble_store 255 ar).
Proof. reflexivity. Qed.

Lemma wrap_store_map k Q m ar :
  wrap_store (AMap k Q) (MapOf m) ar =
    store_entries k Q m (store_size (length m) (preamble_store 255 ar)).
Proof. reflexivity. Qed.

Lemma wrap_load_fund k t ar :
  wrap_load (AFund k) t ar =
    ar0 ← preamble_load (fund_cookie k) ar;
    '(l, ar1) ← ar_load is_scalar 1 ar0;
    match l with
    | [x] => Done (x, ar1)
    | _ => Thrown NotAnItem
    end.
Proof. reflexivity. Qed.

Lemma wrap_load_complex k t ar :
  wrap_load (AComplex k) t ar =
    ar0 ← preamble_load (cookie (AComplex k)) ar;
    '(r, ar1) ← load_fund k ar0;
    '(i, ar2) ← load_fund k ar1;
    Done (Complex r i, ar2).
Proof. destruct k; reflexivity. Qed.

Lemma wrap_load_vector T v ar :
  wrap_load (AVector T) (Seq v) ar =
    ar0 ← preamble_load (cookie (AVector T)) ar;
    '(n, ar1) ← load_size ar0;
    let v1 := resize T n v in
    if plain T then
      '(v2, ar2) ← wrap_load_array true (ptr_cookie T) (wt T) (wrap_load T) v1
                     (to_uint n) ar1;
      Done (Seq v2, ar2)
    else
      '(v2, ar2) ← load_each (wrap_load T) v1 ar1;
      Done (Seq v2, ar2).
Proof. reflexivity. Qed.

Lemma wrap_load_vector_bool v ar :
  wrap_load AVectorBool (Seq v) ar =
    ar0 ← preamble_load 28 ar;
    '(n, ar1) ← load_size ar0;
    if (to_uint n =? n)%nat then
      '(b, ar2) ← wrap_load_array (plain (AFund F_bool)) (ptr_cookie (AFund F_bool))
                    is_scalar (amp_load_fund F_bool)
                    (replicate n (Scalar 0)) (to_uint n) ar1;
      Done (Seq b, ar2)
    else Thrown Indeterminate.
Proof. reflexivity. Qed.

Lemma wrap_load_array_eq T N v ar :
  wrap_load (AArray T N) (Seq v) ar =
    ar0 ← preamble_load 255 ar;
    '(n, ar1) ← load_size ar0;
    if (n =? length v)%nat then
      '(v2, ar2) ← wrap_load_array (plain T) (ptr_cookie T) (wt T) (wrap_load T) v
                     (to_uint n) ar1;
      Done (Seq v2, ar2)
    else Thrown AssertionFailure.
Proof. reflexivity. Qed.

Lemma wrap_load_c_array T n l ar :
  wrap_load (ACArray T n) (Seq l) ar =
    '(l', ar') ← wrap_load_array (plain T) (ptr_cookie T) (wt T) (wrap_load T) l
                   (to_uint n) ar;
    Done (Seq l', ar').
Proof. reflexivity. Qed.

Lemma wrap_load_string v ar :
  wrap_load AString (Seq v) ar =
    ar0 ← preamble_load 31 ar;
    '(n, ar1) ← load_size ar0;
    '(v2, ar2) ← wrap_load_array (plain (AFund F_char)) (ptr_cookie (AFund F_char))
                   is_scalar (amp_load_fund F_char)
                   (resize (AFund F_char) n v) (to_uint n) ar1;
    Done (Seq v2, ar2).
Proof. reflexivity. Qed.

Lemma wrap_load_pair T Q a b ar :
  wrap_load (APair T Q) (Pair a b) ar =
    ar0 ← preamble_load 255 ar;
    '(a', ar1) ← wrap_load T a ar0;
    '(b', ar2) ← wrap_load Q b ar1;
    Done (Pair a' b', ar2).
Proof. reflexivity. Qed.

Lemma wrap_load_tuple Ts l ar :
  wrap_load (ATuple Ts) (Tuple l) ar =
    ar0 ← preamble_load 255 ar;
    '(l', ar1) ← load_members Ts l ar0;
    Done (Tuple l', ar1).
Proof. reflexivity. Qed.

Lemma wrap_load_map k Q m ar :
  wrap_load (AMap k Q) (MapOf m) ar =
    ar0 ← preamble_load 255 ar;
    '(n, ar1) ← load_size ar0;
    '(m', ar2) ← load_entries k Q n m ar1;
    Done (MapOf m', ar2).
Proof. reflexivity. Qed.

Lemma wt_tuple Ts l :
  wt (ATuple Ts) (Tuple l) = negb (Nat.eqb (length Ts) 0) && wt_members Ts l.
Proof. reflexivity. Qed.


(** *** What a load makes of the object it loads into *)

Fixpoint overlay_each (ov : aval -> aval -> aval) (targets values : list aval)
  : list aval :=
  match targets, values with
  | t0 :: ts, x :: xs => ov t0 x :: overlay_each ov ts xs
  | _, _ => []
  end.

(** The object [t0] after a load of what was stored from [v]: the elements
    of an array or vector that is not plain, and the members of a pair or
    tuple, are loaded in place; a map keeps its entries and is assigned
    those of [v]; everything else is replaced. *)
Fixpoint overlay (T : sty) (t0 v : aval) {struct T} : aval :=
  match T with
  | AVector T' =>
      if plain T' then v
      else
        match t0, v with
        | Seq l0, Seq l =>
            Seq (overlay_each (overlay T') (resize T' (length l) l0) l)
        | _, _ => v
        end
  | AArray T' _ | ACArray T' _ =>
      if plain T' then v
      else
        match t0, v with
        | Seq l0, Seq l => Seq (overlay_each (overlay T') l0 l)
        | _, _ => v
        end
  | APair T' Q =>
      match t0, v with
      | Pair a0 b0, Pair a b => Pair (overlay T' a0 a) (overlay Q b0 b)
      | _, _ => v
      end
  | ATuple Types =>
      match t0, v with
      | Tuple l0, Tuple l =>
          Tuple ((fix members (Ts : list sty) (l0 l : list aval) {struct Ts}
                    : list aval :=
                    match Ts, l0, l with
                    | T0 :: Ts', x0 :: l0', x :: l' =>
                        overlay T0 x0 x :: members Ts' l0' l'
                    | _, _, _ => []
                    end) Types l0 l)
      | _, _ => v
      end
  | AMap k Q =>
      match t0, v with
      | MapOf m0, MapOf m =>
          MapOf (fold_left
                   (fun acc p => map_assign (fst p) (overlay Q (default Q) (snd p)) acc)
                   m m0)
      | _, _ => v
      end
  | _ => v
  end.

Fixpoint overlay_members (Ts : list sty) (l0 l : list aval) : list aval :=
  match Ts, l0, l with
  | T0 :: Ts', x0 :: l0', x :: l' => overlay T0 x0 x :: overlay_members Ts' l0' l'
  | _, _, _ => []
  end.

Lemma overlay_tuple Ts l0 l :
  overlay (ATuple Ts) (Tuple l0) (Tuple l) = Tuple (overlay_members Ts l0 l).
Proof. reflexivity. Qed.

Lemma overlay_each_values targets values :
  length targets = length values ->
  overlay_each (fun _ x => x) targets values = values.
Proof.
  revert targets. induction values as [| x xs IH]; intros [| t0 ts] H;
    try discriminate H; cbn; [reflexivity|]. f_equal. apply IH. now injection H.
Qed.

(** [st] and [ld] store and load [x]: the store appends items to the
    archive, and the load of an archive that starts with them, into an
    object that [ok] admits, gives [ov] of the object and [x] and leaves the
    rest of the archive. *)
Definition inverse (st : aval -> archive -> outcome archive)
    (ld : aval -> archive -> outcome (aval * archive))
    (ok : aval -> bool) (ov : aval -> aval -> aval) (x : aval) : Prop :=
  forall ar, exists items,
    st x ar = Done (ar ++ items) /\
    forall t0 rest, ok t0 = true -> ld t0 (items ++ rest) = Done (ov t0 x, rest).

Lemma inverse_fund k x :
  is_scalar x = true ->
  inverse (amp_store_fund k) (amp_load_fund k) is_scalar (fun _ x => x) x.
Proof.
  destruct x as [d | | | | |]; try discriminate. intros _ ar.
  exists [Scalar (fund_cookie k); Scalar d]. split.
  - cbn [amp_store_fund]. now rewrite store_fund_eq.
  - intros t0 rest _. unfold amp_load_fund. cbn [app].
    now rewrite load_fund_store.
Qed.

Lemma inverse_each st ld ok ov l :
  Forall (inverse st ld ok ov) l ->
  forall ar, exists items,
    store_each st l ar = Done (ar ++ items) /\
    forall targets rest,
      length targets = length l -> forallb ok targets = true ->
      load_each ld targets (items ++ rest) = Done (overlay_each ov targets l, rest).
Proof.
  induction 1 as [| x l Hx Hl IH]; intros ar.
  - exists []. split; [cbn; now rewrite app_nil_r|].
    intros [| t0 ts] rest Hlen _; [reflexivity | discriminate Hlen].
  - destruct (Hx ar) as (i1 & S1 & L1).
    destruct (IH (ar ++ i1)) as (i2 & S2 & L2).
    exists (i1 ++ i2). split.
    + cbn [store_each]. rewrite S1. cbn [mbind outcome_bind].
      now rewrite S2, app_assoc.
    + intros [| t0 ts] rest Hlen Hok; [discriminate Hlen|].
      cbn in Hok. apply andb_true_iff in Hok as [Hok0 Hoks].
      cbn [load_each overlay_each]. rewrite <- app_assoc, (L1 t0 _ Hok0).
      cbn [mbind outcome_bind]. rewrite L2; [reflexivity | now injection Hlen | assumption].
Qed.

Lemma inverse_array plainT ck is_T st ld ov l ar :
  Z.of_nat (length l) < 2 ^ 32 ->
  forallb is_T l = true ->
  Forall (inverse st ld is_T ov) l ->
  exists items,
    wrap_store_array plainT ck st l (to_uint (length l)) ar
      = Done (ar ++ Scalar ck :: items) /\
    forall targets rest,
      length targets = length l ->
      (plainT = false -> forallb is_T targets = true) ->
      wrap_load_array plainT ck is_T ld targets (to_uint (length l))
        (Scalar ck :: items ++ rest)
      = Done (if plainT then l else overlay_each ov targets l, rest).
Proof.
  intros Hsmall Hl Hinv. rewrite to_uint_small by assumption.
  unfold wrap_store_array, wrap_load_array, serialize_out, serialize_in.
  rewrite Nat.ltb_irrefl, firstn_all. destruct plainT.
  - exists l. split.
    + unfold preamble_store, ar_store. now rewrite <- app_assoc.
    + intros targets rest Hlen _. rewrite preamble_load_store.
      cbn [mbind outcome_bind]. rewrite Hlen, Nat.ltb_irrefl.
      rewrite ar_load_app by assumption. cbn [mbind outcome_bind].
      rewrite <- Hlen, skipn_all, app_nil_r. reflexivity.
  - destruct (inverse_each _ _ _ _ _ Hinv (preamble_store ck ar)) as (items & S1 & L1).
    exists items. split.
    + rewrite S1. unfold preamble_store, ar_store. now rewrite <- app_assoc.
    + intros targets rest Hlen Hok. rewrite preamble_load_store.
      cbn [mbind outcome_bind]. rewrite Hlen, Nat.ltb_irrefl.
      rewrite <- Hlen, firstn_all, (L1 targets rest Hlen (Hok eq_refl)).
      cbn [mbind outcome_bind]. rewrite skipn_all, app_nil_r. reflexivity.
Qed.


(** *** Value-initialised objects *)

Lemma forallb_replicate {A} (f : A -> bool) n x :
  f x = true -> forallb f (replicate n x) = true.
Proof. intros H. induction n as [| n IH]; cbn; [reflexivity|]. now rewrite H, IH. Qed.

Lemma wt_vector T l :
  wt (AVector T) (Seq l) = true -> forallb (wt T) l = true.
Proof. cbn. destruct T as [[] | | | | | | | | |]; try discriminate; auto. Qed.

Lemma wt_vector_nil T l :
  wt (AVector T) (Seq l) = true -> wt (AVector T) (Seq []) = true.
Proof. cbn. destruct T as [[] | | | | | | | | |]; try discriminate; auto. Qed.

Lemma wt_default T : forall x, wt T x = true -> wt T (default T) = true.
Proof.
  induction T as [k | k | T IH | | T N IH | T n IH | | T Q IHT IHQ | Types IH | k Q IH]
    using sty_ind; intros x Hx.
  - reflexivity.
  - reflexivity.
  - destruct x as [| | l | | |];
      try (cbn in Hx; destruct T as [[] | | | | | | | | |]; discriminate Hx).
    eapply wt_vector_nil. exact Hx.
  - reflexivity.
  - destruct x as [| | l | | |]; try discriminate Hx. cbn in Hx.
    apply andb_true_iff in Hx as [Hlen Hall]. apply Nat.eqb_eq in Hlen. subst N.
    cbn [default wt]. rewrite length_replicate, Nat.eqb_refl. cbn [andb].
    destruct l as [| x0 l]; [reflexivity|]. cbn in Hall.
    apply andb_true_iff in Hall as [H0 _]. apply forallb_replicate. eapply IH. exact H0.
  - destruct x as [| | l | | |]; try discriminate Hx. cbn in Hx.
    apply andb_true_iff in Hx as [Hlen Hall]. apply Nat.eqb_eq in Hlen. subst n.
    cbn [default wt]. rewrite length_replicate, Nat.eqb_refl. cbn [andb].
    destruct l as [| x0 l]; [reflexivity|]. cbn in Hall.
    apply andb_true_iff in Hall as [H0 _]. apply forallb_replicate. eapply IH. exact H0.
  - reflexivity.
  - destruct x as [| | | a b | |]; try discriminate Hx. cbn in Hx.
    apply andb_true_iff in Hx as [Ha Hb]. cbn [default wt].
    now rewrite (IHT a Ha), (IHQ b Hb).
  - destruct x as [| | | | l |]; try discriminate Hx.
    rewrite wt_tuple in Hx. apply andb_true_iff in Hx as [Hne Hm].
    cbn [default]. rewrite wt_tuple, Hne. cbn [andb].
    clear Hne. revert l Hm. induction IH as [| T0 Ts H0 _ IHTs]; intros l Hm.
    + reflexivity.
    + destruct l as [| x l]; [discriminate Hm|]. cbn in Hm.
      apply andb_true_iff in Hm as [Hx Hm]. cbn. rewrite (H0 x Hx). cbn [andb].
      now apply (IHTs l).
  - destruct x as [| | | | | m]; try discriminate Hx. cbn in Hx.
    apply andb_true_iff in Hx as [Hx _]. apply andb_true_iff in Hx as [Hk _].
    cbn. now rewrite Hk.
Qed.


(** *** Loading what was stored *)

Lemma resize_length T n v : length (resize T n v) = n.
Proof.
  unfold resize. destruct (Nat.eqb_spec n (length v)) as [-> | _];
    [reflexivity | apply length_replicate].
Qed.

Lemma resize_wt T n v x :
  forallb (wt T) v = true -> (n <> 0%nat -> wt T x = true) ->
  forallb (wt T) (resize T n v) = true.
Proof.
  intros Hv Hx. unfold resize. destruct (n =? length v)%nat; [assumption|].
  destruct n as [| n]; [reflexivity|]. apply forallb_replicate.
  eapply wt_default. now apply Hx.
Qed.

Lemma resize_scalar k n v :
  forallb is_scalar v = true -> forallb is_scalar (resize (AFund k) n v) = true.
Proof.
  intros Hv. unfold resize. destruct (n =? length v)%nat; [assumption|].
  now apply forallb_replicate.
Qed.

Definition invertible (T : sty) : Prop :=
  forall v, wt T v = true -> small v = true ->
    inverse (wrap_store T) (wrap_load T) (wt T) (overlay T) v.

Lemma invertible_elements T l :
  invertible T -> forallb (wt T) l = true -> forallb small l = true ->
  Forall (inverse (wrap_store T) (wrap_load T) (wt T) (overlay T)) l.
Proof.
  intros HT Hwt Hsm. apply Forall_forall. intros x Hx.
  rewrite forallb_forall in Hwt, Hsm. apply list_elem_of_In in Hx.
  apply HT; auto.
Qed.

Lemma scalar_elements k l :
  forallb is_scalar l = true ->
  Forall (inverse (amp_store_fund k) (amp_load_fund k) is_scalar (fun _ x => x)) l.
Proof.
  intros H. apply Forall_forall. intros x Hx. rewrite forallb_forall in H.
  apply list_elem_of_In in Hx. apply inverse_fund. auto.
Qed.

Lemma inverse_members Ts :
  Forall invertible Ts ->
  forall l, wt_members Ts l = true -> forallb small l = true ->
  forall ar, exists items,
    store_members Ts l ar = Done (ar ++ items) /\
    forall l0 rest, wt_members Ts l0 = true ->
      load_members Ts l0 (items ++ rest) = Done (overlay_members Ts l0 l, rest).
Proof.
  induction 1 as [| T0 Ts H0 _ IH]; intros l Hwt Hsm ar.
  - destruct l; [|discriminate Hwt]. exists []. split; [cbn; now rewrite app_nil_r|].
    intros [| ? ?] rest Hl0; [reflexivity | discriminate Hl0].
  - destruct l as [| x l]; [discriminate Hwt|]. cbn in Hwt, Hsm.
    apply andb_true_iff in Hwt as [Hx Hl]. apply andb_true_iff in Hsm as [Sx Sl].
    destruct (IH l Hl Sl ar) as (i1 & S1 & L1).
    destruct (H0 x Hx Sx (ar ++ i1)) as (i2 & S2 & L2).
    exists (i1 ++ i2). split.
    + cbn [store_members]. rewrite S1. cbn [mbind outcome_bind].
      now rewrite S2, app_assoc.
    + intros [| x0 l0] rest Hl0; [discriminate Hl0|]. cbn in Hl0.
      apply andb_true_iff in Hl0 as [Hx0 Hl0].
      cbn [load_members overlay_members]. rewrite <- app_assoc, (L1 l0 _ Hl0).
      cbn [mbind outcome_bind]. rewrite (L2 x0 rest Hx0). reflexivity.
Qed.

Lemma inverse_entries k Q :
  invertible Q ->
  forall m, forallb (fun p => wt Q (snd p)) m = true ->
            forallb (fun p => small (snd p)) m = true ->
  forall ar, exists items,
    store_entries k Q m ar = Done (ar ++ items) /\
    forall m0 rest,
      load_entries k Q (length m) m0 (items ++ rest)
      = Done (fold_left
                (fun acc p => map_assign (fst p) (overlay Q (default Q) (snd p)) acc)
                m m0, rest).
Proof.
  intros HQ. induction m as [| [key value] m IH]; intros Hwt Hsm ar.
  - exists []. split; [cbn; now rewrite app_nil_r | reflexivity].
  - cbn in Hwt, Hsm. apply andb_true_iff in Hwt as [Hx Hl].
    apply andb_true_iff in Hsm as [Sx Sl].
    destruct (HQ value Hx Sx (store_fund k key (preamble_store 255 ar)))
      as (i1 & S1 & L1).
    destruct (IH Hl Sl (store_fund k key (preamble_store 255 ar) ++ i1))
      as (i2 & S2 & L2).
    exists (Scalar 255 :: Scalar (fund_cookie k) :: Scalar key :: i1 ++ i2). split.
    + cbn [store_entries]. rewrite S1. cbn [mbind outcome_bind].
      fold (store_entries k Q). rewrite S2. rewrite store_fund_eq.
      unfold preamble_store, ar_store. rewrite <- !app_assoc. reflexivity.
    + intros m0 rest. cbn [length load_entries app].
      rewrite preamble_load_store. cbn [mbind outcome_bind].
      rewrite load_fund_store. cbn [mbind outcome_bind].
      rewrite <- app_assoc, (L1 (default Q) _ (wt_default Q value Hx)).
      cbn [mbind outcome_bind]. fold (load_entries k Q). rewrite L2. reflexivity.
Qed.

Lemma wrap_inverse T : invertible T.
Proof.
  induction T as [k | k | T IH | | T N IH | T n IH | | T Q IHT IHQ | Types IH | k Q IH]
    using sty_ind; intros v Hwt Hsm ar.
  - (* fundamental *)
    destruct v as [d | | | | |]; try discriminate Hwt.
    exists [Scalar (fund_cookie k); Scalar d]. split.
    + now rewrite wrap_store_fund, store_fund_eq.
    + intros t0 rest _. rewrite wrap_load_fund. cbn [app].
      rewrite preamble_load_store. reflexivity.
  - (* complex *)
    destruct v as [| re im | | | |]; try discriminate Hwt.
    exists [Scalar (cookie (AComplex k)); Scalar (fund_cookie k); Scalar re;
            Scalar (fund_cookie k); Scalar im]. split.
    + rewrite wrap_store_complex, !store_fund_eq. unfold preamble_store, ar_store.
      now rewrite <- !app_assoc.
    + intros t0 rest _. rewrite wrap_load_complex. cbn [app].
      rewrite preamble_load_store. cbn [mbind outcome_bind].
      rewrite load_fund_store. cbn [mbind outcome_bind].
      rewrite load_fund_store. reflexivity.
  - (* vector *)
    destruct v as [| | l | | |];
      try (cbn in Hwt; destruct T as [[] | | | | | | | | |]; discriminate Hwt).
    pose proof (wt_vector _ _ Hwt) as Hl. cbn in Hsm.
    apply andb_true_iff in Hsm as [Hlen Hsl]. apply Z.ltb_lt in Hlen.
    pose proof (invertible_elements T l IH Hl Hsl) as Hinv.
    set (header := [Scalar (cookie (AVector T)); Scalar (fund_cookie F_ulong);
                    Scalar (Z.of_nat (length l))]).
    assert (Hhead : store_size (length l) (preamble_store (cookie (AVector T)) ar)
                    = ar ++ header).
    { unfold store_size. rewrite store_fund_eq. unfold preamble_store, ar_store.
      now rewrite <- app_assoc. }
    rewrite wrap_store_vector. cbv zeta. rewrite Hhead.
    destruct (plain T) eqn:Hp.
    + destruct (inverse_array true (ptr_cookie T) (wt T) (wrap_store T) (wrap_load T)
                  (overlay T) l (ar ++ header) Hlen Hl Hinv) as (items & S1 & L1).
      exists (header ++ Scalar (ptr_cookie T) :: items). split.
      * rewrite S1. now rewrite <- app_assoc.
      * intros t0 rest Ht0. destruct t0 as [| | l0 | | |];
          try (cbn in Ht0; destruct T as [[] | | | | | | | | |]; discriminate Ht0).
        rewrite wrap_load_vector. subst header. cbn [app].
        rewrite preamble_load_store. cbn [mbind outcome_bind].
        rewrite load_size_store. cbn [mbind outcome_bind]. cbv zeta. rewrite Hp.
        rewrite (L1 (resize T (length l) l0) rest (resize_length _ _ _));
          [|discriminate].
        cbn [overlay]. rewrite Hp. reflexivity.
    + destruct (inverse_each _ _ _ _ _ Hinv (ar ++ header)) as (items & S1 & L1).
      exists (header ++ items). split.
      * rewrite S1. now rewrite <- app_assoc.
      * intros t0 rest Ht0. destruct t0 as [| | l0 | | |];
          try (cbn in Ht0; destruct T as [[] | | | | | | | | |]; discriminate Ht0).
        pose proof (wt_vector _ _ Ht0) as Hl0.
        rewrite wrap_load_vector. subst header. cbn [app].
        rewrite preamble_load_store. cbn [mbind outcome_bind].
        rewrite load_size_store. cbn [mbind outcome_bind]. cbv zeta. rewrite Hp.
        rewrite (L1 (resize T (length l) l0) rest (resize_length _ _ _)).
        -- cbn [overlay]. rewrite Hp. reflexivity.
        -- destruct l as [| x l']; [now apply (resize_wt T 0 l0 (Scalar 0))|].
           cbn in Hl. apply andb_true_iff in Hl as [Hx _].
           now apply (resize_wt T _ l0 x).
  - (* vector<bool> *)
    destruct v as [| | l | | |]; try discriminate Hwt. cbn in Hwt, Hsm.
    apply andb_true_iff in Hsm as [Hlen _]. apply Z.ltb_lt in Hlen.
    set (header := [Scalar 28; Scalar (fund_cookie F_ulong);
                    Scalar (Z.of_nat (length l))]).
    assert (Hhead : store_size (length l) (preamble_store 28 ar) = ar ++ header).
    { unfold store_size. rewrite store_fund_eq. unfold preamble_store, ar_store.
      now rewrite <- app_assoc. }
    rewrite wrap_store_vector_bool, Hhead.
    destruct (inverse_array (plain (AFund F_bool)) (ptr_cookie (AFund F_bool))
                is_scalar _ _ _ l (ar ++ header) Hlen Hwt (scalar_elements F_bool l Hwt))
      as (items & S1 & L1).
    exists (header ++ Scalar (ptr_cookie (AFund F_bool)) :: items). split.
    + rewrite S1. now rewrite <- app_assoc.
    + intros t0 rest Ht0. destruct t0 as [| | l0 | | |]; try discriminate Ht0.
      rewrite wrap_load_vector_bool. subst header. cbn [app].
      rewrite preamble_load_store. cbn [mbind outcome_bind].
      rewrite load_size_store. cbn [mbind outcome_bind].
      rewrite (to_uint_small (length l)) at 1 by assumption. rewrite Nat.eqb_refl.
      rewrite (L1 (replicate (length l) (Scalar 0)) rest (length_replicate _ _)).
      * cbn [mbind outcome_bind overlay].
        destruct (plain (AFund F_bool)); [reflexivity|].
        rewrite overlay_each_values by apply length_replicate. reflexivity.
      * intros _. now apply forallb_replicate.
  - (* std::array *)
    destruct v as [| | l | | |]; try discriminate Hwt. cbn in Hwt, Hsm.
    apply andb_true_iff in Hwt as [HN Hl]. apply Nat.eqb_eq in HN.
    apply andb_true_iff in Hsm as [Hlen Hsl]. apply Z.ltb_lt in Hlen.
    pose proof (invertible_elements T l IH Hl Hsl) as Hinv.
    set (header := [Scalar 255; Scalar (fund_cookie F_ulong);
                    Scalar (Z.of_nat (length l))]).
    assert (Hhead : store_size (length l) (preamble_store 255 ar) = ar ++ header).
    { unfold store_size. rewrite store_fund_eq. unfold preamble_store, ar_store.
      now rewrite <- app_assoc. }
    rewrite wrap_store_array_eq, Hhead.
    destruct (inverse_array (plain T) (ptr_cookie T) (wt T) (wrap_store T) (wrap_load T)
                (overlay T) l (ar ++ header) Hlen Hl Hinv) as (items & S1 & L1).
    exists (header ++ Scalar (ptr_cookie T) :: items). split.
    + rewrite S1. now rewrite <- app_assoc.
    + intros t0 rest Ht0. destruct t0 as [| | l0 | | |]; try discriminate Ht0.
      cbn in Ht0. apply andb_true_iff in Ht0 as [HN0 Hl0]. apply Nat.eqb_eq in HN0.
      rewrite wrap_load_array_eq. subst header. cbn [app].
      rewrite preamble_load_store. cbn [mbind outcome_bind].
      rewrite load_size_store. cbn [mbind outcome_bind].
      assert (E : length l0 = length l) by congruence.
      rewrite E, Nat.eqb_refl. rewrite (L1 l0 rest E (fun _ => Hl0)).
      cbn [mbind outcome_bind overlay]. destruct (plain T); reflexivity.
  - (* T[n] *)
    destruct v as [| | l | | |]; try discriminate Hwt. cbn in Hwt, Hsm.
    apply andb_true_iff in Hwt as [HN Hl]. apply Nat.eqb_eq in HN.
    apply andb_true_iff in Hsm as [Hlen Hsl]. apply Z.ltb_lt in Hlen.
    pose proof (invertible_elements T l IH Hl Hsl) as Hinv.
    rewrite wrap_store_c_array. subst n.
    destruct (inverse_array (plain T) (ptr_cookie T) (wt T) (wrap_store T) (wrap_load T)
                (overlay T) l ar Hlen Hl Hinv) as (items & S1 & L1).
    exists (Scalar (ptr_cookie T) :: items). split; [exact S1|].
    intros t0 rest Ht0. destruct t0 as [| | l0 | | |]; try discriminate Ht0.
    cbn in Ht0. apply andb_true_iff in Ht0 as [HN0 Hl0]. apply Nat.eqb_eq in HN0.
    rewrite wrap_load_c_array. cbn [app].
    rewrite (L1 l0 rest HN0 (fun _ => Hl0)).
    cbn [mbind outcome_bind overlay]. destruct (plain T); reflexivity.
  - (* std::string *)
    destruct v as [| | l | | |]; try discriminate Hwt. cbn in Hwt, Hsm.
    apply andb_true_iff in Hsm as [Hlen _]. apply Z.ltb_lt in Hlen.
    set (header := [Scalar 31; Scalar (fund_cookie F_ulong);
                    Scalar (Z.of_nat (length l))]).
    assert (Hhead : store_size (length l) (preamble_store 31 ar) = ar ++ header).
    { unfold store_size. rewrite store_fund_eq. unfold preamble_store, ar_store.
      now rewrite <- app_assoc. }
    rewrite wrap_store_string, Hhead.
    destruct (inverse_array (plain (AFund F_char)) (ptr_cookie (AFund F_char))
                is_scalar _ _ _ l (ar ++ header) Hlen Hwt (scalar_elements F_char l Hwt))
      as (items & S1 & L1).
    exists (header ++ Scalar (ptr_cookie (AFund F_char)) :: items). split.
    + rewrite S1. now rewrite <- app_assoc.
    + intros t0 rest Ht0. destruct t0 as [| | l0 | | |]; try discriminate Ht0.
      cbn in Ht0.
      rewrite wrap_load_string. subst header. cbn [app].
      rewrite preamble_load_store. cbn [mbind outcome_bind].
      rewrite load_size_store. cbn [mbind outcome_bind].
      rewrite (L1 (resize (AFund F_char) (length l) l0) rest (resize_length _ _ _)).
      * cbn [mbind outcome_bind overlay].
        destruct (plain (AFund F_char)); [reflexivity|].
        rewrite overlay_each_values by apply resize_length. reflexivity.
      * intros _. now apply resize_scalar.
  - (* std::pair *)
    destruct v as [| | | a b | |]; try discriminate Hwt. cbn in Hwt, Hsm.
    apply andb_true_iff in Hwt as [Ha Hb]. apply andb_true_iff in Hsm as [Sa Sb].
    destruct (IHT a Ha Sa (preamble_store 255 ar)) as (i1 & S1 & L1).
    destruct (IHQ b Hb Sb (preamble_store 255 ar ++ i1)) as (i2 & S2 & L2).
    exists (Scalar 255 :: i1 ++ i2). split.
    + rewrite wrap_store_pair, S1. cbn [mbind outcome_bind]. rewrite S2.
      unfold preamble_store, ar_store. now rewrite <- !app_assoc.
    + intros t0 rest Ht0. destruct t0 as [| | | a0 b0 | |]; try discriminate Ht0.
      cbn in Ht0. apply andb_true_iff in Ht0 as [Ha0 Hb0].
      rewrite wrap_load_pair. cbn [app]. rewrite preamble_load_store.
      cbn [mbind outcome_bind]. rewrite <- app_assoc, (L1 a0 _ Ha0).
      cbn [mbind outcome_bind]. rewrite (L2 b0 rest Hb0). reflexivity.
  - (* std::tuple *)
    destruct v as [| | | | l |]; try discriminate Hwt.
    rewrite wt_tuple in Hwt. apply andb_true_iff in Hwt as [_ Hm]. cbn in Hsm.
    destruct (inverse_members Types IH l Hm Hsm (preamble_store 255 ar))
      as (items & S1 & L1).
    exists (Scalar 255 :: items). split.
    + rewrite wrap_store_tuple, S1. unfold preamble_store, ar_store.
      now rewrite <- app_assoc.
    + intros t0 rest Ht0. destruct t0 as [| | | | l0 |]; try discriminate Ht0.
      rewrite wt_tuple in Ht0. apply andb_true_iff in Ht0 as [_ Hm0].
      rewrite wrap_load_tuple. cbn [app]. rewrite preamble_load_store.
      cbn [mbind outcome_bind]. rewrite (L1 l0 rest Hm0). reflexivity.
  - (* std::map *)
    destruct v as [| | | | | m]; try discriminate Hwt. cbn in Hwt, Hsm.
    apply andb_true_iff in Hwt as [_ Hm].
    set (header := [Scalar 255; Scalar (fund_cookie F_ulong);
                    Scalar (Z.of_nat (length m))]).
    assert (Hhead : store_size (length m) (preamble_store 255 ar) = ar ++ header).
    { unfold store_size. rewrite store_fund_eq. unfold preamble_store, ar_store.
      now rewrite <- app_assoc. }
    destruct (inverse_entries k Q IH m Hm Hsm (ar ++ header)) as (items & S1 & L1).
    exists (header ++ items). split.
    + rewrite wrap_store_map, Hhead, S1. now rewrite <- app_assoc.
    + intros t0 rest Ht0. destruct t0 as [| | | | | m0]; try discriminate Ht0.
      rewrite wrap_load_map. subst header. cbn [app].
      rewrite preamble_load_store. cbn [mbind outcome_bind].
      rewrite load_size_store. cbn [mbind outcome_bind].
      rewrite (L1 m0 rest). reflexivity.
Qed.


(** *** Loads that replace the object *)

(** Whether a [std::map] occurs in the type. *)
Fixpoint has_map (T : sty) : bool :=
  match T with
  | AMap _ _ => true
  | AVector T' | AArray T' _ | ACArray T' _ => has_map T'
  | APair T' Q => has_map T' || has_map Q
  | ATuple Types => existsb has_map Types
  | _ => false
  end.

Lemma overlay_each_id (ov : aval -> aval -> aval) (P : aval -> Prop)
    (okv : aval -> bool) targets l :
  (forall t0 x, P t0 -> okv x = true -> ov t0 x = x) ->
  length targets = length l ->
  Forall P targets -> forallb okv l = true ->
  overlay_each ov targets l = l.
Proof.
  intros Hov. revert targets. induction l as [| x l IH]; intros [| t0 ts] Hlen Ht Hl;
    try discriminate Hlen; [reflexivity|].
  inversion Ht as [| ? ? Ht0 Hts]; subst. cbn in Hl.
  apply andb_true_iff in Hl as [Hx Hl]. cbn. rewrite Hov by assumption.
  f_equal. apply IH; [now injection Hlen | assumption | assumption].
Qed.

Lemma Forall_of_forallb {A} (f : A -> bool) l :
  forallb f l = true -> Forall (fun x => f x = true) l.
Proof.
  intros H. apply Forall_forall. intros x Hx. rewrite forallb_forall in H.
  apply H. now apply list_elem_of_In.
Qed.

Lemma Forall_replicate_eq {A} n (x : A) : Forall (fun y => y = x) (replicate n x).
Proof. induction n; cbn; constructor; auto. Qed.

Lemma keys_below_last (acc : list (Z * aval)) key value m :
  strictly_sorted (map fst (acc ++ (key, value) :: m)) = true ->
  Forall (fun p => fst p < key) acc.
Proof.
  induction acc as [| [k0 v0] acc IH]; intros H; [constructor|].
  assert (Htail : strictly_sorted (map fst (acc ++ (key, value) :: m)) = true).
  { cbn in H. destruct (map fst (acc ++ (key, value) :: m)) eqn:E; [reflexivity|].
    now apply andb_true_iff in H as [_ H]. }
  specialize (IH Htail). constructor; [|exact IH].
  cbn [fst]. destruct acc as [| [k1 v1] acc'].
  - cbn in H. apply andb_true_iff in H as [H _]. now apply Z.ltb_lt in H.
  - cbn in H. apply andb_true_iff in H as [H _]. apply Z.ltb_lt in H.
    inversion IH as [| ? ? H1 _]; subst. cbn in H1. lia.
Qed.

Lemma map_assign_last key value acc :
  Forall (fun p => fst p < key) acc ->
  map_assign key value acc = acc ++ [(key, value)].
Proof.
  induction 1 as [| [k0 v0] acc H0 _ IH]; [reflexivity|]. cbn in H0. cbn.
  destruct (Z.ltb_spec key k0); [lia|]. destruct (Z.eqb_spec key k0); [lia|].
  now rewrite IH.
Qed.

Lemma fold_assign_sorted (f : aval -> aval) m :
  forall acc,
    strictly_sorted (map fst (acc ++ m)) = true ->
    Forall (fun p => f (snd p) = snd p) m ->
    fold_left (fun acc p => map_assign (fst p) (f (snd p)) acc) m acc = acc ++ m.
Proof.
  induction m as [| [key value] m IH]; intros acc Hs Hf; cbn [fold_left].
  - now rewrite app_nil_r.
  - inversion Hf as [| ? ? Hv Hf']; subst. cbn [fst snd] in *.
    rewrite Hv, (map_assign_last key value acc (keys_below_last _ _ _ _ Hs)).
    rewrite IH; [now rewrite <- app_assoc | now rewrite <- app_assoc | assumption].
Qed.

Lemma overlay_fresh T : forall v, wt T v = true -> overlay T (default T) v = v.
Proof.
  induction T as [k | k | T IH | | T N IH | T n IH | | T Q IHT IHQ | Types IH | k Q IH]
    using sty_ind; intros v Hwt; try reflexivity.
  - destruct v as [| | l | | |];
      try (cbn in Hwt; destruct T as [[] | | | | | | | | |]; discriminate Hwt).
    pose proof (wt_vector _ _ Hwt) as Hl.
    cbn [overlay default]. destruct (plain T); [reflexivity|]. f_equal.
    unfold resize. cbn [length]. destruct l as [| x l]; [reflexivity|].
    cbn [length Nat.eqb].
    apply (overlay_each_id _ (fun t0 => t0 = default T) (wt T)).
    + intros t0 y -> Hy. now apply IH.
    + apply length_replicate.
    + apply Forall_replicate_eq.
    + exact Hl.
  - destruct v as [| | l | | |]; try discriminate Hwt. cbn in Hwt.
    apply andb_true_iff in Hwt as [HN Hl]. apply Nat.eqb_eq in HN.
    cbn [overlay default]. destruct (plain T); [reflexivity|]. f_equal.
    apply (overlay_each_id _ (fun t0 => t0 = default T) (wt T)).
    + intros t0 y -> Hy. now apply IH.
    + now rewrite length_replicate.
    + apply Forall_replicate_eq.
    + exact Hl.
  - destruct v as [| | l | | |]; try discriminate Hwt. cbn in Hwt.
    apply andb_true_iff in Hwt as [HN Hl]. apply Nat.eqb_eq in HN.
    cbn [overlay default]. destruct (plain T); [reflexivity|]. f_equal.
    apply (overlay_each_id _ (fun t0 => t0 = default T) (wt T)).
    + intros t0 y -> Hy. now apply IH.
    + now rewrite length_replicate.
    + apply Forall_replicate_eq.
    + exact Hl.
  - destruct v as [| | | a b | |]; try discriminate Hwt. cbn in Hwt.
    apply andb_true_iff in Hwt as [Ha Hb]. cbn [overlay default].
    now rewrite IHT, IHQ.
  - destruct v as [| | | | l |]; try discriminate Hwt.
    rewrite wt_tuple in Hwt. apply andb_true_iff in Hwt as [_ Hm].
    cbn [default]. rewrite overlay_tuple. f_equal.
    revert l Hm. induction IH as [| T0 Ts H0 _ IHTs]; intros l Hm.
    + destruct l; [reflexivity | discriminate Hm].
    + destruct l as [| x l]; [discriminate Hm|]. cbn in Hm.
      apply andb_true_iff in Hm as [Hx Hm]. cbn [map overlay_members].
      now rewrite (H0 x Hx), (IHTs l Hm).
  - destruct v as [| | | | | m]; try discriminate Hwt. cbn in Hwt.
    apply andb_true_iff in Hwt as [Hks Hm]. apply andb_true_iff in Hks as [_ Hs].
    cbn [overlay default]. f_equal.
    rewrite (fold_assign_sorted (overlay Q (default Q)) m []); [reflexivity | exact Hs |].
    apply Forall_forall. intros p Hp. apply IH. rewrite forallb_forall in Hm.
    apply Hm. now apply list_elem_of_In.
Qed.

Lemma overlay_no_map T :
  has_map T = false ->
  forall t0 v, wt T v = true -> wt T t0 = true -> overlay T t0 v = v.
Proof.
  induction T as [k | k | T IH | | T N IH | T n IH | | T Q IHT IHQ | Types IH | k Q IH]
    using sty_ind; intros Hmap t0 v Hwt Ht0; try reflexivity; cbn [has_map] in Hmap.
  - destruct v as [| | l | | |];
      try (cbn in Hwt; destruct T as [[] | | | | | | | | |]; discriminate Hwt).
    destruct t0 as [| | l0 | | |];
      try (cbn in Ht0; destruct T as [[] | | | | | | | | |]; discriminate Ht0).
    pose proof (wt_vector _ _ Hwt) as Hl. pose proof (wt_vector _ _ Ht0) as Hl0.
    cbn [overlay]. destruct (plain T); [reflexivity|]. f_equal.
    apply (overlay_each_id _ (fun t0 => wt T t0 = true) (wt T)).
    + intros; now apply IH.
    + apply resize_length.
    + apply Forall_of_forallb.
      destruct l as [| x l']; [now apply (resize_wt T 0 l0 (Scalar 0))|].
      cbn in Hl. apply andb_true_iff in Hl as [Hx _]. now apply (resize_wt T _ l0 x).
    + exact Hl.
  - destruct v as [| | l | | |]; try discriminate Hwt.
    destruct t0 as [| | l0 | | |]; try discriminate Ht0. cbn in Hwt, Ht0.
    apply andb_true_iff in Hwt as [HN Hl]. apply Nat.eqb_eq in HN.
    apply andb_true_iff in Ht0 as [HN0 Hl0]. apply Nat.eqb_eq in HN0.
    cbn [overlay]. destruct (plain T); [reflexivity|]. f_equal.
    apply (overlay_each_id _ (fun t0 => wt T t0 = true) (wt T));
      [intros; now apply IH | congruence | now apply Forall_of_forallb | exact Hl].
  - destruct v as [| | l | | |]; try discriminate Hwt.
    destruct t0 as [| | l0 | | |]; try discriminate Ht0. cbn in Hwt, Ht0.
    apply andb_true_iff in Hwt as [HN Hl]. apply Nat.eqb_eq in HN.
    apply andb_true_iff in Ht0 as [HN0 Hl0]. apply Nat.eqb_eq in HN0.
    cbn [overlay]. destruct (plain T); [reflexivity|]. f_equal.
    apply (overlay_each_id _ (fun t0 => wt T t0 = true) (wt T));
      [intros; now apply IH | congruence | now apply Forall_of_forallb | exact Hl].
  - destruct v as [| | | a b | |]; try discriminate Hwt.
    destruct t0 as [| | | a0 b0 | |]; try discriminate Ht0. cbn in Hwt, Ht0.
    apply andb_true_iff in Hwt as [Ha Hb]. apply andb_true_iff in Ht0 as [Ha0 Hb0].
    apply orb_false_iff in Hmap as [HmT HmQ].
    cbn [overlay]. now rewrite IHT, IHQ.
  - destruct v as [| | | | l |]; try discriminate Hwt.
    destruct t0 as [| | | | l0 |]; try discriminate Ht0.
    rewrite wt_tuple in Hwt, Ht0. apply andb_true_iff in Hwt as [_ Hm].
    apply andb_true_iff in Ht0 as [_ Hm0].
    rewrite overlay_tuple. f_equal.
    revert l l0 Hm Hm0 Hmap. induction IH as [| T0 Ts H0 _ IHTs]; intros l l0 Hm Hm0 Hmap.
    + destruct l; [|discriminate Hm]. now destruct l0.
    + destruct l as [| x l]; [discriminate Hm|].
      destruct l0 as [| x0 l0]; [discriminate Hm0|]. cbn in Hm, Hm0, Hmap.
      apply andb_true_iff in Hm as [Hx Hm]. apply andb_true_iff in Hm0 as [Hx0 Hm0].
      apply orb_false_iff in Hmap as [Hmap0 Hmaps].
      cbn [overlay_members]. rewrite (H0 Hmap0 x0 x Hx Hx0).
      f_equal. now apply IHTs.
  - discriminate Hmap.
Qed.


(** X15.  What [operator&] stores it loads back, for every type of the
    header, fundamental, complex, vector, [vector<bool>], [std::array],
    [T[n]], string, pair, tuple and map, nested in any way, and whatever
    arrays the archive takes as plain: the store appends items to the
    archive, and the load of an archive that starts with them consumes
    exactly them.  An object that is loaded into keeps nothing of its own
    when it is value-initialised, or when no map occurs in the type: a
    vector and a string are resized.  (Every sequence has fewer than 2^32
    elements, the count that [wrap] takes.) *)
Theorem archive_roundtrip (T : sty) (v t0 : aval) (rest : archive) :
  wt T v = true -> small v = true -> wt T t0 = true ->
  exists items,
    wrap_store T v [] = Done items /\
    wrap_load T t0 (items ++ rest) = Done (overlay T t0 v, rest) /\
    (has_map T = false -> wrap_load T t0 (items ++ rest) = Done (v, rest)) /\
    wrap_load T (default T) (items ++ rest) = Done (v, rest).
Proof.
  intros Hwt Hsm Ht0. destruct (wrap_inverse T v Hwt Hsm []) as (items & S1 & L1).
  exists items. split; [exact S1|]. split; [now apply L1|]. split.
  - intros Hmap. rewrite (L1 t0 rest Ht0). now rewrite overlay_no_map.
  - rewrite (L1 (default T) rest (wt_default T v Hwt)). now rewrite overlay_fresh.
Qed.

(** *** Maps *)

Fixpoint map_find (key : Z) (t : list (Z * aval)) : option aval :=
  match t with
  | [] => None
  | (k, v) :: t' => if key =? k then Some v else map_find key t'
  end.

Lemma map_find_assign key k v t :
  map_find key (map_assign k v t) = if key =? k then Some v else map_find key t.
Proof.
  induction t as [| [k0 v0] t IH]; cbn; [reflexivity|].
  destruct (Z.ltb_spec k k0).
  - cbn. destruct (Z.eqb_spec key k); [reflexivity|]. reflexivity.
  - destruct (Z.eqb_spec k k0) as [-> | Hne].
    + cbn. destruct (Z.eqb_spec key k0); reflexivity.
    + cbn. rewrite IH. destruct (Z.eqb_spec key k0) as [-> | _]; [|reflexivity].
      destruct (Z.eqb_spec k0 k); [congruence | reflexivity].
Qed.

Lemma sorted_cons k keys :
  strictly_sorted (k :: keys) = true <->
  Forall (fun k' => k < k') keys /\ strictly_sorted keys = true.
Proof.
  revert k. induction keys as [| k1 keys IH]; intros k.
  - cbn. split; [intros _; split; [constructor | reflexivity] | reflexivity].
  - change (strictly_sorted (k :: k1 :: keys))
      with ((k <? k1) && strictly_sorted (k1 :: keys)).
    rewrite andb_true_iff, Z.ltb_lt. split.
    + intros [Hlt Hs]. split; [|exact Hs]. constructor; [exact Hlt|].
      apply IH in Hs as [Hall _]. eapply Forall_impl; [exact Hall|].
      cbn. intros; lia.
    + intros [Hall Hs]. inversion Hall; subst. auto.
Qed.

Lemma sorted_assign k v t :
  strictly_sorted (map fst t) = true ->
  strictly_sorted (map fst (map_assign k v t)) = true /\
  forall b, Forall (fun k' => b < k') (map fst t) -> b < k ->
            Forall (fun k' => b < k') (map fst (map_assign k v t)).
Proof.
  induction t as [| [k0 v0] t IH]; intros Hs.
  - cbn. split; [reflexivity|]. intros b _ Hb. repeat constructor. exact Hb.
  - cbn [map fst] in Hs. apply sorted_cons in Hs as [Hall Hs'].
    specialize (IH Hs') as [IH1 IH2]. cbn [map_assign].
    destruct (Z.ltb_spec k k0).
    + split.
      * cbn [map fst]. apply sorted_cons. split.
        -- constructor; [exact H|]. eapply Forall_impl; [exact Hall|]. cbn. intros; lia.
        -- apply sorted_cons. auto.
      * intros b Hb Hbk. cbn [map fst]. constructor; assumption.
    + destruct (Z.eqb_spec k k0) as [-> | Hne].
      * split.
        -- cbn [map fst]. apply sorted_cons. auto.
        -- intros b Hb Hbk. exact Hb.
      * split.
        -- cbn [map fst]. apply sorted_cons. split; [|exact IH1].
           apply IH2; [exact Hall | lia].
        -- intros b Hb Hbk. inversion Hb; subst. cbn [map fst].
           constructor; [assumption|]. now apply IH2.
Qed.

Lemma map_find_above k (m : list (Z * aval)) :
  Forall (fun k' => k < k') (map fst m) -> map_find k m = None.
Proof.
  induction m as [| [k0 v0] m IH]; intros H; [reflexivity|].
  inversion H; subst. cbn in *. destruct (Z.eqb_spec k k0); [lia|]. now apply IH.
Qed.

Lemma fold_assign_find (f : aval -> aval) m :
  strictly_sorted (map fst m) = true ->
  Forall (fun p => f (snd p) = snd p) m ->
  forall m0,
    strictly_sorted (map fst m0) = true ->
    let m' := fold_left (fun acc p => map_assign (fst p) (f (snd p)) acc) m m0 in
    strictly_sorted (map fst m') = true /\
    forall key, map_find key m' =
                match map_find key m with
                | Some x => Some x
                | None => map_find key m0
                end.
Proof.
  cbv zeta. induction m as [| [k v] m IH]; intros Hs Hf m0 Hs0; cbn [fold_left].
  - auto.
  - cbn [map fst] in Hs. apply sorted_cons in Hs as [Hall Hs'].
    inversion Hf as [| ? ? Hv Hf']; subst. cbn [fst snd] in *. rewrite Hv.
    destruct (IH Hs' Hf' (map_assign k v m0)) as [IH1 IH2];
      [now apply sorted_assign|].
    split; [exact IH1|]. intros key. rewrite IH2, map_find_assign. cbn [map_find].
    destruct (Z.eqb_spec key k) as [-> | Hne]; [|reflexivity].
    now rewrite (map_find_above k m Hall).
Qed.

(** X16.  The load of a map does not clear the map it loads into: the map
    keeps its entries, those of the stored map are assigned over them, and
    the keys stay in order.  A key of both maps gets the stored value, a
    key of the stored map alone is added, a key of the loaded-into map
    alone is kept. *)
Theorem map_load_merges (k : fund) (Q : sty) (m m0 : list (Z * aval))
    (rest : archive) :
  wt (AMap k Q) (MapOf m) = true -> small (MapOf m) = true ->
  wt (AMap k Q) (MapOf m0) = true ->
  exists items m',
    wrap_store (AMap k Q) (MapOf m) [] = Done items /\
    wrap_load (AMap k Q) (MapOf m0) (items ++ rest) = Done (MapOf m', rest) /\
    strictly_sorted (map fst m') = true /\
    forall key, map_find key m' =
                match map_find key m with
                | Some x => Some x
                | None => map_find key m0
                end.
Proof.
  intros Hwt Hsm Ht0.
  destruct (wrap_inverse (AMap k Q) (MapOf m) Hwt Hsm []) as (items & S1 & L1).
  specialize (L1 (MapOf m0) rest Ht0). cbn [overlay] in L1.
  cbn in Hwt, Ht0.
  apply andb_true_iff in Hwt as [Hks Hm]. apply andb_true_iff in Hks as [_ Hs].
  apply andb_true_iff in Ht0 as [Hks0 _]. apply andb_true_iff in Hks0 as [_ Hs0].
  assert (Hf : Forall (fun p => overlay Q (default Q) (snd p) = snd p) m).
  { apply Forall_forall. intros p Hp. apply overlay_fresh.
    rewrite forallb_forall in Hm. apply Hm. now apply list_elem_of_In. }
  destruct (fold_assign_find (overlay Q (default Q)) m Hs Hf m0 Hs0) as [F1 F2].
  eexists items, _. split; [exact S1|]. split; [exact L1|]. split; assumption.
Qed.

(** *** The type check *)

(** The cookie that an object of the type starts with in the archive: its
    own, or for a [T[n]] that of the pointer to its elements. *)
Definition first_cookie (T : sty) : Z :=
  match T with
  | ACArray T' _ => ptr_cookie T'
  | _ => cookie T
  end.

Lemma preamble_load_Done ck ar ar' :
  preamble_load ck ar = Done ar' -> ar = Scalar ck :: ar'.
Proof.
  unfold preamble_load. destruct ar as [| x ar0]; [discriminate|]. cbn.
  destruct x as [d | | | | |]; try discriminate. cbn.
  destruct (Z.eqb_spec d ck) as [-> | _]; [|discriminate]. now intros [= ->].
Qed.

Lemma wrap_load_preamble T t ar :
  wt T t = true ->
  exists k : archive -> outcome (aval * archive),
    wrap_load T t ar = ar0 ← preamble_load (first_cookie T) ar; k ar0.
Proof.
  intros Hwt. destruct T as [k | k | T | | T N | T n | | T Q | Types | k Q];
    try (eexists; reflexivity).
  destruct t as [| | l | | |]; try discriminate Hwt.
  exists (fun ar0 =>
            '(l', ar') ← serialize_in (plain T) (wt T) (wrap_load T) l (to_uint n) ar0;
            Done (Seq l', ar')).
  rewrite wrap_load_c_array. unfold wrap_load_array. cbn [first_cookie].
  destruct (preamble_load (ptr_cookie T) ar) as [ar0 | e]; reflexivity.
Qed.

(** X17.  The cookie is checked before anything else is read: an object
    stored as one type and loaded as a type with another cookie throws the
    type mismatch that names the two cookies, whatever follows in the
    archive. *)
Theorem cookie_is_checked (T U : sty) (v t0 : aval) (rest : archive) :
  wt T v = true -> small v = true -> wt U t0 = true ->
  first_cookie T <> first_cookie U ->
  exists items,
    wrap_store T v [] = Done items /\
    wrap_load U t0 (items ++ rest)
    = Thrown (CookieMismatch (first_cookie U) (first_cookie T)).
Proof.
  intros Hwt Hsm Ht0 Hne.
  destruct (wrap_inverse T v Hwt Hsm []) as (items & S1 & L1).
  exists items. split; [exact S1|].
  specialize (L1 (default T) rest (wt_default T v Hwt)).
  destruct (wrap_load_preamble T (default T) (items ++ rest) (wt_default T v Hwt))
    as (kT & ET).
  rewrite ET in L1. apply bind_Done in L1 as (ar0 & Hpre & _).
  apply preamble_load_Done in Hpre.
  destruct (wrap_load_preamble U t0 (items ++ rest) Ht0) as (kU & EU).
  rewrite EU, Hpre, preamble_load_other by assumption. reflexivity.
Qed.

(** X18.  The registrations of the header: two types with the same cookie,
    other than 255, are the same type, or [char] and [signed char], which
    share cookie 5.  The cookies of the registered types are below 64,
    those of the pointers to them from 64 to 127, below the cookies left
    to the user, and no pointer has the cookie of a type. *)
Theorem cookies_tell_types_apart (T U : sty) :
  cookie T = cookie U -> cookie T <> 255 ->
  (T = U \/ (T = AFund F_char /\ U = AFund F_schar)
         \/ (T = AFund F_schar /\ U = AFund F_char)) /\
  0 <= cookie T < 64 /\ 64 <= ptr_cookie T < 128 /\ ptr_cookie T <> cookie U.
Proof.
  intros E Hreg.
  assert (Hrange : 0 <= cookie T < 64).
  { destruct T as [[] | [] | [[] | | | | | | | | |] | | | | | | |]; cbn in *; lia. }
  assert (HU : 0 <= cookie U < 64) by lia.
  split; [|split; [exact Hrange|]].
  - destruct T as [[] | [] | [[] | | | | | | | | |] | | | | | | |];
      try (cbn in Hreg; lia);
      destruct U as [[] | [] | [[] | | | | | | | | |] | | | | | | |];
      try (cbn in E; discriminate E); auto.
  - unfold ptr_cookie. destruct (Z.eqb_spec (cookie T) 255); lia.
Qed.

(** *** Arrays of a fixed size *)

Lemma array_length_asserted T U M N t t0 ar r :
  wrap_load (AArray T M) t ar = Done r ->
  wt (AArray T M) t = true -> wt (AArray U N) t0 = true -> M <> N ->
  wrap_load (AArray U N) t0 ar = Thrown AssertionFailure.
Proof.
  intros H Ht Ht0 Hne.
  destruct t as [| | l | | |]; try discriminate Ht.
  destruct t0 as [| | l0 | | |]; try discriminate Ht0. cbn in Ht, Ht0.
  apply andb_true_iff in Ht as [HM _]. apply Nat.eqb_eq in HM.
  apply andb_true_iff in Ht0 as [HN _]. apply Nat.eqb_eq in HN.
  rewrite wrap_load_array_eq in H. rewrite wrap_load_array_eq.
  apply bind_Done in H as (ar0 & -> & H). cbn [mbind outcome_bind].
  apply bind_Done in H as ([n ar1] & -> & H). cbn [mbind outcome_bind].
  destruct (Nat.eqb_spec n (length l)) as [-> | _]; [|discriminate H].
  destruct (Nat.eqb_spec (length l) (length l0)); [congruence | reflexivity].
Qed.

(** X19.  A [std::array] has no cookie of its own, and its load asserts the
    stored length: a stored [std::array<T,M>] passes the type check of a
    load as [std::array<U,N>] for any [U], and with [N] other than [M] the
    load fails the assertion, before an element is read. *)
Theorem array_length_is_asserted (T U : sty) (M N : nat) (v t0 : aval)
    (rest : archive) :
  wt (AArray T M) v = true -> small v = true ->
  wt (AArray U N) t0 = true -> M <> N ->
  cookie (AArray T M) = cookie (AArray U N) /\
  exists items,
    wrap_store (AArray T M) v [] = Done items /\
    wrap_load (AArray U N) t0 (items ++ rest) = Thrown AssertionFailure.
Proof.
  intros Hwt Hsm Ht0 Hne. split; [reflexivity|].
  destruct (wrap_inverse (AArray T M) v Hwt Hsm []) as (items & S1 & L1).
  exists items. split; [exact S1|].
  eapply array_length_asserted; [apply (L1 v rest Hwt) | exact Hwt | exact Ht0 | exact Hne].
Qed.

(** *** Tuples *)

(** [ar & x] for each object of the list, in the order of the list. *)
Fixpoint store_in_order (l : list (sty * aval)) (ar : archive) : outcome archive :=
  match l with
  | [] => Done ar
  | (T, x) :: l' => ar' ← wrap_store T x ar; store_in_order l' ar'
  end.

Lemma store_in_order_app l1 l2 ar :
  store_in_order (l1 ++ l2) ar = ar' ← store_in_order l1 ar; store_in_order l2 ar'.
Proof.
  revert ar. induction l1 as [| [T x] l1 IH]; intros ar; cbn [app store_in_order].
  - reflexivity.
  - destruct (wrap_store T x ar) as [ar' | e]; cbn [mbind outcome_bind];
      [apply IH | reflexivity].
Qed.

(** X20.  A tuple is stored from its last member to its first, after the
    cookie 255 of an unregistered type.  So a tuple of two members has
    in the archive the form of the pair of the two in the opposite order,
    which the type check cannot tell from it. *)
Theorem tuple_is_stored_backwards (Types : list sty) (l : list aval) (ar : archive)
    (T Q : sty) (a b : aval) :
  length Types = length l ->
  wrap_store (ATuple Types) (Tuple l) ar
  = store_in_order (rev (combine Types l)) (preamble_store 255 ar) /\
  wrap_store (ATuple [T; Q]) (Tuple [a; b]) ar = wrap_store (APair Q T) (Pair b a) ar /\
  cookie (ATuple [T; Q]) = cookie (APair Q T).
Proof.
  intros Hlen. split; [|split; [|reflexivity]].
  - rewrite wrap_store_tuple. generalize (preamble_store 255 ar). clear ar.
    revert l Hlen. induction Types as [| T0 Ts IH]; intros [| x l] Hlen ar;
      try discriminate Hlen; [reflexivity|].
    cbn [store_members combine rev]. rewrite store_in_order_app, <- IH by now injection Hlen.
    destruct (store_members Ts l ar) as [ar' | e]; cbn [mbind outcome_bind];
      [|reflexivity].
    cbn [store_in_order]. destruct (wrap_store T0 x ar'); reflexivity.
  - rewrite wrap_store_tuple, wrap_store_pair. cbn [store_members mbind outcome_bind].
    reflexivity.
Qed.

(** *** The count of a wrapped array *)

Lemma to_uint_2_32 n : Z.of_nat n = 2 ^ 32 -> to_uint n = 0%nat.
Proof. intros H. unfold to_uint. rewrite H, Z.mod_same by lia. reflexivity. Qed.

(** X21.  [wrap] takes the number of elements as an [unsigned int], while
    the size that is stored before it is a [std::size_t].  So of a vector
    of plain elements with 2^32 elements only the size is stored, and no
    element: its load resizes the vector it loads into to that size and
    reads nothing into it. *)
Theorem plain_vector_count_is_truncated (T : sty) (v l0 : list aval) (rest : archive) :
  plain T = true -> Z.of_nat (length v) = 2 ^ 32 ->
  let items := [Scalar (cookie (AVector T)); Scalar (fund_cookie F_ulong);
                Scalar (Z.of_nat (length v)); Scalar (ptr_cookie T)] in
  wrap_store (AVector T) (Seq v) [] = Done items /\
  wrap_load (AVector T) (Seq l0) (items ++ rest)
  = Done (Seq (resize T (length v) l0), rest).
Proof.
  intros Hp Hlen. cbv zeta. split.
  - rewrite wrap_store_vector. cbv zeta. rewrite Hp.
    unfold wrap_store_array, serialize_out. rewrite (to_uint_2_32 _ Hlen).
    cbn [Nat.ltb Nat.leb firstn]. unfold store_size. rewrite store_fund_eq.
    reflexivity.
  - rewrite wrap_load_vector. cbn [app]. rewrite preamble_load_store.
    cbn [mbind outcome_bind]. rewrite load_size_store. cbn [mbind outcome_bind].
    cbv zeta. rewrite Hp. unfold wrap_load_array. rewrite preamble_load_store.
    cbn [mbind outcome_bind]. unfold serialize_in. rewrite (to_uint_2_32 _ Hlen).
    cbn [Nat.ltb Nat.leb ar_load mbind outcome_bind skipn app]. reflexivity.
Qed.

End Proofs.


(** *** Arrays of function pointers *)

Lemma scalars_are_scalar (l : list Z) : forallb is_scalar (map Scalar l) = true.
Proof. induction l; cbn; auto. Qed.

Lemma scalar_value_Scalar (l : list Z) : map scalar_value (map Scalar l) = l.
Proof. induction l as [| x l IH]; cbn; [reflexivity | now rewrite IH]. Qed.

(** X22.  An array of function pointers goes through the archive as one
    [std::ptrdiff_t] for each pointer: the first [n] pointers of the target
    become the stored pointers, each moved from the reference address of
    the storing process to that of the loading one, the others stay; in one
    process, or between two with the same reference address, the pointers
    come back as they were. *)
Theorem fn_ptr_array_through_archive (o1 o2 : Z) (t t0 : list Z) (n : nat)
    (ar rest : archive) :
  (n <= length t)%nat -> (n <= length t0)%nat ->
  exists items,
    serialize_fn_ptrs_out o1 t n ar = Done (ar ++ items) /\
    length items = n /\
    serialize_fn_ptrs_in o2 t0 n (items ++ rest)
    = Done (map (fun fn => to_abs_fn_ptr o2 (to_rel_fn_ptr o1 fn)) (firstn n t)
              ++ skipn n t0, rest) /\
    (o1 = o2 -> Forall Int64.in_range (firstn n t) ->
     serialize_fn_ptrs_in o2 t0 n (items ++ rest) = Done (firstn n t ++ skipn n t0, rest)).
Proof.
  intros Ht Ht0.
  set (items := map Scalar (map (to_rel_fn_ptr o1) (firstn n t))).
  assert (Hlen : length items = n).
  { subst items. rewrite !length_map, length_firstn. lia. }
  assert (Hin : serialize_fn_ptrs_in o2 t0 n (items ++ rest)
                = Done (map (fun fn => to_abs_fn_ptr o2 (to_rel_fn_ptr o1 fn)) (firstn n t)
                          ++ skipn n t0, rest)).
  { unfold serialize_fn_ptrs_in.
    destruct (Nat.ltb_spec (length t0) n) as [Hlt | _]; [lia|].
    rewrite <- Hlen at 1. subst items. rewrite ar_load_app by apply scalars_are_scalar.
    cbn [mbind outcome_bind]. rewrite scalar_value_Scalar, map_map. reflexivity. }
  exists items. split; [|split; [exact Hlen|split; [exact Hin|]]].
  - unfold serialize_fn_ptrs_out.
    destruct (Nat.ltb_spec (length t) n) as [Hlt | _]; [lia|]. reflexivity.
  - intros <- Hr. rewrite Hin. do 2 f_equal. clear -Hr.
    induction Hr as [| fn l Hfn _ IH]; cbn; [reflexivity|].
    now rewrite (ArchiveProofs.fn_ptr_roundtrip o1 fn Hfn), IH.
Qed.

Lemma to_rel_memfn_ptr_length origin abi p :
  length (to_rel_memfn_ptr origin abi p) = length p.
Proof.
  destruct abi, p as [| r0 [| r1 rest]]; cbn; try reflexivity.
  - destruct (r0 =? 0); [reflexivity|]. now destruct (Int64.even_bit r0).
  - destruct (Int64.even_bit r1); [|reflexivity]. now destruct (r0 =? 0).
Qed.

Lemma slots_by_pointer_concat width (l : list memfn_ptr) :
  Forall (fun p => length p = width) l ->
  slots_by_pointer width (length l) (concat l) = l.
Proof.
  induction 1 as [| p l Hp _ IH]; [reflexivity|].
  cbn [length concat slots_by_pointer]. subst width.
  now rewrite take_app_length, drop_app_length, IH.
Qed.

(** X23.  An array of member function pointers goes through the archive as
    the slots of the pointers one after the other, and is taken apart again
    by the width of a pointer: each of the first [n] targets becomes the
    stored pointer, encoded by the storing process and decoded by the
    loading one. *)
Theorem memfn_ptr_array_through_archive (o1 o2 : Z) (abi : cxx_abi) (width : nat)
    (t t0 : list memfn_ptr) (n : nat) (ar rest : archive) :
  (n <= length t)%nat -> (n <= length t0)%nat ->
  Forall (fun p => length p = width) (firstn n t) ->
  exists items,
    serialize_memfn_ptrs_out o1 abi t n ar = Done (ar ++ items) /\
    length items = (n * width)%nat /\
    serialize_memfn_ptrs_in o2 abi width t0 n (items ++ rest)
    = Done (map (fun p => to_abs_memfn_ptr o2 abi (to_rel_memfn_ptr o1 abi p))
              (firstn n t) ++ skipn n t0, rest).
Proof.
  intros Ht Ht0 Hw.
  set (t_rel := map (to_rel_memfn_ptr o1 abi) (firstn n t)).
  assert (Hrel : Forall (fun p => length p = width) t_rel).
  { subst t_rel. apply Forall_map. eapply Forall_impl; [exact Hw|].
    intros p Hp. cbn. now rewrite to_rel_memfn_ptr_length. }
  assert (Hn : length t_rel = n).
  { subst t_rel. rewrite length_map, length_firstn. lia. }
  assert (Hlen : length (concat t_rel) = (n * width)%nat).
  { rewrite <- Hn. clear Hn. induction Hrel as [| p l Hp _ IH]; [reflexivity|].
    cbn [concat length]. rewrite length_app, IH, Hp. lia. }
  exists (map Scalar (concat t_rel)). split; [|split].
  - unfold serialize_memfn_ptrs_out.
    destruct (Nat.ltb_spec (length t) n) as [Hlt | _]; [lia|]. reflexivity.
  - now rewrite length_map.
  - unfold serialize_memfn_ptrs_in.
    destruct (Nat.ltb_spec (length t0) n) as [Hlt | _]; [lia|].
    rewrite <- Hlen, <- (length_map Scalar (concat t_rel)).
    rewrite ar_load_app by apply scalars_are_scalar.
    cbn [mbind outcome_bind]. rewrite scalar_value_Scalar.
    rewrite <- Hn at 1. rewrite (slots_by_pointer_concat width t_rel Hrel).
    subst t_rel. now rewrite map_map.
Qed.

(** *** Opaque objects and single pointers *)

Lemma unsigned_of_bytes_from z n : forall k,
  unsigned_of_bytes (map (fun i => (z / 2 ^ (8 * Z.of_nat i)) mod 256) (seq k n))
  = (z / 2 ^ (8 * Z.of_nat k)) mod 2 ^ (8 * Z.of_nat n).
Proof.
  induction n as [| n IH]; intros k; cbn [seq map unsigned_of_bytes].
  - now rewrite Z.mod_1_r.
  - rewrite IH.
    replace (8 * Z.of_nat (S k)) with (8 * Z.of_nat k + 8) by lia.
    replace (8 * Z.of_nat (S n)) with (8 + 8 * Z.of_nat n) by lia.
    rewrite !Z.pow_add_r by lia. change (2 ^ 8) with 256.
    rewrite <- Z.div_div by lia.
    rewrite (Z.rem_mul_r _ 256 (2 ^ (8 * Z.of_nat n))) by lia. reflexivity.
Qed.

Lemma word_of_bytes_of_word z : Int64.in_range z -> word_of_bytes (bytes_of_word z) = z.
Proof.
  intros Hz. unfold word_of_bytes, bytes_of_word.
  rewrite unsigned_of_bytes_from. change (2 ^ (8 * Z.of_nat 0)) with 1.
  rewrite Z.div_1_r. change (2 ^ (8 * Z.of_nat 8)) with (2 ^ 64).
  unfold Int64.wrap. rewrite Zplus_mod_idemp_l.
  now apply Int64.wrap_id.
Qed.

Lemma bytes_of_word_length z : length (bytes_of_word z) = 8%nat.
Proof. reflexivity. Qed.

Lemma bytes_of_words_length words :
  length (bytes_of_words words) = (8 * length words)%nat.
Proof.
  unfold bytes_of_words. induction words as [| w ws IH]; [reflexivity|].
  cbn [map concat length]. rewrite length_app, IH, bytes_of_word_length. lia.
Qed.

Lemma words_of_bytes_of_words words :
  Forall Int64.in_range words ->
  words_of_bytes (length words) (bytes_of_words words) = words.
Proof.
  unfold bytes_of_words. induction 1 as [| w ws Hw _ IH]; [reflexivity|].
  cbn [map concat length words_of_bytes].
  rewrite <- (bytes_of_word_length w) at 1 2.
  now rewrite take_app_length, drop_app_length, word_of_bytes_of_word, IH.
Qed.

Lemma to_rel_memfn_ptr_in_range origin abi p :
  Forall Int64.in_range p -> Forall Int64.in_range (to_rel_memfn_ptr origin abi p).
Proof.
  intros Hp.
  assert (Hmin : Int64.in_range Int64.min_signed).
  { unfold Int64.in_range, Int64.min_signed, Int64.max_signed. lia. }
  destruct abi, p as [| r0 [| r1 rest]]; cbn; try assumption.
  - inversion Hp as [| ? ? H0 Hp']; subst. inversion Hp' as [| ? ? H1 Hrest]; subst.
    destruct (r0 =? 0); [constructor; [assumption | constructor; assumption]|].
    destruct (Int64.even_bit r0); [|assumption].
    constructor; [apply Int64.wrap_in_range | assumption].
  - inversion Hp as [| ? ? H0 Hp']; subst. inversion Hp' as [| ? ? H1 Hrest]; subst.
    destruct (Int64.even_bit r1); [|assumption].
    destruct (r0 =? 0); [constructor; assumption|].
    constructor; [apply Int64.wrap_in_range | assumption].
Qed.

Section Pointers.
Variable plain : sty -> bool.

Lemma opaque_inverse (words : list Z) (ar : archive) :
  Forall Int64.in_range words ->
  Z.of_nat (8 * length words) < 2 ^ 32 ->
  exists items,
    store_opaque plain words ar = Done (ar ++ items) /\
    forall rest,
      load_opaque plain (length words) (items ++ rest) = Done (words, rest).
Proof.
  intros Hr Hsmall. unfold store_opaque, load_opaque.
  set (bytes := map Scalar (bytes_of_words words)).
  assert (Hlen : length bytes = (8 * length words)%nat).
  { subst bytes. now rewrite length_map, bytes_of_words_length. }
  assert (Hsc : forallb is_scalar bytes = true) by apply scalars_are_scalar.
  destruct (inverse_array (plain (AFund F_uchar)) (ptr_cookie (AFund F_uchar))
              is_scalar (amp_store_fund F_uchar) (amp_load_fund F_uchar)
              (fun _ x => x) bytes ar) as (items & S1 & L1).
  { now rewrite Hlen. }
  { exact Hsc. }
  { now apply scalar_elements. }
  exists (Scalar (ptr_cookie (AFund F_uchar)) :: items). split; [exact S1|].
  intros rest. rewrite <- Hlen. cbn [app].
  rewrite (L1 (replicate (length bytes) (Scalar 0)) rest (length_replicate _ _)).
  - cbn [mbind outcome_bind].
    assert (E : (if plain (AFund F_uchar) then bytes
                 else overlay_each (fun _ x => x)
                        (replicate (length bytes) (Scalar 0)) bytes) = bytes).
    { destruct (plain (AFund F_uchar)); [reflexivity|].
      apply overlay_each_values, length_replicate. }
    rewrite E. subst bytes. rewrite scalar_value_Scalar.
    now rewrite words_of_bytes_of_words.
  - intros _. now apply forallb_replicate.
Qed.

(** X24.  One function pointer through [operator&], whether the archive
    takes function pointers as they are or not: after the cookie of an
    unregistered type the relative pointer is stored, as one
    [std::ptrdiff_t] or as its eight bytes behind the cookie of
    [unsigned char*], and the pointer that is loaded is the stored one
    moved from the reference address of the storing process to that of the
    loading one; what the target held does not matter. *)
Theorem fn_ptr_through_archive (plain_fn_ptr : bool) (o1 o2 fn target : Z)
    (rest : archive) :
  exists items,
    store_fn_ptr plain o1 plain_fn_ptr fn [] = Done (Scalar 255 :: items) /\
    (plain_fn_ptr = true -> items = [Scalar (to_rel_fn_ptr o1 fn)]) /\
    load_fn_ptr plain o2 plain_fn_ptr target (Scalar 255 :: items ++ rest)
    = Done (to_abs_fn_ptr o2 (to_rel_fn_ptr o1 fn), rest).
Proof.
  unfold store_fn_ptr, load_fn_ptr. destruct plain_fn_ptr.
  - exists [Scalar (to_rel_fn_ptr o1 fn)]. split; [reflexivity|].
    split; [reflexivity|]. cbn [app]. rewrite preamble_load_store. reflexivity.
  - assert (Hr : Forall Int64.in_range [to_rel_fn_ptr o1 fn]).
    { constructor; [apply Int64.wrap_in_range | constructor]. }
    destruct (opaque_inverse [to_rel_fn_ptr o1 fn] (preamble_store 255 []) Hr)
      as (items & S1 & L1); [cbn; lia|].
    exists items. split; [exact S1|]. split; [discriminate|].
    rewrite preamble_load_store. cbn [mbind outcome_bind].
    specialize (L1 rest). cbn [length] in L1. rewrite L1. reflexivity.
Qed.

(** X25.  One member function pointer through [operator&], on an archive
    that does not take member function pointers as they are.  A pointer to
    a non-const member function is stored in its relative form and arrives
    decoded by the loading process.  A pointer to a const member function
    is stored in its absolute form, and it is taken by value: the load
    consumes what was stored and leaves the pointer that is loaded into as
    it was.  (Where the archive takes them as they are, both are stored
    relative and loaded.) *)
Theorem memfn_ptr_through_archive (o1 o2 : Z) (abi : cxx_abi) (width : nat)
    (plain_memfn_ptr is_const : bool) (memfn target : memfn_ptr) (rest : archive) :
  length memfn = width -> Forall Int64.in_range memfn ->
  Z.of_nat (8 * width) < 2 ^ 32 ->
  exists items,
    store_memfn_ptr plain o1 abi plain_memfn_ptr is_const memfn [] = Done items /\
    load_memfn_ptr plain o2 abi width plain_memfn_ptr is_const target (items ++ rest)
    = Done (if negb plain_memfn_ptr && is_const then target
            else to_abs_memfn_ptr o2 abi (to_rel_memfn_ptr o1 abi memfn), rest) /\
    (plain_memfn_ptr = false -> is_const = true ->
     forall rest', load_opaque plain width (skipn 1 items ++ rest') = Done (memfn, rest')).
Proof.
  intros Hw Hr Hsmall. unfold store_memfn_ptr, load_memfn_ptr.
  destruct plain_memfn_ptr; cbn [negb andb].
  - exists (Scalar 255 :: map Scalar (to_rel_memfn_ptr o1 abi memfn)).
    split; [|split; [|discriminate]].
    + unfold serialize_memfn_ptrs_out. cbn. now rewrite app_nil_r.
    + cbn [app]. rewrite preamble_load_store. cbn [mbind outcome_bind].
      unfold serialize_memfn_ptrs_in. cbn [length Nat.ltb Nat.leb].
      rewrite Nat.mul_1_l.
      rewrite <- Hw, <- (to_rel_memfn_ptr_length o1 abi memfn),
        <- (length_map Scalar).
      rewrite ar_load_app by apply scalars_are_scalar. cbn [mbind outcome_bind].
      rewrite scalar_value_Scalar. cbn [slots_by_pointer map].
      rewrite length_map, firstn_all. reflexivity.
  - destruct is_const.
    + destruct (opaque_inverse memfn (preamble_store 255 []) Hr) as (items & S1 & L1);
        [now rewrite Hw|].
      exists (Scalar 255 :: items). split; [exact S1|]. split.
      * cbn [app]. rewrite preamble_load_store. cbn [mbind outcome_bind].
        rewrite <- Hw, (L1 rest). reflexivity.
      * intros _ _ rest'. cbn [skipn]. rewrite <- Hw. apply L1.
    + pose proof (to_rel_memfn_ptr_in_range o1 abi memfn Hr) as Hr'.
      pose proof (to_rel_memfn_ptr_length o1 abi memfn) as Hl.
      destruct (opaque_inverse (to_rel_memfn_ptr o1 abi memfn) (preamble_store 255 []) Hr')
        as (items & S1 & L1); [now rewrite Hl, Hw|].
      exists (Scalar 255 :: items). split; [exact S1|]. split; [|discriminate].
      cbn [app]. rewrite preamble_load_store. cbn [mbind outcome_bind].
      rewrite <- Hw, <- Hl, (L1 rest). reflexivity.
Qed.

(** X26.  An [archive_ptr] is a bitwise copy of the pointer: it is stored
    as the eight bytes of the pointer behind the cookies of an unregistered
    type and of [unsigned char*], and the load gives the same address back,
    in whatever process it runs. *)
Theorem archive_ptr_is_copied (ptr : Z) (rest : archive) :
  Int64.in_range ptr ->
  exists items,
    store_archive_ptr plain ptr [] = Done (Scalar 255 :: Scalar 64 :: items) /\
    load_archive_ptr plain (Scalar 255 :: Scalar 64 :: items ++ rest) = Done (ptr, rest).
Proof.
  intros Hr. unfold store_archive_ptr, load_archive_ptr.
  assert (Hrs : Forall Int64.in_range [ptr]) by (constructor; [assumption | constructor]).
  destruct (opaque_inverse [ptr] (preamble_store 255 []) Hrs) as (items & S1 & L1);
    [cbn; lia|].
  assert (Hhead : exists items', items = Scalar 64 :: items').
  { pose proof (L1 []) as L0. unfold load_opaque, wrap_load_array in L0.
    apply bind_Done in L0 as (a & L0 & _).
    apply bind_Done in L0 as (ar0 & L0 & _).
    apply preamble_load_Done in L0. rewrite app_nil_r in L0.
    exists ar0. exact L0. }
  destruct Hhead as (items' & ->). exists items'. split; [exact S1|].
  rewrite preamble_load_store. cbn [mbind outcome_bind].
  change (Scalar 64 :: items' ++ rest) with ((Scalar 64 :: items') ++ rest).
  specialize (L1 rest). cbn [length] in L1. rewrite L1. reflexivity.
Qed.

End Pointers.

(** *** The properties on an archive that takes fundamental arrays as plain *)

Section Runs.

Definition fundamental_only (T : sty) : bool :=
  match T with AFund _ => true | _ => false end.

(** A vector of pairs of a string and a complex number. *)
Definition a_type : sty := AVector (APair AString (AComplex F_double)).
Definition a_value : aval :=
  Seq [Pair (Seq [Scalar 104; Scalar 105]) (Complex 1 2);
       Pair (Seq []) (Complex 3 4)].
Definition a_target : aval := Seq [Pair (Seq [Scalar 120]) (Complex 0 0)].

Lemma archive_roundtrip_witness :
  exists items,
    wrap_store fundamental_only a_type a_value [] = Done items /\
    wrap_load fundamental_only a_type a_target (items ++ [Scalar 77])
    = Done (overlay fundamental_only a_type a_target a_value, [Scalar 77]) /\
    (has_map a_type = false ->
     wrap_load fundamental_only a_type a_target (items ++ [Scalar 77])
     = Done (a_value, [Scalar 77])) /\
    wrap_load fundamental_only a_type (default a_type) (items ++ [Scalar 77])
    = Done (a_value, [Scalar 77]).
Proof.
  apply (archive_roundtrip fundamental_only a_type a_value a_target [Scalar 77]);
    reflexivity.
Defined.

Definition a_map : list (Z * aval) := [(1, Scalar 10); (3, Scalar 30)].
Definition another_map : list (Z * aval) := [(2, Scalar 21); (3, Scalar 31)].

Lemma map_load_merges_witness :
  exists items m',
    wrap_store fundamental_only (AMap F_int (AFund F_long)) (MapOf a_map) [] = Done items /\
    wrap_load fundamental_only (AMap F_int (AFund F_long)) (MapOf another_map) (items ++ [])
    = Done (MapOf m', []) /\
    strictly_sorted (map fst m') = true /\
    forall key, map_find key m' =
                match map_find key a_map with
                | Some x => Some x
                | None => map_find key another_map
                end.
Proof.
  apply (map_load_merges fundamental_only F_int (AFund F_long) a_map another_map []);
    reflexivity.
Defined.

Lemma cookie_is_checked_witness :
  exists items,
    wrap_store fundamental_only (AFund F_int) (Scalar 3) [] = Done items /\
    wrap_load fundamental_only (AFund F_long) (Scalar 0) (items ++ [])
    = Thrown (CookieMismatch (first_cookie (AFund F_long)) (first_cookie (AFund F_int))).
Proof.
  apply (cookie_is_checked fundamental_only (AFund F_int) (AFund F_long)
           (Scalar 3) (Scalar 0) []); try reflexivity.
  discriminate.
Defined.

Lemma cookies_tell_types_apart_witness :
  (AFund F_char = AFund F_schar \/
   (AFund F_char = AFund F_char /\ AFund F_schar = AFund F_schar) \/
   (AFund F_char = AFund F_schar /\ AFund F_schar = AFund F_char)) /\
  0 <= cookie (AFund F_char) < 64 /\
  64 <= ptr_cookie (AFund F_char) < 128 /\
  ptr_cookie (AFund F_char) <> cookie (AFund F_schar).
Proof.
  apply (cookies_tell_types_apart (AFund F_char) (AFund F_schar)).
  - reflexivity.
  - discriminate.
Defined.

Lemma array_length_is_asserted_witness :
  cookie (AArray (AFund F_int) 2) = cookie (AArray (AFund F_double) 3) /\
  exists items,
    wrap_store fundamental_only (AArray (AFund F_int) 2) (Seq [Scalar 1; Scalar 2]) []
    = Done items /\
    wrap_load fundamental_only (AArray (AFund F_double) 3)
      (Seq [Scalar 0; Scalar 0; Scalar 0]) (items ++ [])
    = Thrown AssertionFailure.
Proof.
  apply (array_length_is_asserted fundamental_only (AFund F_int) (AFund F_double) 2 3
           (Seq [Scalar 1; Scalar 2]) (Seq [Scalar 0; Scalar 0; Scalar 0]) []);
    try reflexivity.
  discriminate.
Defined.

Lemma tuple_is_stored_backwards_witness :
  wrap_store fundamental_only (ATuple [AFund F_double; AFund F_int; AString])
    (Tuple [Scalar 1; Scalar 2; Seq [Scalar 97]]) []
  = store_in_order fundamental_only
      (rev (combine [AFund F_double; AFund F_int; AString]
              [Scalar 1; Scalar 2; Seq [Scalar 97]]))
      (preamble_store 255 []) /\
  wrap_store fundamental_only (ATuple [AFund F_int; AString])
    (Tuple [Scalar 2; Seq [Scalar 97]]) []
  = wrap_store fundamental_only (APair AString (AFund F_int))
      (Pair (Seq [Scalar 97]) (Scalar 2)) [] /\
  cookie (ATuple [AFund F_int; AString]) = cookie (APair AString (AFund F_int)).
Proof.
  apply (tuple_is_stored_backwards fundamental_only
           [AFund F_double; AFund F_int; AString]
           [Scalar 1; Scalar 2; Seq [Scalar 97]] []
           (AFund F_int) AString (Scalar 2) (Seq [Scalar 97])).
  reflexivity.
Defined.

Lemma fn_ptr_array_through_archive_witness :
  exists items,
    serialize_fn_ptrs_out 4096 [4112; 4128; 0] 2 [] = Done ([] ++ items) /\
    length items = 2%nat /\
    serialize_fn_ptrs_in 8192 [0; 0; 7] 2 (items ++ [])
    = Done (map (fun fn => to_abs_fn_ptr 8192 (to_rel_fn_ptr 4096 fn))
              (firstn 2 [4112; 4128; 0]) ++ skipn 2 [0; 0; 7], []) /\
    (4096 = 8192 -> Forall Int64.in_range (firstn 2 [4112; 4128; 0]) ->
     serialize_fn_ptrs_in 8192 [0; 0; 7] 2 (items ++ [])
     = Done (firstn 2 [4112; 4128; 0] ++ skipn 2 [0; 0; 7], [])).
Proof.
  apply (fn_ptr_array_through_archive 4096 8192 [4112; 4128; 0] [0; 0; 7] 2 [] []);
    cbn; lia.
Defined.

Lemma memfn_ptr_array_through_archive_witness :
  exists items,
    serialize_memfn_ptrs_out 4096 GenericItanium [[4128; 16]; [0; 0]] 2 []
    = Done ([] ++ items) /\
    length items = (2 * 2)%nat /\
    serialize_memfn_ptrs_in 4096 GenericItanium 2 [[]; []] 2 (items ++ [])
    = Done (map (fun p => to_abs_memfn_ptr 4096 GenericItanium
                            (to_rel_memfn_ptr 4096 GenericItanium p))
              (firstn 2 [[4128; 16]; [0; 0]]) ++ skipn 2 [[]; []], []).
Proof.
  apply (memfn_ptr_array_through_archive 4096 4096 GenericItanium 2
           [[4128; 16]; [0; 0]] [[]; []] 2 [] []).
  - cbn. lia.
  - cbn. lia.
  - repeat constructor.
Defined.

Lemma plain_vector_count_is_truncated_witness :
  let v := replicate (Z.to_nat (2 ^ 32)) (Scalar 1) in
  let items := [Scalar (cookie (AVector (AFund F_int))); Scalar (fund_cookie F_ulong);
                Scalar (Z.of_nat (length v)); Scalar (ptr_cookie (AFund F_int))] in
  wrap_store fundamental_only (AVector (AFund F_int)) (Seq v) [] = Done items /\
  wrap_load fundamental_only (AVector (AFund F_int)) (Seq []) (items ++ [])
  = Done (Seq (resize (AFund F_int) (length v) []), []).
Proof.
  apply (plain_vector_count_is_truncated fundamental_only (AFund F_int)
           (replicate (Z.to_nat (2 ^ 32)) (Scalar 1)) [] []).
  - reflexivity.
  - rewrite length_replicate. apply Z2Nat.id. lia.
Defined.

Lemma memfn_ptr_through_archive_witness :
  exists items,
    store_memfn_ptr fundamental_only 4096 GenericItanium false true [4128; 16] []
    = Done items /\
    load_memfn_ptr fundamental_only 8192 GenericItanium 2 false true [7; 8] (items ++ [])
    = Done (if negb false && true then [7; 8]
            else to_abs_memfn_ptr 8192 GenericItanium
                   (to_rel_memfn_ptr 4096 GenericItanium [4128; 16]), []) /\
    (false = false -> true = true ->
     forall rest',
       load_opaque fundamental_only 2 (skipn 1 items ++ rest') = Done ([4128; 16], rest')).
Proof.
  apply (memfn_ptr_through_archive fundamental_only 4096 8192 GenericItanium 2
           false true [4128; 16] [7; 8] []).
  - reflexivity.
  - repeat (constructor; [unfold Int64.in_range, Int64.min_signed, Int64.max_signed; lia|]).
    constructor.
  - cbn. lia.
Defined.

Lemma archive_ptr_is_copied_witness :
  exists items,
    store_archive_ptr fundamental_only 4112 [] = Done (Scalar 255 :: Scalar 64 :: items) /\
    load_archive_ptr fundamental_only (Scalar 255 :: Scalar 64 :: items ++ [])
    = Done (4112, []).
Proof.
  apply (archive_ptr_is_copied fundamental_only 4112 []).
  unfold Int64.in_range, Int64.min_signed, Int64.max_signed. lia.
Defined.

End Runs.

End ArchiveIOProofs.
